(** * PostgreSQL MCP gateway: a shallow embedding of [postgresql-mcp.py]

    The development follows the Python module top to bottom:

    - [PyStr]: the [str] methods the module calls ([strip], [upper],
      [lower], [startswith], [in], [join]);
    - values, dictionaries and the object store (dictionaries are mutable
      objects, [copy] allocates, [update] and [pop] mutate in place);
    - the database driver, as an environment that answers each call from
      the history of the calls made so far;
    - [get_config_from_args], [get_connection] and the operation handlers
      [execute_query], [insert_data], [update_data];
    - the catalogue handlers [list_tables], [describe_table],
      [list_schemas], and [create_table];
    - the properties.

    Modelling boundaries.  A text is held as the UTF-8 bytes of its
    characters; [strip] and [upper] act on the characters, with the
    white space and the upper case of Unicode, and [lower] on the ASCII
    letters, which is all the module can observe of it.  JSON
    values are the scalars [None], booleans, integers and strings.
    Integer environment variables are taken after [int(...)].  A fetched
    row is the list of its columns with their values, whichever cursor
    class produced it.  The command-line parser and the start of the
    server are outside the embedding. *)

From Stdlib Require Import ZArith Ascii String.
From stdpp Require Import base strings list gmap fin_maps pretty.

(* ===================================================================== *)
(** ** Python strings *)
(* ===================================================================== *)

Module PyStr.

Definition NL : string := String (ascii_of_nat 10) EmptyString.

Definition is_upper (c : ascii) : bool :=
  let n := nat_of_ascii c in (65 <=? n)%nat && (n <=? 90)%nat.

Definition lower_char (c : ascii) : ascii :=
  if is_upper c then ascii_of_nat (nat_of_ascii c + 32) else c.

Fixpoint map_chars (f : ascii → ascii) (s : string) : string :=
  match s with
  | EmptyString => EmptyString
  | String c s' => String (f c) (map_chars f s')
  end.

(** [s.lower()], on the bytes of the text: the letters [A-Z] become
    [a-z].  The module looks in lower-cased texts for ASCII patterns
    only, and the two characters outside ASCII whose lower case holds
    an ASCII letter (U+0130 and U+212A, giving [i] with a combining dot
    and [k]) neither complete nor break a match of any of them. *)
Definition lower (s : string) : string := map_chars lower_char s.

(** *** Characters

    A text is held as the UTF-8 bytes of its characters.  [str.strip]
    and [str.upper] work character by character, on any character of
    Unicode; they are defined on the code points of the text. *)

Abbreviation text := (list N).

Definition is_continuation (n : N) : bool := ((0x80 <=? n) && (n <? 0xC0))%N.

(** The code point of a sequence that is complete: U+FFFD if a shorter
    sequence stands for it. *)
Definition finish (acc floor : N) : N :=
  if (acc <? floor)%N then 0xFFFD%N else acc.

(** The decoder: [more] bytes of the current character are still to
    come, [acc] holds its bits read so far and [floor] the least code
    point a sequence of its length stands for.  Bytes that are not the
    UTF-8 of a text, which no Python text gives, read as U+FFFD. *)
Fixpoint decode (more : nat) (acc floor : N) (s : string) : text :=
  match s with
  | EmptyString => match more with 0 => [] | _ => [0xFFFD%N] end
  | String b s' =>
      let n := N_of_ascii b in
      if is_continuation n then
        match more with
        | 0 => 0xFFFD%N :: decode 0 0 0 s'
        | 1 => finish (acc * 64 + n mod 64) floor :: decode 0 0 0 s'
        | S k => decode k (acc * 64 + n mod 64) floor s'
        end
      else
        match more with 0 => [] | _ => [0xFFFD%N] end
        ++ (if (n <? 0x80)%N then n :: decode 0 0 0 s'
            else if (n <? 0xE0)%N then decode 1 (n mod 32) 0x80 s'
            else if (n <? 0xF0)%N then decode 2 (n mod 16) 0x800 s'
            else decode 3 (n mod 8) 0x10000 s')
  end.

(** The characters of a text. *)
Definition code_points (s : string) : text := decode 0 0 0 s.

(** White space as [str.strip()] and [str.isspace()] know it: TAB, LF,
    VT, FF, CR, the separators U+001C-U+001F, the blank, NEL, the
    no-break space, the Ogham space mark, the spaces U+2000-U+200A, the
    line and paragraph separators, the narrow no-break space, the
    medium mathematical space and the ideographic space. *)
Definition is_space (p : N) : bool :=
  ((0x09 <=? p) && (p <=? 0x0D) || (0x1C <=? p) && (p <=? 0x20)
   || (p =? 0x85) || (p =? 0xA0) || (p =? 0x1680)
   || (0x2000 <=? p) && (p <=? 0x200A) || (p =? 0x2028) || (p =? 0x2029)
   || (p =? 0x202F) || (p =? 0x205F) || (p =? 0x3000))%N.

Fixpoint lstrip (l : text) : text :=
  match l with
  | [] => []
  | p :: l' => if is_space p then lstrip l' else l
  end.

Fixpoint rstrip (l : text) : text :=
  match l with
  | [] => []
  | p :: l' =>
      match rstrip l' with
      | [] => if is_space p then [] else [p]
      | r => p :: r
      end
  end.

(** [s.strip()] *)
Definition strip (l : text) : text := rstrip (lstrip l).

(** The upper case of the characters, from the Unicode Character
    Database (version 14.0, the one of CPython 3.11).  A run
    [(first, last, step, to)] sends [first] to [to] and every
    [step]-th character up to [last] to the character as far from [to]
    as it is from [first]. *)
Definition upper_runs : list (N * N * N * N) :=
  [(0x61, 0x7A, 1, 0x41); (0xB5, 0xB5, 1, 0x39C); (0xE0, 0xF6, 1, 0xC0);
   (0xF8, 0xFE, 1, 0xD8); (0xFF, 0xFF, 1, 0x178); (0x101, 0x12F, 2, 0x100);
   (0x131, 0x131, 1, 0x49); (0x133, 0x137, 2, 0x132);
   (0x13A, 0x148, 2, 0x139); (0x14B, 0x177, 2, 0x14A);
   (0x17A, 0x17E, 2, 0x179); (0x17F, 0x17F, 1, 0x53);
   (0x180, 0x180, 1, 0x243); (0x183, 0x185, 2, 0x182);
   (0x188, 0x188, 1, 0x187); (0x18C, 0x18C, 1, 0x18B);
   (0x192, 0x192, 1, 0x191); (0x195, 0x195, 1, 0x1F6);
   (0x199, 0x199, 1, 0x198); (0x19A, 0x19A, 1, 0x23D);
   (0x19E, 0x19E, 1, 0x220); (0x1A1, 0x1A5, 2, 0x1A0);
   (0x1A8, 0x1A8, 1, 0x1A7); (0x1AD, 0x1AD, 1, 0x1AC);
   (0x1B0, 0x1B0, 1, 0x1AF); (0x1B4, 0x1B6, 2, 0x1B3);
   (0x1B9, 0x1B9, 1, 0x1B8); (0x1BD, 0x1BD, 1, 0x1BC);
   (0x1BF, 0x1BF, 1, 0x1F7); (0x1C5, 0x1C5, 1, 0x1C4);
   (0x1C6, 0x1C6, 1, 0x1C4); (0x1C8, 0x1C8, 1, 0x1C7);
   (0x1C9, 0x1C9, 1, 0x1C7); (0x1CB, 0x1CB, 1, 0x1CA);
   (0x1CC, 0x1CC, 1, 0x1CA); (0x1CE, 0x1DC, 2, 0x1CD);
   (0x1DD, 0x1DD, 1, 0x18E); (0x1DF, 0x1EF, 2, 0x1DE);
   (0x1F2, 0x1F2, 1, 0x1F1); (0x1F3, 0x1F3, 1, 0x1F1);
   (0x1F5, 0x1F5, 1, 0x1F4); (0x1F9, 0x21F, 2, 0x1F8);
   (0x223, 0x233, 2, 0x222); (0x23C, 0x23C, 1, 0x23B);
   (0x23F, 0x240, 1, 0x2C7E); (0x242, 0x242, 1, 0x241);
   (0x247, 0x24F, 2, 0x246); (0x250, 0x250, 1, 0x2C6F);
   (0x251, 0x251, 1, 0x2C6D); (0x252, 0x252, 1, 0x2C70);
   (0x253, 0x253, 1, 0x181); (0x254, 0x254, 1, 0x186);
   (0x256, 0x257, 1, 0x189); (0x259, 0x259, 1, 0x18F);
   (0x25B, 0x25B, 1, 0x190); (0x25C, 0x25C, 1, 0xA7AB);
   (0x260, 0x260, 1, 0x193); (0x261, 0x261, 1, 0xA7AC);
   (0x263, 0x263, 1, 0x194); (0x265, 0x265, 1, 0xA78D);
   (0x266, 0x266, 1, 0xA7AA); (0x268, 0x268, 1, 0x197);
   (0x269, 0x269, 1, 0x196); (0x26A, 0x26A, 1, 0xA7AE);
   (0x26B, 0x26B, 1, 0x2C62); (0x26C, 0x26C, 1, 0xA7AD);
   (0x26F, 0x26F, 1, 0x19C); (0x271, 0x271, 1, 0x2C6E);
   (0x272, 0x272, 1, 0x19D); (0x275, 0x275, 1, 0x19F);
   (0x27D, 0x27D, 1, 0x2C64); (0x280, 0x280, 1, 0x1A6);
   (0x282, 0x282, 1, 0xA7C5); (0x283, 0x283, 1, 0x1A9);
   (0x287, 0x287, 1, 0xA7B1); (0x288, 0x288, 1, 0x1AE);
   (0x289, 0x289, 1, 0x244); (0x28A, 0x28B, 1, 0x1B1);
   (0x28C, 0x28C, 1, 0x245); (0x292, 0x292, 1, 0x1B7);
   (0x29D, 0x29D, 1, 0xA7B2); (0x29E, 0x29E, 1, 0xA7B0);
   (0x345, 0x345, 1, 0x399); (0x371, 0x373, 2, 0x370);
   (0x377, 0x377, 1, 0x376); (0x37B, 0x37D, 1, 0x3FD);
   (0x3AC, 0x3AC, 1, 0x386); (0x3AD, 0x3AF, 1, 0x388);
   (0x3B1, 0x3C1, 1, 0x391); (0x3C2, 0x3C2, 1, 0x3A3);
   (0x3C3, 0x3CB, 1, 0x3A3); (0x3CC, 0x3CC, 1, 0x38C);
   (0x3CD, 0x3CE, 1, 0x38E); (0x3D0, 0x3D0, 1, 0x392);
   (0x3D1, 0x3D1, 1, 0x398); (0x3D5, 0x3D5, 1, 0x3A6);
   (0x3D6, 0x3D6, 1, 0x3A0); (0x3D7, 0x3D7, 1, 0x3CF);
   (0x3D9, 0x3EF, 2, 0x3D8); (0x3F0, 0x3F0, 1, 0x39A);
   (0x3F1, 0x3F1, 1, 0x3A1); (0x3F2, 0x3F2, 1, 0x3F9);
   (0x3F3, 0x3F3, 1, 0x37F); (0x3F5, 0x3F5, 1, 0x395);
   (0x3F8, 0x3F8, 1, 0x3F7); (0x3FB, 0x3FB, 1, 0x3FA);
   (0x430, 0x44F, 1, 0x410); (0x450, 0x45F, 1, 0x400);
   (0x461, 0x481, 2, 0x460); (0x48B, 0x4BF, 2, 0x48A);
   (0x4C2, 0x4CE, 2, 0x4C1); (0x4CF, 0x4CF, 1, 0x4C0);
   (0x4D1, 0x52F, 2, 0x4D0); (0x561, 0x586, 1, 0x531);
   (0x10D0, 0x10FA, 1, 0x1C90); (0x10FD, 0x10FF, 1, 0x1CBD);
   (0x13F8, 0x13FD, 1, 0x13F0); (0x1C80, 0x1C80, 1, 0x412);
   (0x1C81, 0x1C81, 1, 0x414); (0x1C82, 0x1C82, 1, 0x41E);
   (0x1C83, 0x1C84, 1, 0x421); (0x1C85, 0x1C85, 1, 0x422);
   (0x1C86, 0x1C86, 1, 0x42A); (0x1C87, 0x1C87, 1, 0x462);
   (0x1C88, 0x1C88, 1, 0xA64A); (0x1D79, 0x1D79, 1, 0xA77D);
   (0x1D7D, 0x1D7D, 1, 0x2C63); (0x1D8E, 0x1D8E, 1, 0xA7C6);
   (0x1E01, 0x1E95, 2, 0x1E00); (0x1E9B, 0x1E9B, 1, 0x1E60);
   (0x1EA1, 0x1EFF, 2, 0x1EA0); (0x1F00, 0x1F07, 1, 0x1F08);
   (0x1F10, 0x1F15, 1, 0x1F18); (0x1F20, 0x1F27, 1, 0x1F28);
   (0x1F30, 0x1F37, 1, 0x1F38); (0x1F40, 0x1F45, 1, 0x1F48);
   (0x1F51, 0x1F57, 2, 0x1F59); (0x1F60, 0x1F67, 1, 0x1F68);
   (0x1F70, 0x1F71, 1, 0x1FBA); (0x1F72, 0x1F75, 1, 0x1FC8);
   (0x1F76, 0x1F77, 1, 0x1FDA); (0x1F78, 0x1F79, 1, 0x1FF8);
   (0x1F7A, 0x1F7B, 1, 0x1FEA); (0x1F7C, 0x1F7D, 1, 0x1FFA);
   (0x1FB0, 0x1FB1, 1, 0x1FB8); (0x1FBE, 0x1FBE, 1, 0x399);
   (0x1FD0, 0x1FD1, 1, 0x1FD8); (0x1FE0, 0x1FE1, 1, 0x1FE8);
   (0x1FE5, 0x1FE5, 1, 0x1FEC); (0x214E, 0x214E, 1, 0x2132);
   (0x2170, 0x217F, 1, 0x2160); (0x2184, 0x2184, 1, 0x2183);
   (0x24D0, 0x24E9, 1, 0x24B6); (0x2C30, 0x2C5F, 1, 0x2C00);
   (0x2C61, 0x2C61, 1, 0x2C60); (0x2C65, 0x2C65, 1, 0x23A);
   (0x2C66, 0x2C66, 1, 0x23E); (0x2C68, 0x2C6C, 2, 0x2C67);
   (0x2C73, 0x2C73, 1, 0x2C72); (0x2C76, 0x2C76, 1, 0x2C75);
   (0x2C81, 0x2CE3, 2, 0x2C80); (0x2CEC, 0x2CEE, 2, 0x2CEB);
   (0x2CF3, 0x2CF3, 1, 0x2CF2); (0x2D00, 0x2D25, 1, 0x10A0);
   (0x2D27, 0x2D27, 1, 0x10C7); (0x2D2D, 0x2D2D, 1, 0x10CD);
   (0xA641, 0xA66D, 2, 0xA640); (0xA681, 0xA69B, 2, 0xA680);
   (0xA723, 0xA72F, 2, 0xA722); (0xA733, 0xA76F, 2, 0xA732);
   (0xA77A, 0xA77C, 2, 0xA779); (0xA77F, 0xA787, 2, 0xA77E);
   (0xA78C, 0xA78C, 1, 0xA78B); (0xA791, 0xA793, 2, 0xA790);
   (0xA794, 0xA794, 1, 0xA7C4); (0xA797, 0xA7A9, 2, 0xA796);
   (0xA7B5, 0xA7C3, 2, 0xA7B4); (0xA7C8, 0xA7CA, 2, 0xA7C7);
   (0xA7D1, 0xA7D1, 1, 0xA7D0); (0xA7D7, 0xA7D9, 2, 0xA7D6);
   (0xA7F6, 0xA7F6, 1, 0xA7F5); (0xAB53, 0xAB53, 1, 0xA7B3);
   (0xAB70, 0xABBF, 1, 0x13A0); (0xFF41, 0xFF5A, 1, 0xFF21);
   (0x10428, 0x1044F, 1, 0x10400); (0x104D8, 0x104FB, 1, 0x104B0);
   (0x10597, 0x105BB, 2, 0x10570); (0x10598, 0x105A0, 2, 0x10571);
   (0x105A4, 0x105B0, 2, 0x1057D); (0x105B4, 0x105B8, 2, 0x1058D);
   (0x105BC, 0x105BC, 1, 0x10595); (0x10CC0, 0x10CF2, 1, 0x10C80);
   (0x118C0, 0x118DF, 1, 0x118A0); (0x16E60, 0x16E7F, 1, 0x16E40);
   (0x1E922, 0x1E943, 1, 0x1E900)]%N.

(** The characters whose upper case is more than one character. *)
Definition upper_special : list (N * list N) :=
  [(0xDF, [0x53; 0x53]); (0x149, [0x2BC; 0x4E]); (0x1F0, [0x4A; 0x30C]);
   (0x390, [0x399; 0x308; 0x301]); (0x3B0, [0x3A5; 0x308; 0x301]);
   (0x587, [0x535; 0x552]); (0x1E96, [0x48; 0x331]); (0x1E97, [0x54; 0x308]);
   (0x1E98, [0x57; 0x30A]); (0x1E99, [0x59; 0x30A]); (0x1E9A, [0x41; 0x2BE]);
   (0x1F50, [0x3A5; 0x313]); (0x1F52, [0x3A5; 0x313; 0x300]);
   (0x1F54, [0x3A5; 0x313; 0x301]); (0x1F56, [0x3A5; 0x313; 0x342]);
   (0x1F80, [0x1F08; 0x399]); (0x1F81, [0x1F09; 0x399]);
   (0x1F82, [0x1F0A; 0x399]); (0x1F83, [0x1F0B; 0x399]);
   (0x1F84, [0x1F0C; 0x399]); (0x1F85, [0x1F0D; 0x399]);
   (0x1F86, [0x1F0E; 0x399]); (0x1F87, [0x1F0F; 0x399]);
   (0x1F88, [0x1F08; 0x399]); (0x1F89, [0x1F09; 0x399]);
   (0x1F8A, [0x1F0A; 0x399]); (0x1F8B, [0x1F0B; 0x399]);
   (0x1F8C, [0x1F0C; 0x399]); (0x1F8D, [0x1F0D; 0x399]);
   (0x1F8E, [0x1F0E; 0x399]); (0x1F8F, [0x1F0F; 0x399]);
   (0x1F90, [0x1F28; 0x399]); (0x1F91, [0x1F29; 0x399]);
   (0x1F92, [0x1F2A; 0x399]); (0x1F93, [0x1F2B; 0x399]);
   (0x1F94, [0x1F2C; 0x399]); (0x1F95, [0x1F2D; 0x399]);
   (0x1F96, [0x1F2E; 0x399]); (0x1F97, [0x1F2F; 0x399]);
   (0x1F98, [0x1F28; 0x399]); (0x1F99, [0x1F29; 0x399]);
   (0x1F9A, [0x1F2A; 0x399]); (0x1F9B, [0x1F2B; 0x399]);
   (0x1F9C, [0x1F2C; 0x399]); (0x1F9D, [0x1F2D; 0x399]);
   (0x1F9E, [0x1F2E; 0x399]); (0x1F9F, [0x1F2F; 0x399]);
   (0x1FA0, [0x1F68; 0x399]); (0x1FA1, [0x1F69; 0x399]);
   (0x1FA2, [0x1F6A; 0x399]); (0x1FA3, [0x1F6B; 0x399]);
   (0x1FA4, [0x1F6C; 0x399]); (0x1FA5, [0x1F6D; 0x399]);
   (0x1FA6, [0x1F6E; 0x399]); (0x1FA7, [0x1F6F; 0x399]);
   (0x1FA8, [0x1F68; 0x399]); (0x1FA9, [0x1F69; 0x399]);
   (0x1FAA, [0x1F6A; 0x399]); (0x1FAB, [0x1F6B; 0x399]);
   (0x1FAC, [0x1F6C; 0x399]); (0x1FAD, [0x1F6D; 0x399]);
   (0x1FAE, [0x1F6E; 0x399]); (0x1FAF, [0x1F6F; 0x399]);
   (0x1FB2, [0x1FBA; 0x399]); (0x1FB3, [0x391; 0x399]);
   (0x1FB4, [0x386; 0x399]); (0x1FB6, [0x391; 0x342]);
   (0x1FB7, [0x391; 0x342; 0x399]); (0x1FBC, [0x391; 0x399]);
   (0x1FC2, [0x1FCA; 0x399]); (0x1FC3, [0x397; 0x399]);
   (0x1FC4, [0x389; 0x399]); (0x1FC6, [0x397; 0x342]);
   (0x1FC7, [0x397; 0x342; 0x399]); (0x1FCC, [0x397; 0x399]);
   (0x1FD2, [0x399; 0x308; 0x300]); (0x1FD3, [0x399; 0x308; 0x301]);
   (0x1FD6, [0x399; 0x342]); (0x1FD7, [0x399; 0x308; 0x342]);
   (0x1FE2, [0x3A5; 0x308; 0x300]); (0x1FE3, [0x3A5; 0x308; 0x301]);
   (0x1FE4, [0x3A1; 0x313]); (0x1FE6, [0x3A5; 0x342]);
   (0x1FE7, [0x3A5; 0x308; 0x342]); (0x1FF2, [0x1FFA; 0x399]);
   (0x1FF3, [0x3A9; 0x399]); (0x1FF4, [0x38F; 0x399]);
   (0x1FF6, [0x3A9; 0x342]); (0x1FF7, [0x3A9; 0x342; 0x399]);
   (0x1FFC, [0x3A9; 0x399]); (0xFB00, [0x46; 0x46]); (0xFB01, [0x46; 0x49]);
   (0xFB02, [0x46; 0x4C]); (0xFB03, [0x46; 0x46; 0x49]);
   (0xFB04, [0x46; 0x46; 0x4C]); (0xFB05, [0x53; 0x54]);
   (0xFB06, [0x53; 0x54]); (0xFB13, [0x544; 0x546]);
   (0xFB14, [0x544; 0x535]); (0xFB15, [0x544; 0x53B]);
   (0xFB16, [0x54E; 0x546]); (0xFB17, [0x544; 0x53D])]%N.

Definition in_run (p : N) (r : N * N * N * N) : bool :=
  let '(first, last, step, _) := r in
  ((first <=? p) && (p <=? last) && ((p - first) mod step =? 0))%N.

Definition upper_point (p : N) : text :=
  match List.find (λ e, (e.1 =? p)%N) upper_special with
  | Some (_, l) => l
  | None =>
      match List.find (in_run p) upper_runs with
      | Some (first, _, _, to) => [(to + (p - first))%N]
      | None => [p]
      end
  end.

(** [s.upper()] *)
Definition upper (l : text) : text := l ≫= upper_point.

(** [s] begins with the characters [p]. *)
Fixpoint begins (s p : text) : bool :=
  match p with
  | [] => true
  | c :: p' =>
      match s with
      | [] => false
      | d :: s' => (c =? d)%N && begins s' p'
      end
  end.

(** [s.startswith(p)], for the characters [s] of a text *)
Definition startswith (s : text) (p : string) : bool :=
  begins s (code_points p).

(** [sub in s] *)
Fixpoint contains (sub s : string) : bool :=
  String.prefix sub s ||
  match s with
  | EmptyString => false
  | String _ s' => contains sub s'
  end.

(** [sep.join(l)] *)
Fixpoint join (sep : string) (l : list string) : string :=
  match l with
  | [] => EmptyString
  | [x] => x
  | x :: l' => x +:+ sep +:+ join sep l'
  end.

(** [not s] *)
Definition is_empty (s : string) : bool :=
  match s with EmptyString => true | _ => false end.

End PyStr.

Import PyStr.

(* ===================================================================== *)
(** ** Values and dictionaries *)
(* ===================================================================== *)

(** The values that travel through the gateway. *)
Inductive value : Type :=
| VNone
| VBool (b : bool)
| VInt (z : Z)
| VStr (s : string).

(** [str(v)], which is also how an f-string renders [v]. *)
Definition str_value (v : value) : string :=
  match v with
  | VNone => "None"
  | VBool true => "True"
  | VBool false => "False"
  | VInt z => pretty z
  | VStr s => s
  end.

(** The name Python prints for the type of [v]. *)
Definition type_name (v : value) : string :=
  match v with
  | VNone => "NoneType"
  | VBool _ => "bool"
  | VInt _ => "int"
  | VStr _ => "str"
  end.

(** [not v] *)
Definition falsy (v : value) : bool :=
  match v with
  | VNone => true
  | VBool b => negb b
  | VInt z => (z =? 0)%Z
  | VStr s => is_empty s
  end.

(** A connection profile: a dictionary from option names to values.  The
    order of the keys plays no role for a profile. *)
Abbreviation config := (gmap string value).

(** A record of a table: a dictionary whose iteration order matters, kept
    as the list of its items in insertion order. *)
Abbreviation record := (list (string * value)).

(** [list(d.keys())] *)
Definition keys (d : record) : list string := d.*1.

(** [list(d.values())] *)
Definition values (d : record) : list value := d.*2.

(** [d.get(k)]: the value of [k], [None] when [k] is missing. *)
Fixpoint record_get (d : record) (k : string) : value :=
  match d with
  | [] => VNone
  | (k', v) :: d' => if String.eqb k' k then v else record_get d' k
  end.

(* ===================================================================== *)
(** ** Exceptions and outcomes *)
(* ===================================================================== *)

Inductive exn : Type :=
| Error (msg : string)              (* psycopg2.Error and its subclasses *)
| TypeError (msg : string)
| KeyError (key : string)
| UnboundLocalError (name : string)
| Exception (msg : string).         (* any other subclass of Exception *)

(** [str(e)].  An [UnboundLocalError] is never rendered by the module; its
    text names the variable. *)
Definition str_exn (e : exn) : string :=
  match e with
  | Error msg => msg
  | TypeError msg => msg
  | KeyError key => "'" +:+ key +:+ "'"
  | UnboundLocalError name => name
  | Exception msg => msg
  end.

(** [str(last_error)], where [last_error] starts as [None]. *)
Definition str_last_error (e : option exn) : string :=
  match e with
  | None => "None"
  | Some e => str_exn e
  end.

(** The outcome of running a piece of the program: a value, a raised
    exception, or [OutOfFuel] when a loop of the model was cut short (the
    theorems show that this never happens). *)
Inductive outcome (A : Type) : Type :=
| Ret (a : A)
| Raise (e : exn)
| OutOfFuel.
Arguments Ret {A} a.
Arguments Raise {A} e.
Arguments OutOfFuel {A}.

(* ===================================================================== *)
(** ** The object store and the driver *)
(* ===================================================================== *)

(** A reference to a dictionary object. *)
Abbreviation loc := nat.

(** What the program does to the outside: the calls it makes to the
    driver, in order, and the lines it prints.  [Cursor] stands for
    [conn.cursor(...)] with or without a cursor factory. *)
Inductive effect : Type :=
| Connect (conn_params : config)
| Cursor
| Execute (sql : string) (params : list value)
| ExecuteMany (sql : string) (rows : list (list value))
| Fetchall
| Commit
| CursorClose
| ConnClose
| Print (line : string).

(** The answer of the driver to one call. *)
Inductive answer (A : Type) : Type :=
| Ok (a : A)
| Fail (e : exn).
Arguments Ok {A} a.
Arguments Fail {A} e.

(** The driver and the database behind it.  Every answer may depend on
    everything the program has done before the call. *)
Record driver : Type := {
  drv_connect : list effect → config → answer unit;
  drv_cursor : list effect → answer unit;
  drv_execute : list effect → string → list value → answer unit;
  drv_executemany : list effect → string → list (list value) → answer unit;
  drv_fetchall : list effect → answer (list record);
  drv_rowcount : list effect → Z;
  drv_commit : list effect → answer unit;
  drv_closed : list effect → bool;
  drv_cursor_close : list effect → answer unit;
  drv_conn_close : list effect → answer unit
}.

(** The state of the process: the dictionary objects, what has been done
    to the outside, the two module-level names, and whether the local
    names [conn] and [cursor] of the running handler are bound. *)
Record world : Type := {
  heap : list config;
  trace : list effect;
  DEFAULT_DB_CONFIG : loc;
  GLOBAL_DB_CONFIG : option loc;
  local_conn : bool;
  local_cursor : bool
}.

Definition set_heap (h : list config) (w : world) : world :=
  {| heap := h; trace := trace w;
     DEFAULT_DB_CONFIG := DEFAULT_DB_CONFIG w;
     GLOBAL_DB_CONFIG := GLOBAL_DB_CONFIG w;
     local_conn := local_conn w; local_cursor := local_cursor w |}.

Definition set_trace (t : list effect) (w : world) : world :=
  {| heap := heap w; trace := t;
     DEFAULT_DB_CONFIG := DEFAULT_DB_CONFIG w;
     GLOBAL_DB_CONFIG := GLOBAL_DB_CONFIG w;
     local_conn := local_conn w; local_cursor := local_cursor w |}.

Definition set_GLOBAL_DB_CONFIG (g : option loc) (w : world) : world :=
  {| heap := heap w; trace := trace w;
     DEFAULT_DB_CONFIG := DEFAULT_DB_CONFIG w;
     GLOBAL_DB_CONFIG := g;
     local_conn := local_conn w; local_cursor := local_cursor w |}.

Definition set_locals (c k : bool) (w : world) : world :=
  {| heap := heap w; trace := trace w;
     DEFAULT_DB_CONFIG := DEFAULT_DB_CONFIG w;
     GLOBAL_DB_CONFIG := GLOBAL_DB_CONFIG w;
     local_conn := c; local_cursor := k |}.

(** The dictionary a reference points to. *)
Definition deref (w : world) (l : loc) : config := default ∅ (heap w !! l).

(* ===================================================================== *)
(** ** Computations *)
(* ===================================================================== *)

Definition M (A : Type) : Type := world → outcome A * world.

#[global] Instance M_ret : MRet M := λ A a w, (Ret a, w).

#[global] Instance M_bind : MBind M := λ A B f m w,
  match m w with
  | (Ret a, w') => f a w'
  | (Raise e, w') => (Raise e, w')
  | (OutOfFuel, w') => (OutOfFuel, w')
  end.

Definition raise {A : Type} (e : exn) : M A := λ w, (Raise e, w).

Definition out_of_fuel {A : Type} : M A := λ w, (OutOfFuel, w).

Definition gets {A : Type} (f : world → A) : M A := λ w, (Ret (f w), w).

Definition modify (f : world → world) : M unit := λ w, (Ret tt, f w).

(** [try: m  except Error as e: h (str e)] *)
Definition except_Error {A : Type} (m : M A) (h : exn → M A) : M A := λ w,
  match m w with
  | (Raise (Error msg), w') => h (Error msg) w'
  | r => r
  end.

(** A call to the driver: the answer comes from the history, the call
    joins the history. *)
Definition call {A : Type} (e : effect) (ans : list effect → answer A) : M A := λ w,
  let w' := set_trace (trace w ++ [e]) w in
  match ans (trace w) with
  | Ok a => (Ret a, w')
  | Fail x => (Raise x, w')
  end.

(** [print(line)] *)
Definition print (line : string) : M unit :=
  modify (λ w, set_trace (trace w ++ [Print line]) w).

(** *** Dictionary objects *)

(** A new dictionary object with the items [c]. *)
Definition dict_new (c : config) : M loc := λ w,
  (Ret (length (heap w)), set_heap (heap w ++ [c]) w).

(** [d.copy()] *)
Definition dict_copy (d : loc) : M loc :=
  c ← gets (λ w, deref w d); dict_new c.

(** [d.update(other)]: the items of [other] replace those of [d]. *)
Definition dict_update (d other : loc) : M unit :=
  modify (λ w, set_heap (<[d := deref w other ∪ deref w d]> (heap w)) w).

(** [d[k] = v] *)
Definition dict_setitem (d : loc) (k : string) (v : value) : M unit :=
  modify (λ w, set_heap (<[d := <[k := v]> (deref w d)]> (heap w)) w).

(** [d.pop(k, dflt)] *)
Definition dict_pop (d : loc) (k : string) (dflt : value) : M value := λ w,
  (Ret (default dflt (deref w d !! k)),
   set_heap (<[d := delete k (deref w d)]> (heap w)) w).

(** [d[k]] *)
Definition dict_getitem (d : loc) (k : string) : M value := λ w,
  match deref w d !! k with
  | Some v => (Ret v, w)
  | None => (Raise (KeyError k), w)
  end.

(** [d.get(k, dflt)] *)
Definition dict_get (d : loc) (k : string) (dflt : value) : M value :=
  gets (λ w, default dflt (deref w d !! k)).

(* ===================================================================== *)
(** ** Configuration at start-up *)
(* ===================================================================== *)

(** The environment variables the module reads when it is imported; the
    integer ones hold the result of [int(...)]. *)
Record environ : Type := {
  POSTGRES_HOST : option string;
  POSTGRES_PORT : option Z;
  POSTGRES_USER : option string;
  POSTGRES_PASSWORD : option string;
  POSTGRES_DATABASE : option string;
  POSTGRES_CONNECTION_TIMEOUT : option Z;
  POSTGRES_CONNECT_RETRY_COUNT : option Z
}.

(** The dictionary display bound to [DEFAULT_DB_CONFIG]. *)
Definition default_db_config (env : environ) : config :=
  <["host" := VStr (default "localhost" (POSTGRES_HOST env))]>
  (<["port" := VInt (default 5432%Z (POSTGRES_PORT env))]>
  (<["user" := VStr (default "postgres" (POSTGRES_USER env))]>
  (<["password" := VStr (default "postgres" (POSTGRES_PASSWORD env))]>
  (<["database" := VStr (default "postgres" (POSTGRES_DATABASE env))]>
  (<["connect_timeout" := VInt (default 10%Z (POSTGRES_CONNECTION_TIMEOUT env))]>
  (<["connect_retry_count" := VInt (default 3%Z (POSTGRES_CONNECT_RETRY_COUNT env))]>
   ∅)))))).

(** The namespace [parse_args()] returns: an option that was not given on
    the command line is [None]. *)
Record Namespace : Type := {
  arg_host : option string;
  arg_port : option Z;
  arg_user : option string;
  arg_password : option string;
  arg_database : option string;
  arg_connection_timeout : option Z;
  arg_connect_retry_count : option Z
}.

(** [if args.x: cmd_config[key] = args.x], for a text and for an integer
    option: an empty text and a zero count as not given. *)
Definition set_if_str (d : loc) (key : string) (a : option string) : M unit :=
  match a with
  | Some s => if is_empty s then mret tt else dict_setitem d key (VStr s)
  | None => mret tt
  end.

Definition set_if_int (d : loc) (key : string) (a : option Z) : M unit :=
  match a with
  | Some z => if (z =? 0)%Z then mret tt else dict_setitem d key (VInt z)
  | None => mret tt
  end.

Definition get_config_from_args (args : Namespace) : M loc :=
  cmd_config ← dict_new ∅;
  set_if_str cmd_config "host" (arg_host args);;
  set_if_int cmd_config "port" (arg_port args);;
  set_if_str cmd_config "user" (arg_user args);;
  set_if_str cmd_config "password" (arg_password args);;
  set_if_str cmd_config "database" (arg_database args);;
  set_if_int cmd_config "connect_timeout" (arg_connection_timeout args);;
  set_if_int cmd_config "connect_retry_count" (arg_connect_retry_count args);;
  default_ ← gets DEFAULT_DB_CONFIG;
  config ← dict_copy default_;
  dict_update config cmd_config;;
  mret config.

(** The process after the module was imported. *)
Definition import_module (env : environ) : world :=
  {| heap := [default_db_config env]; trace := [];
     DEFAULT_DB_CONFIG := 0; GLOBAL_DB_CONFIG := None;
     local_conn := false; local_cursor := false |}.

(** The [__main__] block, up to [mcp.run()]. *)
Definition main (args : Namespace) : M unit :=
  config ← get_config_from_args args;
  modify (set_GLOBAL_DB_CONFIG (Some config)).

(** The process once it serves calls: imported as a module ([None]), or run
    as a script with the parsed command line. *)
Definition boot (env : environ) (cli : option Namespace) : world :=
  match cli with
  | None => import_module env
  | Some args => (main args (import_module env)).2
  end.

(** The caller's [db_config] argument: a dictionary object of its own, or
    [None]. *)
Definition pass_db_config (db_config : option config) (w : world)
  : option loc * world :=
  match db_config with
  | None => (None, w)
  | Some c => (Some (length (heap w)), set_heap (heap w ++ [c]) w)
  end.

(* ===================================================================== *)
(** ** get_connection *)
(* ===================================================================== *)

(** [n < v] for an integer [n]; a boolean is an integer, a text or [None]
    does not compare. *)
Definition int_lt (n : Z) (v : value) : M bool :=
  match v with
  | VInt z => mret (n <? z)%Z
  | VBool b => mret (n <? (if b then 1 else 0))%Z
  | _ => raise (TypeError ("'<' not supported between instances of 'int' and '"
                           +:+ type_name v +:+ "'"))
  end.

(** How the retry loop ends: with [return conn], or with its condition
    false. *)
Inductive loop_end : Type :=
| Returned
| Exhausted (retry_count : Z) (last_error : option exn).

Section Gateway.

Variable drv : driver.

(** The [while retry_count < max_retries] loop of [get_connection]. *)
Fixpoint connect_loop (fuel : nat) (db_config : loc) (max_retries : value)
    (retry_count : Z) (last_error : option exn) : M loop_end :=
  match fuel with
  | O => out_of_fuel
  | S fuel' =>
      again ← int_lt retry_count max_retries;
      if again : bool then
        step ← except_Error
                 (conn_params ← dict_copy db_config;
                  params ← gets (λ w, deref w conn_params);
                  call (Connect params) (λ t, drv_connect drv t params);;
                  mret (inl tt))
                 (λ e,
                  let retry_count := (retry_count + 1)%Z in
                  more ← int_lt retry_count max_retries;
                  (if more : bool
                   then print ("第 " +:+ pretty retry_count
                               +:+ " 次连接失败，正在重试... 错误: " +:+ str_exn e)
                   else mret tt);;
                  mret (inr (retry_count, e)));
        match step with
        | inl _ => mret Returned
        | inr (retry_count, e) =>
            connect_loop fuel' db_config max_retries retry_count (Some e)
        end
      else mret (Exhausted retry_count last_error)
  end.

(** Iterations the loop can make from [retry_count = 0], plus the last
    test of its condition. *)
Definition loop_fuel (max_retries : value) : nat :=
  match max_retries with
  | VInt z => S (Z.to_nat z)
  | _ => 2
  end.

(** The diagnosis appended to the message, by the text of the last
    error. *)
Definition diagnose_connection (db_config : loc) (last_error : option exn)
  : M string :=
  let text := lower (str_last_error last_error) in
  if contains "connection refused" text then
    host ← dict_getitem db_config "host";
    port ← dict_getitem db_config "port";
    timeout ← dict_get db_config "connect_timeout" (VInt 10);
    mret (NL +:+ "无法连接到PostgreSQL服务器，请检查主机 " +:+ str_value host
          +:+ " 和端口 " +:+ str_value port +:+ " 是否正确"
          +:+ NL +:+ "连接超时时间为 " +:+ str_value timeout +:+ " 秒")
  else if contains "password authentication failed" text then
    user ← dict_getitem db_config "user";
    mret (NL +:+ "认证失败，请检查用户名 " +:+ str_value user +:+ " 和密码是否正确")
  else if contains "does not exist" text && contains "database" text then
    database ← dict_getitem db_config "database";
    mret (NL +:+ "未知数据库 " +:+ str_value database +:+ "，请确认数据库名称是否正确")
  else mret "".

(** The first line of the message of the raised exception. *)
Definition connection_error_head (retry_count : Z) (last_error : option exn)
  : string :=
  "数据库连接错误(重试 " +:+ pretty retry_count +:+ " 次后): "
  +:+ str_last_error last_error.

(** The first statement of [get_connection]: the profile it works on is
    a copy of the process-wide dictionary, or of the defaults, with the
    items of the caller's dictionary on top. *)
Definition effective_config (db_config : option loc) : M loc :=
  match db_config with
  | None =>
      global ← gets GLOBAL_DB_CONFIG;
      match global with
      | Some g => dict_copy g
      | None => d ← gets DEFAULT_DB_CONFIG; dict_copy d
      end
  | Some db_config =>
      global ← gets GLOBAL_DB_CONFIG;
      config ← match global with
               | Some g => dict_copy g
               | None => d ← gets DEFAULT_DB_CONFIG; dict_copy d
               end;
      dict_update config db_config;;
      mret config
  end.

Definition get_connection (db_config : option loc) : M unit :=
  db_config ← effective_config db_config;
  max_retries ← dict_pop db_config "connect_retry_count" (VInt 3);
  r ← connect_loop (loop_fuel max_retries) db_config max_retries 0 None;
  match r with
  | Returned => mret tt
  | Exhausted retry_count last_error =>
      suffix ← diagnose_connection db_config last_error;
      raise (Exception (connection_error_head retry_count last_error +:+ suffix))
  end.

(* =================================================================== *)
(** ** The operation handlers *)
(* =================================================================== *)

(** The dictionary a handler returns, by its keys. *)
Inductive result : Type :=
| RowSet (rows : list record) (row_count : Z)
    (* success: True, rows, row_count *)
| Affected (affected_rows : Z)
    (* success: True, affected_rows *)
| AffectedMessage (affected_rows : Z) (message : string)
    (* success: True, affected_rows, message *)
| Failure (error : string)
    (* error *)
| QueryFailure (error : string) (query : string).
    (* error, query *)

(** [conn = get_connection(db_config)] *)
Definition bind_conn (db_config : option loc) : M unit :=
  get_connection db_config;;
  modify (λ w, set_locals true (local_cursor w) w).

(** [cursor = conn.cursor(...)] *)
Definition bind_cursor : M unit :=
  call Cursor (drv_cursor drv);;
  modify (λ w, set_locals (local_conn w) true w).

(** The [finally] clause every handler ends with:
    [if 'conn' in locals() and not conn.closed: cursor.close(); conn.close()] *)
Definition cleanup : M unit :=
  has_conn ← gets local_conn;
  if has_conn : bool then
    closed ← gets (λ w, drv_closed drv (trace w));
    if closed : bool then mret tt
    else
      has_cursor ← gets local_cursor;
      (if has_cursor : bool
       then call CursorClose (drv_cursor_close drv)
       else raise (UnboundLocalError "cursor"));;
      call ConnClose (drv_conn_close drv)
  else mret tt.

(** [return v] inside a [try] with the [finally] clause above: the
    clause runs first, and an exception it raises replaces the return. *)
Definition return_finally (v : result) : M result := cleanup;; mret v.

(** [try: body  except Error as e: return on_Error(str(e))
    except Exception as e: return on_Exception(str(e))  finally: cleanup] *)
Definition try_handler (body : M result)
    (on_Error on_Exception : string → result) : M result := λ w,
  match body w with
  | (Ret v, w1) => return_finally v w1
  | (Raise (Error msg), w1) => return_finally (on_Error msg) w1
  | (Raise e, w1) => return_finally (on_Exception (str_exn e)) w1
  | (OutOfFuel, w1) => (OutOfFuel, w1)
  end.

(** A handler starts with no local name bound. *)
Definition enter : M unit := modify (set_locals false false).

(** *** execute_query *)

(** The test on [query_upper] that selects the row-set branch. *)
Definition returns_rows (query : string) : bool :=
  let query_upper := upper (strip (code_points query)) in
  startswith query_upper "SELECT" || startswith query_upper "SHOW"
  || startswith query_upper "DESCRIBE" || startswith query_upper "EXPLAIN".

Definition execute_query_error (query : string) (e : string) : result :=
  let error_message := "执行查询失败: " +:+ e in
  let text := lower e in
  QueryFailure
    (if contains "column" text && contains "does not exist" text
     then error_message +:+ NL +:+ "原因：查询中包含未知的列名"
     else if contains "relation" text && contains "does not exist" text
     then error_message +:+ NL +:+ "原因：查询的表不存在"
     else if contains "syntax error" text
     then error_message +:+ NL +:+ "原因：SQL语法错误"
     else error_message)
    query.

Definition execute_query (query : string) (params : option (list value))
    (db_config : option loc) : M result :=
  enter;;
  if is_empty query then mret (Failure "查询语句不能为空")
  else
    let params := default [] params in
    try_handler
      (bind_conn db_config;;
       bind_cursor;;
       call (Execute query params) (λ t, drv_execute drv t query params);;
       if returns_rows query then
         results ← call Fetchall (drv_fetchall drv);
         let dict_results := results in
         mret (RowSet dict_results (Z.of_nat (length dict_results)))
       else
         call Commit (drv_commit drv);;
         rowcount ← gets (λ w, drv_rowcount drv (trace w));
         mret (Affected rowcount))
      (execute_query_error query)
      (λ e, QueryFailure ("执行过程中发生未知错误: " +:+ e) query).

(** *** insert_data *)

(** An element of the list given as [data]: a dictionary, or not. *)
Inductive item : Type :=
| ItemDict (d : record)
| ItemValue (v : value).

(** The [data] argument of [insert_data]: one dictionary or a list. *)
Inductive insert_payload : Type :=
| Single (d : record)
| Many (l : list item).

(** [isinstance(x, dict)] *)
Definition is_dict (x : item) : bool :=
  match x with ItemDict _ => true | ItemValue _ => false end.

(** [not x] *)
Definition item_falsy (x : item) : bool :=
  match x with
  | ItemDict [] => true
  | ItemDict _ => false
  | ItemValue v => falsy v
  end.

(** The dictionary behind an item that passed [isinstance(item, dict)]. *)
Definition as_record (x : item) : record :=
  match x with ItemDict d => d | ItemValue _ => [] end.

Definition insert_data_error (table_name schema_name : string) (e : string)
  : result :=
  let error_message := "插入数据失败: " +:+ e in
  let text := lower e in
  Failure
    (if contains "does not exist" text
     then error_message +:+ NL +:+ "原因：表 " +:+ schema_name +:+ "."
          +:+ table_name +:+ " 不存在"
     else if contains "violates" text && contains "constraint" text
     then error_message +:+ NL +:+ "原因：违反表约束条件"
     else if contains "column" text && contains "does not exist" text
     then error_message +:+ NL +:+ "原因：表中不存在指定的列"
     else error_message).

(** The text of the statement [insert_data] builds. *)
Definition insert_sql (table_name schema_name : string) (columns : list string)
  : string :=
  let placeholders := join ", " (replicate (length columns) "%s") in
  let column_str := join ", " columns in
  "INSERT INTO " +:+ schema_name +:+ "." +:+ table_name +:+ " (" +:+ column_str
  +:+ ") VALUES (" +:+ placeholders +:+ ")".

Definition insert_data (table_name : string) (data : insert_payload)
    (schema_name : string) (db_config : option loc) : M result :=
  enter;;
  if is_empty table_name then mret (Failure "表名不能为空")
  else if match data with Single [] | Many [] => true | _ => false end
  then mret (Failure "插入数据不能为空")
  else
    let data := match data with Single d => [ItemDict d] | Many l => l end in
    if negb (forallb is_dict data)
    then mret (Failure "数据格式错误，应为字典或字典列表")
    else
      try_handler
        (bind_conn db_config;;
         bind_cursor;;
         first ← match data with
                 | x :: _ => mret (as_record x)
                 | [] => raise (Exception "list index out of range")
                 end;
         let columns := keys first in
         let sql := insert_sql table_name schema_name columns in
         let values :=
           (λ x, (λ col, record_get (as_record x) col) <$> columns) <$> data in
         call (ExecuteMany sql values) (λ t, drv_executemany drv t sql values);;
         call Commit (drv_commit drv);;
         let n := Z.of_nat (length data) in
         mret (AffectedMessage n
                 ("成功向表 " +:+ schema_name +:+ "." +:+ table_name +:+ " 插入 "
                  +:+ pretty n +:+ " 条数据")))
        (insert_data_error table_name schema_name)
        (λ e, Failure ("插入数据时发生未知错误: " +:+ e)).

(** *** update_data *)

Definition update_data_error (table_name schema_name : string) (e : string)
  : result :=
  let error_message := "更新数据失败: " +:+ e in
  let text := lower e in
  Failure
    (if contains "does not exist" text
     then error_message +:+ NL +:+ "原因：表 " +:+ schema_name +:+ "."
          +:+ table_name +:+ " 不存在"
     else if contains "column" text && contains "does not exist" text
     then error_message +:+ NL +:+ "原因：尝试更新不存在的列"
     else if contains "syntax error" text
     then error_message +:+ NL +:+ "原因：SQL语法错误，请检查条件语句"
     else error_message).

(** The [for key, value in data.items()] loop: the two lists it appends
    to, started from [set_items] and [set_values]. *)
Fixpoint build_set (data : record) (set_items : list string)
    (set_values : list value) : list string * list value :=
  match data with
  | [] => (set_items, set_values)
  | (key, value) :: data' =>
      build_set data' (set_items ++ [key +:+ " = %s"]) (set_values ++ [value])
  end.

(** The text of the statement [update_data] builds. *)
Definition update_sql (table_name schema_name set_clause condition : string)
  : string :=
  "UPDATE " +:+ schema_name +:+ "." +:+ table_name +:+ " SET " +:+ set_clause
  +:+ " WHERE " +:+ condition.

(** [data] is an item (a dictionary or not); [condition] is [None] when
    the caller passes no text. *)
Definition update_data (table_name : string) (data : item)
    (condition : option string) (params : option (list value))
    (schema_name : string) (db_config : option loc) : M result :=
  enter;;
  if is_empty table_name then mret (Failure "表名不能为空")
  else if item_falsy data || negb (is_dict data)
  then mret (Failure "更新数据不能为空且必须是字典格式")
  else if match condition with None => true | Some c => is_empty c end
  then mret (Failure "更新条件不能为空，为了安全起见，必须提供WHERE条件")
  else
    let data := as_record data in
    let condition := default "" condition in
    try_handler
      (bind_conn db_config;;
       bind_cursor;;
       let '(set_items, set_values) := build_set data [] [] in
       let set_clause := join ", " set_items in
       let sql := update_sql table_name schema_name set_clause condition in
       let all_params :=
         match params with
         | None | Some [] => set_values
         | Some params => set_values ++ params
         end in
       call (Execute sql all_params) (λ t, drv_execute drv t sql all_params);;
       affected_rows ← gets (λ w, drv_rowcount drv (trace w));
       call Commit (drv_commit drv);;
       mret (AffectedMessage affected_rows
               ("成功更新表 " +:+ schema_name +:+ "." +:+ table_name +:+ " 中的 "
                +:+ pretty affected_rows +:+ " 条数据")))
      (update_data_error table_name schema_name)
      (λ e, Failure ("更新数据时发生未知错误: " +:+ e)).

End Gateway.

(* ===================================================================== *)
(** ** The catalogue handlers and create_table *)
(* ===================================================================== *)

Section Catalogue.

Variable drv : driver.

(** The dictionary these handlers return, by its keys. *)
Inductive catalogue_result : Type :=
| Tables (schema : string) (tables : list value) (count : Z)
    (* success: True, schema, tables, count *)
| TableDescription (table schema : string) (columns : list record)
    (primary_keys : list value)
    (* success: True, table, schema, columns, primary_keys *)
| Schemas (schemas : list value) (count : Z)
    (* success: True, schemas, count *)
| Created (message : string)
    (* success: True, message *)
| CatalogueFailure (error : string).
    (* error *)

(** [return v] under the [finally] clause, and the [try] statement of a
    handler, for any kind of returned dictionary. *)
Definition finally_return {R : Type} (v : R) : M R := cleanup drv;; mret v.

Definition try_except_finally {R : Type} (body : M R)
    (on_Error on_Exception : string → R) : M R := λ w,
  match body w with
  | (Ret v, w1) => finally_return v w1
  | (Raise (Error msg), w1) => finally_return (on_Error msg) w1
  | (Raise e, w1) => finally_return (on_Exception (str_exn e)) w1
  | (OutOfFuel, w1) => (OutOfFuel, w1)
  end.

(** [cursor.execute(sql, params)]; a call without parameters is written
    with the empty list. *)
Definition execute (sql : string) (params : list value) : M unit :=
  call (Execute sql params) (λ t, drv_execute drv t sql params).

(** [cursor.fetchall()] *)
Definition fetchall : M (list record) := call Fetchall (drv_fetchall drv).

(** [row[0]] and [row[key]] for a fetched row: the first value of the
    row, the value under a column name. *)
Definition row_first (row : record) : M value :=
  match values row with
  | v :: _ => mret v
  | [] => raise (Exception "tuple index out of range")
  end.

Fixpoint record_lookup (d : record) (k : string) : option value :=
  match d with
  | [] => None
  | (k', v) :: d' => if String.eqb k' k then Some v else record_lookup d' k
  end.

Definition row_item (key : string) (row : record) : M value :=
  match record_lookup row key with
  | Some v => mret v
  | None => raise (KeyError key)
  end.

(** [[f(row) for row in rows]] *)
Fixpoint comprehension {A B : Type} (f : A → M B) (rows : list A) : M (list B) :=
  match rows with
  | [] => mret []
  | row :: rows' =>
      v ← f row;
      vs ← comprehension f rows';
      mret (v :: vs)
  end.

(** *** list_tables *)

(** The statement of [list_tables], as the triple-quoted text has it. *)
Definition list_tables_sql : string :=
  NL +:+ "            SELECT table_name "
  +:+ NL +:+ "            FROM information_schema.tables "
  +:+ NL +:+ "            WHERE table_schema = %s"
  +:+ NL +:+ "            ORDER BY table_name"
  +:+ NL +:+ "        ".

Definition list_tables_error (e : string) : catalogue_result :=
  let error_message := "获取表列表失败: " +:+ e in
  CatalogueFailure
    (if contains "permission denied" (lower e)
     then error_message +:+ NL +:+ "原因：当前用户没有足够权限执行查询"
     else error_message).

Definition list_tables (schema_name : string) (db_config : option loc)
  : M catalogue_result :=
  enter;;
  try_except_finally
    (bind_conn drv db_config;;
     bind_cursor drv;;
     execute list_tables_sql [VStr schema_name];;
     rows ← fetchall;
     tables ← comprehension row_first rows;
     mret (Tables schema_name tables (Z.of_nat (length tables))))
    list_tables_error
    (λ e, CatalogueFailure ("获取表列表时发生未知错误: " +:+ e)).

(** *** describe_table *)

(** The two statements of [describe_table]. *)
Definition describe_columns_sql : string :=
  NL +:+ "            SELECT "
  +:+ NL +:+ "                column_name, "
  +:+ NL +:+ "                data_type, "
  +:+ NL +:+ "                character_maximum_length,"
  +:+ NL +:+ "                column_default,"
  +:+ NL +:+ "                is_nullable"
  +:+ NL +:+ "            FROM information_schema.columns "
  +:+ NL +:+ "            WHERE table_schema = %s AND table_name = %s"
  +:+ NL +:+ "            ORDER BY ordinal_position"
  +:+ NL +:+ "        ".

Definition describe_primary_key_sql : string :=
  NL +:+ "            SELECT a.attname as column_name"
  +:+ NL +:+ "            FROM pg_index i"
  +:+ NL +:+ "            JOIN pg_attribute a ON a.attrelid = i.indrelid AND a.attnum = ANY(i.indkey)"
  +:+ NL +:+ "            WHERE i.indrelid = %s::regclass AND i.indisprimary"
  +:+ NL +:+ "        ".

Definition describe_table_error (table_name schema_name : string) (e : string)
  : catalogue_result :=
  let error_message := "获取表结构失败: " +:+ e in
  let text := lower e in
  CatalogueFailure
    (if contains "does not exist" text
     then error_message +:+ NL +:+ "原因：表 " +:+ schema_name +:+ "."
          +:+ table_name +:+ " 不存在"
     else if contains "permission denied" text
     then error_message +:+ NL +:+ "原因：当前用户没有足够权限查看表结构"
     else error_message).

Definition describe_table (table_name schema_name : string)
    (db_config : option loc) : M catalogue_result :=
  enter;;
  if is_empty table_name then mret (CatalogueFailure "表名不能为空")
  else
    try_except_finally
      (bind_conn drv db_config;;
       bind_cursor drv;;
       execute describe_columns_sql [VStr schema_name; VStr table_name];;
       columns ← fetchall;
       execute describe_primary_key_sql
               [VStr (schema_name +:+ "." +:+ table_name)];;
       rows ← fetchall;
       primary_keys ← comprehension (row_item "column_name") rows;
       mret (TableDescription table_name schema_name columns primary_keys))
      (describe_table_error table_name schema_name)
      (λ e, CatalogueFailure ("获取表结构时发生未知错误: " +:+ e)).

(** *** list_schemas *)

(** The statement of [list_schemas]. *)
Definition list_schemas_sql : string :=
  NL +:+ "            SELECT schema_name "
  +:+ NL +:+ "            FROM information_schema.schemata "
  +:+ NL +:+ "            WHERE schema_name NOT LIKE 'pg_%' "
  +:+ NL +:+ "              AND schema_name != 'information_schema'"
  +:+ NL +:+ "            ORDER BY schema_name"
  +:+ NL +:+ "        ".

Definition list_schemas (db_config : option loc) : M catalogue_result :=
  enter;;
  try_except_finally
    (bind_conn drv db_config;;
     bind_cursor drv;;
     execute list_schemas_sql [];;
     rows ← fetchall;
     schemas ← comprehension row_first rows;
     mret (Schemas schemas (Z.of_nat (length schemas))))
    (λ e, CatalogueFailure ("获取模式列表失败: " +:+ e))
    (λ e, CatalogueFailure ("获取模式列表时发生未知错误: " +:+ e)).

(** *** create_table *)

(** [key in d] *)
Definition has_key (d : record) (key : string) : bool :=
  existsb (String.eqb key) (keys d).

(** [x.get(key)] for an element of [columns]: only a dictionary has the
    method. *)
Definition item_get (x : item) (key : string) : M value :=
  match x with
  | ItemDict d => mret (record_get d key)
  | ItemValue v =>
      raise (Exception ("'" +:+ type_name v +:+ "' object has no attribute 'get'"))
  end.

(** [v is False] *)
Definition is_False (v : value) : bool :=
  match v with VBool false => true | _ => false end.

(** How the loop over [columns] ends: with the early [return] of the
    error dictionary, or with the two lists it built. *)
Inductive columns_end : Type :=
| Rejected
| Built (column_defs : list string) (primary_keys : list value).

(** The [for col in columns] loop of [create_table]. *)
Fixpoint columns_loop (columns : list item) (column_defs : list string)
    (primary_keys : list value) : M columns_end :=
  match columns with
  | [] => mret (Built column_defs primary_keys)
  | col :: columns' =>
      name ← item_get col "name";
      if falsy name then mret Rejected
      else
        type ← item_get col "type";
        if falsy type then mret Rejected
        else
          let d := as_record col in
          let col_def := str_value (record_get d "name") +:+ " "
                         +:+ str_value (record_get d "type") in
          primary_key ← item_get col "primary_key";
          let primary_keys :=
            if falsy primary_key then primary_keys
            else primary_keys ++ [record_get d "name"] in
          nullable ← item_get col "nullable";
          let col_def :=
            if is_False nullable then col_def +:+ " NOT NULL" else col_def in
          let col_def :=
            if has_key d "default"
            then col_def +:+ " DEFAULT " +:+ str_value (record_get d "default")
            else col_def in
          columns_loop columns' (column_defs ++ [col_def]) primary_keys
  end.

(** [sep.join(l)] for a list of values: every item must be a text. *)
Fixpoint join_values (sep : string) (i : nat) (l : list value) : M string :=
  match l with
  | [] => mret EmptyString
  | v :: l' =>
      match v with
      | VStr s =>
          match l' with
          | [] => mret s
          | _ => rest ← join_values sep (S i) l'; mret (s +:+ sep +:+ rest)
          end
      | _ => raise (TypeError ("sequence item " +:+ pretty i
                               +:+ ": expected str instance, "
                               +:+ type_name v +:+ " found"))
      end
  end.

Definition create_table_error (table_name schema_name : string) (e : string)
  : catalogue_result :=
  let error_message := "创建表失败: " +:+ e in
  let text := lower e in
  CatalogueFailure
    (if contains "already exists" text
     then error_message +:+ NL +:+ "原因：表 " +:+ schema_name +:+ "."
          +:+ table_name +:+ " 已存在"
     else if contains "syntax error" text
     then error_message +:+ NL +:+ "原因：SQL语法错误，请检查列定义"
     else error_message).

Definition create_table (table_name : string) (columns : list item)
    (schema_name : string) (if_not_exists : bool) (db_config : option loc)
  : M catalogue_result :=
  enter;;
  if is_empty table_name then mret (CatalogueFailure "表名不能为空")
  else if match columns with [] => true | _ => false end
  then mret (CatalogueFailure "列定义不能为空")
  else
    try_except_finally
      (let not_exists_clause :=
         if if_not_exists then "IF NOT EXISTS " else EmptyString in
       let sql := "CREATE TABLE " +:+ not_exists_clause +:+ schema_name +:+ "."
                  +:+ table_name +:+ " (" in
       built ← columns_loop columns [] [];
       match built with
       | Rejected => mret (CatalogueFailure "每个列定义必须包含name和type字段")
       | Built column_defs primary_keys =>
           column_defs ←
             match primary_keys with
             | [] => mret column_defs
             | _ =>
                 joined ← join_values ", " 0 primary_keys;
                 mret (column_defs ++ ["PRIMARY KEY (" +:+ joined +:+ ")"])
             end;
           let sql := sql +:+ join ", " column_defs +:+ ")" in
           bind_conn drv db_config;;
           bind_cursor drv;;
           execute sql [];;
           call Commit (drv_commit drv);;
           mret (Created ("表 " +:+ schema_name +:+ "." +:+ table_name
                          +:+ " 创建成功"))
       end)
      (create_table_error table_name schema_name)
      (λ e, CatalogueFailure ("创建表时发生未知错误: " +:+ e)).

End Catalogue.

(* ===================================================================== *)
(** * Notions used in the statements *)
(* ===================================================================== *)

(** ** The retry loop, turn by turn *)

(** [n < v] without the store: [None] when the two do not compare. *)
Definition lt_value (n : Z) (v : value) : option bool :=
  match v with
  | VInt z => Some (n <? z)%Z
  | VBool b => Some (n <? (if b then 1 else 0))%Z
  | _ => None
  end.

Definition lt_TypeError (v : value) : exn :=
  TypeError ("'<' not supported between instances of 'int' and '"
             +:+ type_name v +:+ "'").

(** The world after [conn_params = db_config.copy()], and after the
    [connect] call that follows. *)
Definition after_copy (c : config) (w : world) : world :=
  set_heap (heap w ++ [c]) w.

Definition after_connect (c : config) (w : world) : world :=
  set_trace (trace w ++ [Connect c]) (after_copy c w).

Definition retry_line (retry_count : Z) (msg : string) : string :=
  "第 " +:+ pretty retry_count +:+ " 次连接失败，正在重试... 错误: " +:+ msg.

Definition after_retry_line (c : config) (retry_count : Z) (msg : string)
    (w : world) : world :=
  set_trace (trace w ++ [Connect c; Print (retry_line retry_count msg)])
            (after_copy c w).

Ltac run :=
  unfold except_Error, dict_copy, dict_new, dict_update, dict_pop, dict_get,
    dict_getitem, dict_setitem, gets, call, print, modify, raise, out_of_fuel,
    mbind, M_bind, mret, M_ret; simpl.

Definition is_attempt_or_line (c : config) (e : effect) : Prop :=
  e = Connect c ∨ ∃ line, e = Print line.

(** [grows c w w']: from [w] to [w'] the store got new objects only, the
    module-level and local names are the same, and the new effects are
    connect calls with the parameters [c] and printed lines. *)
Record grows (c : config) (w w' : world) : Prop := {
  grows_heap : ∃ more, heap w' = heap w ++ more;
  grows_trace : ∃ new, trace w' = trace w ++ new ∧ Forall (is_attempt_or_line c) new;
  grows_DEFAULT : DEFAULT_DB_CONFIG w' = DEFAULT_DB_CONFIG w;
  grows_GLOBAL : GLOBAL_DB_CONFIG w' = GLOBAL_DB_CONFIG w;
  grows_conn : local_conn w' = local_conn w;
  grows_cursor : local_cursor w' = local_cursor w
}.

(** ** The effective profile and the connect calls *)

(** The dictionary [get_connection] copies first. *)
Definition base_config (w : world) : config :=
  match GLOBAL_DB_CONFIG w with
  | Some g => deref w g
  | None => deref w (DEFAULT_DB_CONFIG w)
  end.

(** The items of the effective profile, read off the store. *)
Definition resolved_config (db_config : option loc) (w : world) : config :=
  match db_config with
  | None => base_config w
  | Some l => deref w l ∪ base_config w
  end.

(** The caller's reference points to an object of the store. *)
Definition valid_ref (w : world) (db_config : option loc) : Prop :=
  ∀ l, db_config = Some l → is_Some (heap w !! l).

(** The profile after [pop], and the world in which the loop starts. *)
Definition popped (x : config) : config := delete "connect_retry_count" x.

Definition loop_start (x : config) (w : world) : world :=
  set_heap (heap w ++ [popped x]) w.

Definition is_Connect (e : effect) : bool :=
  match e with Connect _ => true | _ => false end.

(** The number of [connect] calls in a history. *)
Definition connect_attempts (t : list effect) : nat :=
  length (List.filter is_Connect t).

(** The driver answers every [connect] call with a [psycopg2.Error]. *)
Definition always_fails (drv : driver) : Prop :=
  ∀ (t : list effect) (p : config), ∃ msg, drv_connect drv t p = Fail (Error msg).

(** The keys the diagnosis reads with [db_config[...]]. *)
Definition diagnosis_keys : list string := ["host"; "port"; "user"; "database"].

(** ** Sample environments, drivers and calls *)

(** No [POSTGRES_*] variable is set. *)
Definition no_environ : environ :=
  {| POSTGRES_HOST := None; POSTGRES_PORT := None; POSTGRES_USER := None;
     POSTGRES_PASSWORD := None; POSTGRES_DATABASE := None;
     POSTGRES_CONNECTION_TIMEOUT := None; POSTGRES_CONNECT_RETRY_COUNT := None |}.

(** A server that accepts everything: every call succeeds, a query has no
    rows, a statement affects one row. *)
Definition accepting : driver :=
  {| drv_connect := λ _ _, Ok ();
     drv_cursor := λ _, Ok ();
     drv_execute := λ _ _ _, Ok ();
     drv_executemany := λ _ _ _, Ok ();
     drv_fetchall := λ _, Ok [];
     drv_rowcount := λ _, 1%Z;
     drv_commit := λ _, Ok ();
     drv_closed := λ _, false;
     drv_cursor_close := λ _, Ok ();
     drv_conn_close := λ _, Ok () |}.

(** No server answers: every [connect] call fails with the text [msg]. *)
Definition refusing (msg : string) : driver :=
  {| drv_connect := λ _ _, Fail (Error msg);
     drv_cursor := drv_cursor accepting;
     drv_execute := drv_execute accepting;
     drv_executemany := drv_executemany accepting;
     drv_fetchall := drv_fetchall accepting;
     drv_rowcount := drv_rowcount accepting;
     drv_commit := drv_commit accepting;
     drv_closed := drv_closed accepting;
     drv_cursor_close := drv_cursor_close accepting;
     drv_conn_close := drv_conn_close accepting |}.

(** The connection opens, but [conn.cursor(...)] raises. *)
Definition without_cursor (msg : string) : driver :=
  {| drv_connect := drv_connect accepting;
     drv_cursor := λ _, Fail (Error msg);
     drv_execute := drv_execute accepting;
     drv_executemany := drv_executemany accepting;
     drv_fetchall := drv_fetchall accepting;
     drv_rowcount := drv_rowcount accepting;
     drv_commit := drv_commit accepting;
     drv_closed := drv_closed accepting;
     drv_cursor_close := drv_cursor_close accepting;
     drv_conn_close := drv_conn_close accepting |}.

(** A call that asks for no retry at all, in a process imported as a
    module. *)
Definition zero_retries_call : option loc * world :=
  pass_db_config (Some {["connect_retry_count" := VInt 0]})
                 (boot no_environ None).

(** ** The diagnosis of an authentication failure *)

(** The line [get_connection] appends for a failed authentication. *)
Definition username_hint (user : value) : string :=
  NL +:+ "认证失败，请检查用户名 " +:+ str_value user +:+ " 和密码是否正确".

(** A failure text that contains both "password" and "authentication
    failed", but not the phrase. *)
Definition scattered_text : string := "authentication failed: wrong password".

(** C5 as stated, for a driver that fails every [connect] call with the
    text [msg]: the hint follows whenever the text contains both
    substrings (and not "connection refused"). *)
Definition hint_as_stated (msg : string) (w : world) (N : Z) (user : value)
  : Prop :=
  contains "password" (lower msg) = true →
  contains "authentication failed" (lower msg) = true →
  contains "connection refused" (lower msg) = false →
  (get_connection (refusing msg) None w).1
  = Raise (Exception (connection_error_head N (Some (Error msg))
                      +:+ username_hint user)).

(** ** The configuration of a running process *)

(** The items [get_config_from_args] puts into [cmd_config]. *)
Definition put_str (key : string) (a : option string) (c : config) : config :=
  match a with
  | Some s => if is_empty s then c else <[key := VStr s]> c
  | None => c
  end.

Definition put_int (key : string) (a : option Z) (c : config) : config :=
  match a with
  | Some z => if (z =? 0)%Z then c else <[key := VInt z]> c
  | None => c
  end.

Definition cmd_config (args : Namespace) : config :=
  put_int "connect_retry_count" (arg_connect_retry_count args)
  (put_int "connect_timeout" (arg_connection_timeout args)
  (put_str "database" (arg_database args)
  (put_str "password" (arg_password args)
  (put_str "user" (arg_user args)
  (put_int "port" (arg_port args)
  (put_str "host" (arg_host args) ∅)))))).

(** [configured env cli w]: in [w] the defaults are those of the
    environment [env], and the process-wide dictionary is unset (the
    module was imported) or holds the defaults with the command line [cli]
    on top (the module runs as a script). *)
Definition configured (env : environ) (cli : option Namespace) (w : world)
  : Prop :=
  heap w !! DEFAULT_DB_CONFIG w = Some (default_db_config env)
  ∧ match cli with
    | None => GLOBAL_DB_CONFIG w = None
    | Some args =>
        ∃ g, GLOBAL_DB_CONFIG w = Some g
             ∧ heap w !! g = Some (cmd_config args ∪ default_db_config env)
    end.

(** A script started with [--port 6543 --user app] and a call that gives
    its own [user] and [sslmode]. *)
Definition sample_args : Namespace :=
  {| arg_host := None; arg_port := Some 6543%Z; arg_user := Some "app";
     arg_password := None; arg_database := None;
     arg_connection_timeout := None; arg_connect_retry_count := None |}.

Definition sample_call : option loc * world :=
  pass_db_config (Some (<["user" := VStr "report"]> {["sslmode" := VStr "require"]}))
                 (boot no_environ (Some sample_args)).

(** ** The handlers *)

(** The effects of the [finally] clause after the history [t], when both
    local names are bound. *)
Definition closing (drv : driver) (t : list effect) : list effect :=
  if drv_closed drv t then [] else [CursorClose; ConnClose].

(** The [finally] clause does not raise after the history [t]: if the
    connection is still open, closing the cursor and then the
    connection succeeds. *)
Definition closes_after (drv : driver) (t : list effect) : Prop :=
  drv_closed drv t = false →
  drv_cursor_close drv t = Ok ()
  ∧ drv_conn_close drv (t ++ [CursorClose]) = Ok ().

(** The words that mark a statement as one that returns rows. *)
Definition row_keywords : list string :=
  ["SELECT"; "SHOW"; "DESCRIBE"; "EXPLAIN"].

(** The statement is of the reading kind: without the white space
    around it and with its case ignored, it starts with one of the
    words. *)
Definition reading_statement (query : string) : bool :=
  existsb (λ word, startswith (upper (strip (code_points query))) word)
          row_keywords.

(** C3 as stated, for one statement: a row set and no commit exactly when
    the statement is of the reading kind, and for any other statement a
    commit and an affected-row count. *)
Definition classification_as_stated (drv : driver) (query : string)
    (w : world) : Prop :=
  let r := execute_query drv query None None w in
  ((∃ rows n, r.1 = Ret (RowSet rows n)) ∧ Commit ∉ trace r.2
   ↔ reading_statement query = true)
  ∧ (reading_statement query = false →
     Commit ∈ trace r.2 ∧ ∃ n, r.1 = Ret (Affected n)).

Definition validation_messages : list string :=
  ["表名不能为空"; "更新数据不能为空且必须是字典格式";
   "更新条件不能为空，为了安全起见，必须提供WHERE条件"].

(** The SET items of a dictionary, one per key. *)
Definition set_items_of (data : record) : list string :=
  (λ key, key +:+ " = %s") <$> keys data.

(** The effects of a [finally] clause. *)
Definition is_close (e : effect) : Prop := e = CursorClose ∨ e = ConnClose.

(** ** Termination of the model *)

(** [total m]: the computation [m] ends with a value or an exception. *)
Definition total {A : Type} (m : M A) : Prop := ∀ w, (m w).1 ≠ OutOfFuel.

(** The largest [retry_count] for which the loop condition can hold,
    plus one. *)
Definition retry_bound (max_retries : value) : Z :=
  match max_retries with
  | VInt z => z
  | VBool b => if b then 1 else 0
  | _ => 0
  end.

(** ** What a handler may do to the world *)

(** [evolves Q w w']: from [w] to [w'] the store got new objects only,
    the module-level names are bound as before, and every new effect
    satisfies [Q]. *)
Record evolves (Q : effect → Prop) (w w' : world) : Prop := {
  ev_heap : ∃ more, heap w' = heap w ++ more;
  ev_trace : ∃ new, trace w' = trace w ++ new ∧ Forall Q new;
  ev_DEFAULT : DEFAULT_DB_CONFIG w' = DEFAULT_DB_CONFIG w;
  ev_GLOBAL : GLOBAL_DB_CONFIG w' = GLOBAL_DB_CONFIG w
}.

(** Every run of [m] evolves the world within [Q]. *)
Definition within (Q : effect → Prop) {A : Type} (m : M A) : Prop :=
  ∀ w, evolves Q w (m w).2.

(** The effects of acquiring and releasing a connection. *)
Definition session_effect (e : effect) : Prop :=
  match e with
  | Connect _ | Print _ | Cursor | CursorClose | ConnClose => True
  | _ => False
  end.

(** The effects of a handler that only reads: no [commit], no
    [executemany]. *)
Definition reading_effect (e : effect) : Prop :=
  match e with
  | Commit | ExecuteMany _ _ => False
  | _ => True
  end.

(** [Q] admits whatever acquiring and releasing a connection does. *)
Definition admits_session (Q : effect → Prop) : Prop :=
  ∀ e, session_effect e → Q e.

(** ** Local names and the release of the connection *)

(** [m] leaves the local names [conn] and [cursor] as they are. *)
Definition keeps_locals {A : Type} (m : M A) : Prop :=
  ∀ w, local_conn (m w).2 = local_conn w
       ∧ local_cursor (m w).2 = local_cursor w.

(** Started with [conn] unbound, [m] ends with [cursor] bound whenever
    [conn] is. *)
Definition cursor_follows_conn {A : Type} (m : M A) : Prop :=
  ∀ w, local_conn w = false →
       local_conn (m w).2 = true → local_cursor (m w).2 = true.

(** [conn.cursor(...)] never raises. *)
Definition cursor_opens (drv : driver) : Prop :=
  ∀ t, drv_cursor drv t = Ok ().

(** Closing a cursor or a connection never raises. *)
Definition closes_quietly (drv : driver) : Prop :=
  (∀ t, drv_cursor_close drv t = Ok ()) ∧ (∀ t, drv_conn_close drv t = Ok ()).

(** In [w'] no connection is left open by the handler: if one was
    opened, the driver reports it closed, or the last two calls closed
    the cursor and the connection. *)
Definition released (drv : driver) (w' : world) : Prop :=
  local_conn w' = true →
  drv_closed drv (trace w') = true
  ∨ ∃ t, trace w' = t ++ [CursorClose; ConnClose].

(** [m] returns a dictionary, raising nothing, and leaves no connection
    open. *)
Definition answers_and_releases (drv : driver) {R : Type} (m : M R) : Prop :=
  ∀ w, ∃ v w', m w = (Ret v, w') ∧ released drv w'.

(** [m] keeps the configuration of the process and the items of every
    dictionary that exists. *)
Definition keeps_configuration {A : Type} (m : M A) : Prop :=
  ∀ env cli w,
    configured env cli w →
    configured env cli (m w).2
    ∧ ∀ l c, heap w !! l = Some c → heap (m w).2 !! l = Some c.

(** ** Counting what the retry loop does *)

Definition is_Print (e : effect) : bool :=
  match e with Print _ => true | _ => false end.

(** The number of lines printed in a history. *)
Definition printed_lines (t : list effect) : nat :=
  length (List.filter is_Print t).

(** What [get_connection] does with the answer that ends the loop. *)
Definition loop_outcome (a : answer unit) : outcome unit :=
  match a with
  | Ok _ => Ret ()
  | Fail e => Raise e
  end.

(** The two lines appended when the server refuses the connection, and
    the line for a database that does not exist. *)
Definition refused_hint (host port timeout : value) : string :=
  NL +:+ "无法连接到PostgreSQL服务器，请检查主机 " +:+ str_value host
  +:+ " 和端口 " +:+ str_value port +:+ " 是否正确"
  +:+ NL +:+ "连接超时时间为 " +:+ str_value timeout +:+ " 秒".

Definition database_hint (database : value) : string :=
  NL +:+ "未知数据库 " +:+ str_value database +:+ "，请确认数据库名称是否正确".

(** A server that is starting up: it fails the [connect] calls of a
    history with fewer than [n] attempts, and accepts afterwards. *)
Definition starting_up (n : nat) : driver :=
  {| drv_connect := λ t _, if connect_attempts t <? n
                           then Fail (Error "the database system is starting up")
                           else Ok ();
     drv_cursor := drv_cursor accepting;
     drv_execute := drv_execute accepting;
     drv_executemany := drv_executemany accepting;
     drv_fetchall := drv_fetchall accepting;
     drv_rowcount := drv_rowcount accepting;
     drv_commit := drv_commit accepting;
     drv_closed := drv_closed accepting;
     drv_cursor_close := drv_cursor_close accepting;
     drv_conn_close := drv_conn_close accepting |}.

(** A server that rejects every statement with the text [msg]. *)
Definition rejecting (msg : string) : driver :=
  {| drv_connect := drv_connect accepting;
     drv_cursor := drv_cursor accepting;
     drv_execute := λ _ _ _, Fail (Error msg);
     drv_executemany := λ _ _ _, Fail (Error msg);
     drv_fetchall := drv_fetchall accepting;
     drv_rowcount := drv_rowcount accepting;
     drv_commit := drv_commit accepting;
     drv_closed := drv_closed accepting;
     drv_cursor_close := drv_cursor_close accepting;
     drv_conn_close := drv_conn_close accepting |}.

(** A server with the rows [first] for the first [fetchall] of a
    history and [second] for a later one. *)
Definition serving (first second : list record) : driver :=
  {| drv_connect := drv_connect accepting;
     drv_cursor := drv_cursor accepting;
     drv_execute := drv_execute accepting;
     drv_executemany := drv_executemany accepting;
     drv_fetchall := λ t, if existsb (λ e, match e with Fetchall => true
                                           | _ => false end) t
                          then Ok second else Ok first;
     drv_rowcount := drv_rowcount accepting;
     drv_commit := drv_commit accepting;
     drv_closed := drv_closed accepting;
     drv_cursor_close := drv_cursor_close accepting;
     drv_conn_close := drv_conn_close accepting |}.

(** ** create_table, column by column *)

(** A column definition that passes the check of the loop: a dictionary
    with a truthy [name] and a truthy [type]. *)
Definition complete_column (x : item) : bool :=
  match x with
  | ItemDict d =>
      negb (falsy (record_get d "name")) && negb (falsy (record_get d "type"))
  | ItemValue _ => false
  end.

(** The text of one column in the statement. *)
Definition column_def (d : record) : string :=
  let col_def := str_value (record_get d "name") +:+ " "
                 +:+ str_value (record_get d "type") in
  let col_def :=
    if is_False (record_get d "nullable") then col_def +:+ " NOT NULL"
    else col_def in
  if has_key d "default"
  then col_def +:+ " DEFAULT " +:+ str_value (record_get d "default")
  else col_def.

(** The names of the columns flagged [primary_key], in the order of the
    columns. *)
Definition primary_key_names (columns : list item) : list value :=
  (λ x, record_get (as_record x) "name")
  <$> List.filter (λ x, negb (falsy (record_get (as_record x) "primary_key")))
                  columns.

(** The statement [create_table] executes for complete columns whose
    primary-key names are the texts [names]. *)
Definition create_statement (table_name schema_name : string)
    (if_not_exists : bool) (columns : list item) (names : list string)
  : string :=
  ("CREATE TABLE " +:+ (if if_not_exists then "IF NOT EXISTS " else EmptyString)
   +:+ schema_name +:+ "." +:+ table_name +:+ " (")
  +:+ join ", " (((λ x, column_def (as_record x)) <$> columns)
                 ++ match names with
                    | [] => []
                    | _ => ["PRIMARY KEY (" +:+ join ", " names +:+ ")"]
                    end)
  +:+ ")".

(** The first value of every row. *)
Definition first_values (rows : list record) : list value :=
  (λ row, hd VNone (values row)) <$> rows.

(** The value under [column_name] of every row. *)
Definition column_names (rows : list record) : list value :=
  (λ row, default VNone (record_lookup row "column_name")) <$> rows.

(** ** The command line, option by option *)

(** What an option of the command line contributes: nothing when it is
    not given, empty or zero. *)
Definition given_str (a : option string) : option value :=
  match a with
  | Some s => if is_empty s then None else Some (VStr s)
  | None => None
  end.

Definition given_int (a : option Z) : option value :=
  match a with
  | Some z => if (z =? 0)%Z then None else Some (VInt z)
  | None => None
  end.

(** The value of the command line if there is one, else that of the
    defaults. *)
Definition or_default (given dflt : option value) : option value :=
  match given with
  | Some v => Some v
  | None => dflt
  end.

(** Every character of [s] is white space for [strip]. *)
Definition blank (s : string) : bool := forallb is_space (code_points s).

(** The small letter of an ASCII capital letter; any other character as
    it is. *)
Definition lower_point (p : N) : N :=
  if ((65 <=? p) && (p <=? 90))%N then (p + 32)%N else p.

(** U+00A0, the no-break space, and U+3000, the ideographic space. *)
Definition no_break_space : string :=
  String (ascii_of_nat 194) (String (ascii_of_nat 160) EmptyString).

Definition ideographic_space : string :=
  String (ascii_of_nat 227)
         (String (ascii_of_nat 128) (String (ascii_of_nat 128) EmptyString)).

(* ===================================================================== *)
(** * Properties *)
(* ===================================================================== *)

(** ** Running computations *)

Lemma bind_Ret {A B : Type} (m : M A) (f : A → M B) (w w' : world) (a : A) :
  m w = (Ret a, w') → (m ≫= f) w = f a w'.
Proof. intros H. unfold mbind, M_bind. by rewrite H. Qed.

(** ** One turn of the retry loop *)

Lemma int_lt_eq (n : Z) (v : value) (w : world) :
  int_lt n v w =
  match lt_value n v with
  | Some b => (Ret b, w)
  | None => (Raise (lt_TypeError v), w)
  end.
Proof. by destruct v. Qed.

Lemma deref_Some (w : world) (l : loc) (c : config) :
  heap w !! l = Some c → deref w l = c.
Proof. intros H. unfold deref. by rewrite H. Qed.

Lemma deref_new (w : world) (c : config) :
  deref (set_heap (heap w ++ [c]) w) (length (heap w)) = c.
Proof.
  unfold deref. simpl. rewrite lookup_app_r by lia. by rewrite Nat.sub_diag.
Qed.

Lemma connect_loop_turn (drv : driver) (fuel : nat) (l : loc)
    (max_retries : value) (rc : Z) (last : option exn) (w : world) (c : config) :
  heap w !! l = Some c →
  connect_loop drv (S fuel) l max_retries rc last w =
  match lt_value rc max_retries with
  | None => (Raise (lt_TypeError max_retries), w)
  | Some false => (Ret (Exhausted rc last), w)
  | Some true =>
      match drv_connect drv (trace w) c with
      | Ok _ => (Ret Returned, after_connect c w)
      | Fail (Error msg) =>
          match lt_value (rc + 1) max_retries with
          | None => (Raise (lt_TypeError max_retries), after_connect c w)
          | Some more =>
              connect_loop drv fuel l max_retries (rc + 1) (Some (Error msg))
                (if more then after_retry_line c (rc + 1) msg w
                 else after_connect c w)
          end
      | Fail e => (Raise e, after_connect c w)
      end
  end.
Proof.
  intros H. simpl. unfold mbind at 1, M_bind at 1. rewrite int_lt_eq.
  destruct (lt_value rc max_retries) as [[]|]; [|done..].
  run. rewrite (deref_Some _ _ _ H), deref_new.
  destruct (drv_connect drv (trace w) c) as [[]|[]]; try done.
  rewrite int_lt_eq.
  destruct (lt_value (rc + 1) max_retries) as [[]|]; simpl; try done.
  unfold after_retry_line, after_copy, retry_line. simpl.
  by rewrite <- app_assoc.
Qed.

(** ** What the loop does to the world, for any driver *)

Lemma grows_refl (c : config) (w : world) : grows c w w.
Proof.
  split; try done.
  - exists []. by rewrite app_nil_r.
  - exists []. by rewrite app_nil_r.
Qed.

Lemma grows_trans (c : config) (w1 w2 w3 : world) :
  grows c w1 w2 → grows c w2 w3 → grows c w1 w3.
Proof.
  intros [[h1 H1] (t1 & T1 & F1) D1 G1 C1 K1] [[h2 H2] (t2 & T2 & F2) D2 G2 C2 K2].
  split; try congruence.
  - exists (h1 ++ h2). by rewrite H2, H1, app_assoc.
  - exists (t1 ++ t2). split; [by rewrite T2, T1, app_assoc|].
    by apply Forall_app.
Qed.

Lemma grows_lookup (c : config) (w w' : world) (l : loc) (x : config) :
  grows c w w' → heap w !! l = Some x → heap w' !! l = Some x.
Proof. intros [[h ->] _ _ _ _ _] H. by apply lookup_app_l_Some. Qed.

Lemma grows_after_connect (c : config) (w : world) : grows c w (after_connect c w).
Proof.
  split; try done; simpl.
  - by exists [c].
  - exists [Connect c]. split; [done|].
    apply Forall_cons; split; [by left|]. apply Forall_nil_2.
Qed.

Lemma grows_after_retry_line (c : config) (n : Z) (msg : string) (w : world) :
  grows c w (after_retry_line c n msg w).
Proof.
  split; try done; simpl.
  - by exists [c].
  - exists [Connect c; Print (retry_line n msg)]. split; [done|].
    apply Forall_cons; split; [by left|].
    apply Forall_cons; split; [right; by eexists|]. apply Forall_nil_2.
Qed.

Lemma connect_loop_grows (drv : driver) (l : loc) (max_retries : value)
    (c : config) (fuel : nat) :
  ∀ (rc : Z) (last : option exn) (w : world),
    heap w !! l = Some c →
    grows c w (connect_loop drv fuel l max_retries rc last w).2.
Proof.
  induction fuel as [|fuel IH]; intros rc last w H.
  - apply grows_refl.
  - rewrite (connect_loop_turn _ _ _ _ _ _ _ _ H).
    destruct (lt_value rc max_retries) as [[]|]; simpl; try apply grows_refl.
    destruct (drv_connect drv (trace w) c) as [[]|[]]; simpl;
      try apply grows_after_connect.
    destruct (lt_value (rc + 1) max_retries) as [[]|]; simpl;
      try apply grows_after_connect.
    + eapply grows_trans; [apply grows_after_retry_line|].
      apply IH. by apply lookup_app_l_Some.
    + eapply grows_trans; [apply grows_after_connect|].
      apply IH. by apply lookup_app_l_Some.
Qed.

(** ** The effective profile *)

Lemma insert_last {A : Type} (l : list A) (x y : A) :
  <[length l := y]> (l ++ [x]) = l ++ [y].
Proof. rewrite insert_app_r_alt by lia. by rewrite Nat.sub_diag. Qed.

Lemma deref_old (w : world) (more : list config) (l : loc) :
  is_Some (heap w !! l) → deref (set_heap (heap w ++ more) w) l = deref w l.
Proof.
  intros [c H]. unfold deref. simpl. by rewrite (lookup_app_l_Some _ _ _ _ H), H.
Qed.

(** [effective_config] allocates one object and touches no other. *)
Lemma effective_config_new (db : option loc) (w : world) :
  ∃ x, effective_config db w
       = (Ret (length (heap w)), set_heap (heap w ++ [x]) w)
       ∧ (valid_ref w db → x = resolved_config db w).
Proof.
  unfold effective_config, resolved_config, base_config.
  destruct db as [l|]; destruct (GLOBAL_DB_CONFIG w) as [g|] eqn:G; run;
    rewrite G; simpl; try rewrite insert_last; eexists; (split; [reflexivity|]);
    try done; intros V; destruct (V l eq_refl) as [c Hc]; rewrite deref_new;
    by rewrite deref_old.
Qed.

Lemma effective_config_eq (db : option loc) (w : world) :
  valid_ref w db →
  effective_config db w
  = (Ret (length (heap w)), set_heap (heap w ++ [resolved_config db w]) w).
Proof.
  intros V. destruct (effective_config_new db w) as (x & E & R).
  by rewrite E, (R V).
Qed.

(** ** get_connection, step by step *)

Lemma diagnose_connection_world (l : loc) (last : option exn) (w : world) :
  (diagnose_connection l last w).2 = w.
Proof.
  unfold diagnose_connection.
  destruct (contains "connection refused" _);
    [|destruct (contains "password authentication failed" _);
      [|destruct (contains "does not exist" _ && contains "database" _)]];
    run; repeat (destruct (deref w l !! _); simpl; try done); done.
Qed.

Lemma get_connection_eq (drv : driver) (db : option loc) (w : world)
    (x : config) :
  effective_config db w = (Ret (length (heap w)), set_heap (heap w ++ [x]) w) →
  get_connection drv db w =
  let l := length (heap w) in
  let max_retries := default (VInt 3) (x !! "connect_retry_count") in
  match connect_loop drv (loop_fuel max_retries) l max_retries 0 None
                     (loop_start x w) with
  | (Ret Returned, w') => (Ret (), w')
  | (Ret (Exhausted retry_count last_error), w') =>
      match diagnose_connection l last_error w' with
      | (Ret suffix, w'') =>
          (Raise (Exception (connection_error_head retry_count last_error
                             +:+ suffix)), w'')
      | (Raise e, w'') => (Raise e, w'')
      | (OutOfFuel, w'') => (OutOfFuel, w'')
      end
  | (Raise e, w') => (Raise e, w')
  | (OutOfFuel, w') => (OutOfFuel, w')
  end.
Proof.
  intros E. unfold get_connection.
  rewrite (bind_Ret _ _ _ _ _ E).
  unfold dict_pop at 1. unfold mbind at 1, M_bind at 1.
  rewrite deref_new. simpl. rewrite insert_last.
  unfold mbind at 1, M_bind at 1. unfold loop_start, popped.
  destruct (connect_loop _ _ _ _ _ _ _) as [[[|rc last]|e|] w']; try done.
Qed.

Lemma loop_start_lookup (x : config) (w : world) :
  heap (loop_start x w) !! length (heap w) = Some (popped x).
Proof. simpl. rewrite lookup_app_r by lia. by rewrite Nat.sub_diag. Qed.

(** Whatever the driver does, [get_connection] leaves the objects of the
    store as they were and forwards only the popped profile. *)
Lemma get_connection_grows (drv : driver) (db : option loc) (w : world)
    (x : config) :
  effective_config db w = (Ret (length (heap w)), set_heap (heap w ++ [x]) w) →
  grows (popped x) (loop_start x w) (get_connection drv db w).2.
Proof.
  intros E. rewrite (get_connection_eq _ _ _ _ E). simpl.
  pose proof (connect_loop_grows drv (length (heap w))
    (default (VInt 3) (x !! "connect_retry_count")) (popped x)
    (loop_fuel (default (VInt 3) (x !! "connect_retry_count"))) 0 None
    (loop_start x w) (loop_start_lookup x w)) as G.
  destruct (connect_loop _ _ _ _ _ _ _) as [[[|rc last]|e|] w']; try done.
  simpl in G.
  pose proof (diagnose_connection_world (length (heap w)) last w') as D.
  destruct (diagnose_connection _ _ _) as [[s|e|] w'']; simpl in D; by subst.
Qed.

(** ** Every attempt fails *)

Lemma connect_attempts_app (t1 t2 : list effect) :
  connect_attempts (t1 ++ t2) = connect_attempts t1 + connect_attempts t2.
Proof. unfold connect_attempts. by rewrite List.filter_app, length_app. Qed.

Lemma connect_loop_all_fail (drv : driver) (l : loc) (N : Z) (c : config) :
  always_fails drv →
  ∀ (n fuel : nat) (rc : Z) (last : option exn) (w : world),
    heap w !! l = Some c →
    (N - rc)%Z = Z.of_nat n →
    n < fuel →
    ∃ w' last',
      connect_loop drv fuel l (VInt N) rc last w = (Ret (Exhausted N last'), w')
      ∧ grows c w w'
      ∧ connect_attempts (trace w') = connect_attempts (trace w) + n
      ∧ match n with
        | O => w' = w ∧ last' = last
        | S _ => ∃ t msg, trace w' = t ++ [Connect c]
                          ∧ drv_connect drv t c = Fail (Error msg)
                          ∧ last' = Some (Error msg)
        end.
Proof.
  intros AF. induction n as [|n IH]; intros fuel rc last w H HN Hf.
  - destruct fuel as [|fuel]; [lia|].
    rewrite (connect_loop_turn _ _ _ _ _ _ _ _ H). simpl.
    replace (rc <? N)%Z with false by lia.
    exists w, last. replace rc with N by lia.
    split; [done|]. split; [apply grows_refl|]. split; [lia|done].
  - destruct fuel as [|fuel]; [lia|].
    rewrite (connect_loop_turn _ _ _ _ _ _ _ _ H). simpl.
    replace (rc <? N)%Z with true by lia.
    destruct (AF (trace w) c) as [msg Hmsg]. rewrite Hmsg.
    set (w3 := if (rc + 1 <? N)%Z then after_retry_line c (rc + 1) msg w
               else after_connect c w).
    assert (G3 : grows c w w3).
    { subst w3. destruct (rc + 1 <? N)%Z;
        [apply grows_after_retry_line | apply grows_after_connect]. }
    assert (A3 : connect_attempts (trace w3) = connect_attempts (trace w) + 1).
    { subst w3. destruct (rc + 1 <? N)%Z; simpl;
        by rewrite connect_attempts_app. }
    destruct (IH fuel (rc + 1)%Z (Some (Error msg)) w3)
      as (w' & last' & E & G & A & L); [by eapply grows_lookup | lia | lia |].
    exists w', last'. rewrite E. split; [done|].
    split; [by eapply grows_trans|]. split; [lia|].
    destruct n as [|n]; [|done].
    destruct L as [-> ->]. exists (trace w), msg.
    subst w3. replace (rc + 1 <? N)%Z with false by lia. done.
Qed.


(** What a hypothesis on the result of [effective_config] says. *)
Lemma effective_config_inv (db : option loc) (w w1 : world) (l : loc) :
  effective_config db w = (Ret l, w1) →
  l = length (heap w)
  ∧ effective_config db w
    = (Ret (length (heap w)), set_heap (heap w ++ [deref w1 l]) w).
Proof.
  intros E. destruct (effective_config_new db w) as (x & E' & _).
  rewrite E' in E. injection E as <- <-. by rewrite deref_new.
Qed.

Lemma popped_lookup_ne (x : config) (k : string) :
  k ≠ "connect_retry_count" → popped x !! k = x !! k.
Proof. intros H. unfold popped. by rewrite lookup_delete_ne. Qed.


Lemma default_db_config_keys (env : environ) (k : string) :
  k ∈ diagnosis_keys → is_Some (default_db_config env !! k).
Proof.
  intros H. apply list_elem_of_In in H. simpl in H.
  destruct H as [<-|[<-|[<-|[<-|[]]]]]; by eexists.
Qed.

(** ** Sample environments and drivers *)


(** C10: when [connect_retry_count] of the effective profile is an integer
    [N <= 0], [get_connection] makes no [connect] call (the history is the
    one it started with) and raises an exception whose message reports 0
    retries and the last error [None]. *)
Theorem get_connection_no_attempt (drv : driver) (db : option loc)
    (w w1 : world) (l : loc) (N : Z) :
  effective_config db w = (Ret l, w1) →
  deref w1 l !! "connect_retry_count" = Some (VInt N) →
  (N ≤ 0)%Z →
  ∃ w', get_connection drv db w
        = (Raise (Exception "数据库连接错误(重试 0 次后): None"), w')
        ∧ trace w' = trace w.
Proof.
  intros E HN N0.
  destruct (effective_config_inv _ _ _ _ E) as [-> E'].
  set (x := deref w1 (length (heap w))) in *.
  rewrite (get_connection_eq _ _ _ _ E'). cbv zeta. rewrite HN.
  change (default (VInt 3) (Some (VInt N))) with (VInt N).
  change (loop_fuel (VInt N)) with (S (Z.to_nat N)).
  rewrite (connect_loop_turn _ _ _ _ _ _ _ _ (loop_start_lookup x w)).
  simpl lt_value. replace (0 <? N)%Z with false by lia.
  eexists. split; reflexivity.
Qed.

Lemma get_connection_no_attempt_witness :
  ∃ w', get_connection accepting zero_retries_call.1 zero_retries_call.2
        = (Raise (Exception "数据库连接错误(重试 0 次后): None"), w')
        ∧ trace w' = trace zero_retries_call.2.
Proof.
  eapply (get_connection_no_attempt accepting zero_retries_call.1
            zero_retries_call.2 _ _ 0).
  - vm_compute. reflexivity.
  - vm_compute. reflexivity.
  - lia.
Defined.

(** C9: [get_connection] pops [connect_retry_count] from the effective
    profile before the loop, so every [connect] call it makes receives that
    profile without the key; the pop works on the merged copy: every
    dictionary object that existed before the call (the caller's
    [db_config], the process-wide dictionary, the defaults) has the items
    it had, and the two module-level names are bound as before. *)
Theorem get_connection_consumes_retry_count (drv : driver) (db : option loc)
    (w : world) :
  ∃ l w1 new,
    effective_config db w = (Ret l, w1)
    ∧ trace (get_connection drv db w).2 = trace w ++ new
    ∧ (∀ p, Connect p ∈ new →
            p = delete "connect_retry_count" (deref w1 l)
            ∧ p !! "connect_retry_count" = None)
    ∧ (∀ l' c, heap w !! l' = Some c →
               heap (get_connection drv db w).2 !! l' = Some c)
    ∧ DEFAULT_DB_CONFIG (get_connection drv db w).2 = DEFAULT_DB_CONFIG w
    ∧ GLOBAL_DB_CONFIG (get_connection drv db w).2 = GLOBAL_DB_CONFIG w.
Proof.
  destruct (effective_config_new db w) as (x & E & _).
  destruct (get_connection_grows drv db w x E)
    as [[more H] (new & T & F) D G _ _].
  exists (length (heap w)), (set_heap (heap w ++ [x]) w), new.
  split; [done|]. split; [done|]. split; [|split; [|done]].
  - intros p Hp. rewrite deref_new.
    rewrite Forall_forall in F. destruct (F _ Hp) as [[= ->]|[line [=]]].
    split; [done|]. apply lookup_delete_eq.
  - intros l' c Hl. rewrite H. simpl.
    by apply lookup_app_l_Some, lookup_app_l_Some.
Qed.

(** ** The diagnosis of an authentication failure *)

(** C5, as amended: after the retries are exhausted, [get_connection]
    appends the username hint to the message whenever the lower-cased text
    of the last error contains the phrase "password authentication failed"
    as one substring (and not "connection refused"). *)
Theorem get_connection_username_hint (drv : driver) (db : option loc)
    (w w1 : world) (l : loc) (N : Z) (user : value) :
  effective_config db w = (Ret l, w1) →
  deref w1 l !! "connect_retry_count" = Some (VInt N) →
  deref w1 l !! "user" = Some user →
  (1 ≤ N)%Z →
  always_fails drv →
  ∃ t p msg,
    trace (get_connection drv db w).2 = t ++ [Connect p]
    ∧ drv_connect drv t p = Fail (Error msg)
    ∧ (contains "password authentication failed" (lower msg) = true →
       contains "connection refused" (lower msg) = false →
       (get_connection drv db w).1
       = Raise (Exception (connection_error_head N (Some (Error msg))
                           +:+ username_hint user))).
Proof.
  intros E HN HU N1 AF.
  destruct (effective_config_inv _ _ _ _ E) as [-> E'].
  set (x := deref w1 (length (heap w))) in *.
  rewrite (get_connection_eq _ _ _ _ E'). cbv zeta. rewrite HN.
  change (default (VInt 3) (Some (VInt N))) with (VInt N).
  change (loop_fuel (VInt N)) with (S (Z.to_nat N)).
  destruct (connect_loop_all_fail drv (length (heap w)) N (popped x) AF
              (Z.to_nat N) (S (Z.to_nat N)) 0 None (loop_start x w))
    as (w' & last' & EL & G & A & L);
    [apply loop_start_lookup | lia | lia |].
  rewrite EL.
  destruct (Z.to_nat N) as [|n] eqn:EN; [lia|].
  destruct L as (t & msg & T & F & ->).
  exists t, (popped x), msg.
  pose proof (diagnose_connection_world (length (heap w)) (Some (Error msg)) w')
    as DW.
  split; [|split; [done|]].
  - destruct (diagnose_connection _ _ _) as [[s|e|] w'']; simpl in DW; by subst.
  - intros Hauth Href.
    assert (U : deref w' (length (heap w)) !! "user" = Some user).
    { unfold deref.
      rewrite (grows_lookup _ _ _ _ _ G (loop_start_lookup x w)). simpl.
      by rewrite popped_lookup_ne. }
    unfold diagnose_connection.
    change (str_last_error (Some (Error msg))) with msg.
    rewrite Href, Hauth. run. by rewrite U.
Qed.

Lemma get_connection_username_hint_witness :
  ∃ w', get_connection
          (refusing "FATAL:  password authentication failed for user postgres")
          None (boot no_environ None)
        = (Raise (Exception
                    (connection_error_head 3
                       (Some (Error "FATAL:  password authentication failed for user postgres"))
                     +:+ username_hint (VStr "postgres"))), w').
Proof.
  destruct (get_connection_username_hint
              (refusing "FATAL:  password authentication failed for user postgres")
              None (boot no_environ None)
              (effective_config None (boot no_environ None)).2
              (length (heap (boot no_environ None))) 3 (VStr "postgres"))
    as (t & p & msg & T & F & H).
  - vm_compute. reflexivity.
  - vm_compute. reflexivity.
  - vm_compute. reflexivity.
  - lia.
  - intros t p. by eexists.
  - simpl in F. injection F as <-.
    eexists. rewrite (surjective_pairing (get_connection _ _ _)).
    rewrite H; [reflexivity | vm_compute; reflexivity | vm_compute; reflexivity].
Defined.

(** What [get_connection] raises for that text: the head of the message
    and nothing after it. *)
Lemma scattered_text_message :
  (get_connection (refusing scattered_text) None (boot no_environ None)).1
  = Raise (Exception (connection_error_head 3 (Some (Error scattered_text)))).
Proof. vm_compute. exact eq_refl. Qed.

(** C5, as stated, fails: the text contains both "password" and
    "authentication failed" (and not "connection refused"), yet no username
    hint follows it in the message raised. *)
Lemma username_hint_not_for_both_substrings :
  ¬ hint_as_stated scattered_text (boot no_environ None) 3 (VStr "postgres").
Proof.
  intros H.
  assert (E := H ltac:(vm_compute; exact eq_refl) ltac:(vm_compute; exact eq_refl)
                 ltac:(vm_compute; exact eq_refl)).
  rewrite scattered_text_message in E. vm_compute in E. discriminate E.
Qed.

(** ** The process-wide configuration *)

Lemma set_if_str_last (key : string) (a : option string) (c : config)
    (w : world) :
  set_if_str (length (heap w)) key a (set_heap (heap w ++ [c]) w)
  = (Ret (), set_heap (heap w ++ [put_str key a c]) w).
Proof.
  unfold set_if_str, put_str. destruct a as [s|]; [|done].
  destruct (is_empty s); [done|]. run. by rewrite deref_new, insert_last.
Qed.

Lemma set_if_int_last (key : string) (a : option Z) (c : config) (w : world) :
  set_if_int (length (heap w)) key a (set_heap (heap w ++ [c]) w)
  = (Ret (), set_heap (heap w ++ [put_int key a c]) w).
Proof.
  unfold set_if_int, put_int. destruct a as [z|]; [|done].
  destruct (z =? 0)%Z; [done|]. run. by rewrite deref_new, insert_last.
Qed.

Lemma get_config_from_args_eq (args : Namespace) (w : world) (dflt : config) :
  heap w !! DEFAULT_DB_CONFIG w = Some dflt →
  get_config_from_args args w
  = (Ret (S (length (heap w))),
     set_heap (heap w ++ [cmd_config args; cmd_config args ∪ dflt]) w).
Proof.
  intros H. unfold get_config_from_args.
  erewrite bind_Ret by reflexivity.
  erewrite bind_Ret by apply set_if_str_last.
  erewrite bind_Ret by apply set_if_int_last.
  erewrite bind_Ret by apply set_if_str_last.
  erewrite bind_Ret by apply set_if_str_last.
  erewrite bind_Ret by apply set_if_str_last.
  erewrite bind_Ret by apply set_if_int_last.
  erewrite bind_Ret by apply set_if_int_last.
  fold (cmd_config args). run.
  rewrite deref_old by (by eexists). rewrite (deref_Some _ _ _ H).
  rewrite length_app. simpl. replace (length (heap w) + 1) with (S (length (heap w))) by lia.
  assert (L1 : ((heap w ++ [cmd_config args]) ++ [dflt]) !! length (heap w)
               = Some (cmd_config args)).
  { rewrite <- app_assoc. rewrite lookup_app_r by lia. by rewrite Nat.sub_diag. }
  assert (L2 : ((heap w ++ [cmd_config args]) ++ [dflt]) !! S (length (heap w))
               = Some dflt).
  { rewrite <- app_assoc. rewrite lookup_app_r by lia.
    by replace (S (length (heap w)) - length (heap w)) with 1 by lia. }
  unfold deref. cbn [heap set_heap]. rewrite L1, L2. simpl.
  unfold set_heap. simpl. do 2 f_equal.
  rewrite <- app_assoc. simpl.
  rewrite insert_app_r_alt by lia.
  by replace (S (length (heap w)) - length (heap w)) with 1 by lia.
Qed.

Lemma boot_configured (env : environ) (cli : option Namespace) :
  configured env cli (boot env cli).
Proof.
  destruct cli as [args|]; [|done].
  unfold boot, main.
  erewrite bind_Ret by (by apply get_config_from_args_eq). simpl.
  split; [done|]. by exists 2.
Qed.

(** A caller's dictionary joins the store without disturbing it. *)
Lemma pass_db_config_configured (env : environ) (cli : option Namespace)
    (dbc : option config) (w : world) :
  configured env cli w →
  configured env cli (pass_db_config dbc w).2
  ∧ valid_ref (pass_db_config dbc w).2 (pass_db_config dbc w).1
  ∧ (λ d, deref (pass_db_config dbc w).2 d) <$> (pass_db_config dbc w).1 = dbc.
Proof.
  intros [D G]. destruct dbc as [c|]; simpl.
  - split; [split|split].
    + simpl. by apply lookup_app_l_Some.
    + destruct cli as [args|]; [|done]. destruct G as (g & G1 & G2).
      exists g. split; [done|]. simpl. by apply lookup_app_l_Some.
    + intros l [= <-]. simpl. rewrite lookup_app_r by lia.
      rewrite Nat.sub_diag. by eexists.
    + by rewrite deref_new.
  - split; [done|]. split; [|done]. by intros l [=].
Qed.

(** The value of a key in the resolved items, layer by layer. *)
Lemma resolved_config_lookup (env : environ) (cli : option Namespace)
    (w : world) (db : option loc) (k : string) :
  configured env cli w →
  resolved_config db w !! k
  = match db ≫= (λ d, deref w d !! k) with
    | Some v => Some v
    | None =>
        match cli ≫= (λ args, cmd_config args !! k) with
        | Some v => Some v
        | None => default_db_config env !! k
        end
    end.
Proof.
  intros [D G].
  assert (B : base_config w !! k
              = match cli ≫= (λ args, cmd_config args !! k) with
                | Some v => Some v
                | None => default_db_config env !! k
                end).
  { unfold base_config. destruct cli as [args|]; simpl.
    - destruct G as (g & -> & G). rewrite (deref_Some _ _ _ G).
      destruct (cmd_config args !! k) as [v|] eqn:C.
      + by apply lookup_union_Some_l.
      + by apply lookup_union_r.
    - rewrite G. by rewrite (deref_Some _ _ _ D). }
  unfold resolved_config. destruct db as [d|]; simpl; [|done].
  destruct (deref w d !! k) as [v|] eqn:C.
  - by apply lookup_union_Some_l.
  - by rewrite lookup_union_r.
Qed.

(** In a running process the effective profile has the keys the
    diagnosis reads, whatever the caller passes. *)
Lemma effective_config_keys (env : environ) (cli : option Namespace)
    (w w1 : world) (db : option loc) (l : loc) :
  configured env cli w →
  valid_ref w db →
  effective_config db w = (Ret l, w1) →
  ∀ k, k ∈ diagnosis_keys → is_Some (deref w1 l !! k).
Proof.
  intros C V E k Hk. rewrite (effective_config_eq _ _ V) in E.
  injection E as <- <-. rewrite deref_new.
  rewrite (resolved_config_lookup env cli w db k C).
  destruct (db ≫= _) as [v|]; [by eexists|].
  destruct (cli ≫= _) as [v|]; [by eexists|].
  by apply default_db_config_keys.
Qed.

(** The configuration of the process survives a call of
    [get_connection]. *)
Lemma get_connection_configured (drv : driver) (env : environ)
    (cli : option Namespace) (db : option loc) (w : world) :
  configured env cli w → configured env cli (get_connection drv db w).2.
Proof.
  intros [D G]. destruct (effective_config_new db w) as (x & E & _).
  destruct (get_connection_grows drv db w x E) as [[more H] _ HD HG _ _].
  simpl in H, HD, HG. split.
  - rewrite HD, H. by apply lookup_app_l_Some, lookup_app_l_Some.
  - rewrite HG. destruct cli as [args|]; [|done].
    destruct G as (g & G1 & G2). exists g. split; [done|].
    rewrite H. by apply lookup_app_l_Some, lookup_app_l_Some.
Qed.

(** C2: the effective profile [get_connection] works on takes the value
    of a key from the caller's [db_config] when the key is there; else from
    the process-wide configuration (the command line) when the key is
    there; else from the defaults. *)
Theorem effective_profile_precedence (env : environ) (cli : option Namespace)
    (w : world) (db : option loc) (k : string) :
  configured env cli w →
  valid_ref w db →
  ∃ l w1,
    effective_config db w = (Ret l, w1)
    ∧ deref w1 l !! k
      = match db ≫= (λ d, deref w d !! k) with
        | Some v => Some v
        | None =>
            match cli ≫= (λ args, cmd_config args !! k) with
            | Some v => Some v
            | None => default_db_config env !! k
            end
        end.
Proof.
  intros C V.
  exists (length (heap w)), (set_heap (heap w ++ [resolved_config db w]) w).
  split; [by apply effective_config_eq|].
  rewrite deref_new. by apply resolved_config_lookup.
Qed.

Lemma effective_profile_precedence_witness :
  ∃ l w1,
    effective_config sample_call.1 sample_call.2 = (Ret l, w1)
    ∧ deref w1 l !! "user" = Some (VStr "report").
Proof.
  destruct (effective_profile_precedence no_environ (Some sample_args)
              sample_call.2 sample_call.1 "user") as (l & w1 & E & H).
  - split; [vm_compute; exact eq_refl|].
    exists 2. split; vm_compute; exact eq_refl.
  - intros l [= <-]. eexists. vm_compute. exact eq_refl.
  - exists l, w1. split; [exact E|]. rewrite H. vm_compute. exact eq_refl.
Defined.

(** ** The handlers on the path where the statement goes through *)

Lemma get_connection_locals (drv : driver) (db : option loc) (w : world) :
  local_conn (get_connection drv db w).2 = local_conn w
  ∧ local_cursor (get_connection drv db w).2 = local_cursor w.
Proof.
  destruct (effective_config_new db w) as (x & E & _).
  by destruct (get_connection_grows drv db w x E) as [_ _ _ _ C K].
Qed.

Lemma bind_conn_Ret (drv : driver) (db : option loc) (w w1 : world) :
  get_connection drv db w = (Ret (), w1) →
  bind_conn drv db w = (Ret (), set_locals true (local_cursor w) w1).
Proof.
  intros H. unfold bind_conn. rewrite (bind_Ret _ _ _ _ _ H). run.
  destruct (get_connection_locals drv db w) as [_ K]. rewrite H in K.
  simpl in K. by rewrite K.
Qed.

Lemma cleanup_closing (drv : driver) (w : world) :
  closes_after drv (trace w) →
  local_conn w = true →
  local_cursor w = true →
  cleanup drv w = (Ret (), set_trace (trace w ++ closing drv (trace w)) w).
Proof.
  intros O C K. unfold cleanup, closing. run. rewrite C.
  unfold closes_after in O.
  destruct (drv_closed drv (trace w)).
  - rewrite app_nil_r. by destruct w.
  - destruct (O eq_refl) as [O1 O2].
    rewrite K, O1. simpl. rewrite O2. by rewrite <- app_assoc.
Qed.

Lemma returns_rows_reading (query : string) :
  returns_rows query = reading_statement query.
Proof.
  unfold returns_rows, reading_statement, row_keywords. simpl existsb.
  by rewrite orb_false_r, !orb_assoc.
Qed.

Lemma call_Ok {A : Type} (e : effect) (ans : list effect → answer A)
    (w : world) (a : A) :
  ans (trace w) = Ok a → call e ans w = (Ret a, set_trace (trace w ++ [e]) w).
Proof. intros H. unfold call. by rewrite H. Qed.

Lemma bind_cursor_Ret (drv : driver) (w : world) :
  drv_cursor drv (trace w) = Ok () →
  bind_cursor drv w
  = (Ret (), set_locals (local_conn w) true (set_trace (trace w ++ [Cursor]) w)).
Proof.
  intros H. unfold bind_cursor. by erewrite bind_Ret by (by apply call_Ok).
Qed.

Lemma is_empty_false (s : string) : s ≠ "" → is_empty s = false.
Proof. by destruct s. Qed.

(** C3, as amended: the empty statement is turned down with an error
    dictionary before anything is done.  For a non-empty statement,
    when the connection is acquired and the calls made for the
    statement succeed, [execute_query] fetches the rows and returns
    them with their count, without a commit, if the statement without
    the white space around it and with its case ignored starts with
    SELECT, SHOW, DESCRIBE or EXPLAIN; otherwise it commits and returns
    the row count the cursor reports. *)
Theorem execute_query_classifies (drv : driver) (query : string)
    (params : option (list value)) (db : option loc) (w w1 : world) :
  let run_query := Execute query (default [] params) in
  (query = "" →
   execute_query drv query params db w
   = (Ret (Failure "查询语句不能为空"), set_locals false false w))
  ∧ (query ≠ "" →
     get_connection drv db (set_locals false false w) = (Ret (), w1) →
     drv_cursor drv (trace w1) = Ok () →
     drv_execute drv (trace w1 ++ [Cursor]) query (default [] params) = Ok () →
     if reading_statement query then
       ∀ rows,
         drv_fetchall drv (trace w1 ++ [Cursor; run_query]) = Ok rows →
         closes_after drv (trace w1 ++ [Cursor; run_query; Fetchall]) →
         ∃ w',
           execute_query drv query params db w
           = (Ret (RowSet rows (Z.of_nat (length rows))), w')
           ∧ trace w' = trace w1 ++ [Cursor; run_query; Fetchall]
                        ++ closing drv (trace w1 ++ [Cursor; run_query; Fetchall])
     else
       drv_commit drv (trace w1 ++ [Cursor; run_query]) = Ok () →
       closes_after drv (trace w1 ++ [Cursor; run_query; Commit]) →
       ∃ w',
         execute_query drv query params db w
         = (Ret (Affected (drv_rowcount drv
                             (trace w1 ++ [Cursor; run_query; Commit]))),
            w')
         ∧ trace w' = trace w1 ++ [Cursor; run_query; Commit]
                      ++ closing drv (trace w1 ++ [Cursor; run_query; Commit])).
Proof.
  cbv zeta. split.
  - intros ->. reflexivity.
  - intros Q G K X.
    unfold execute_query, enter.
    erewrite bind_Ret by reflexivity. rewrite (is_empty_false _ Q).
    unfold try_handler.
    erewrite bind_Ret by (by apply bind_conn_Ret).
    erewrite bind_Ret by (by apply bind_cursor_Ret).
    erewrite bind_Ret by (by apply call_Ok).
    rewrite returns_rows_reading.
    destruct (reading_statement query).
    + intros rows F C.
      erewrite bind_Ret
        by (apply call_Ok; simpl; rewrite <- app_assoc; exact F).
      unfold mret, M_ret, return_finally.
      erewrite bind_Ret
        by (apply cleanup_closing; [simpl; by rewrite <- !app_assoc | done | done]).
      eexists. split; [reflexivity|]. simpl. by rewrite <- !app_assoc.
    + intros F C.
      erewrite bind_Ret
        by (apply call_Ok; simpl; rewrite <- app_assoc; exact F).
      erewrite bind_Ret by reflexivity.
      unfold mret, M_ret, return_finally.
      erewrite bind_Ret
        by (apply cleanup_closing; [simpl; by rewrite <- !app_assoc | done | done]).
      eexists. simpl. rewrite <- !app_assoc. split; reflexivity.
Qed.

Lemma execute_query_classifies_witness :
  (∃ w', execute_query accepting "  select 1" None None (boot no_environ None)
         = (Ret (RowSet [] 0), w')
         ∧ trace w'
           = trace (get_connection accepting None (boot no_environ None)).2
             ++ [Cursor; Execute "  select 1" []; Fetchall;
                 CursorClose; ConnClose])
  ∧ execute_query accepting "" None None (boot no_environ None)
    = (Ret (Failure "查询语句不能为空"),
       set_locals false false (boot no_environ None)).
Proof.
  pose proof (execute_query_classifies accepting "  select 1" None None
                (boot no_environ None)
                (get_connection accepting None (boot no_environ None)).2)
    as [_ H].
  pose proof (execute_query_classifies accepting "" None None
                (boot no_environ None) (boot no_environ None)) as [H0 _].
  split; [|exact (H0 eq_refl)].
  assert (Q : "  select 1" ≠ "") by discriminate.
  assert (G : get_connection accepting None
                (set_locals false false (boot no_environ None))
              = (Ret (), (get_connection accepting None
                            (boot no_environ None)).2))
    by (vm_compute; exact eq_refl).
  specialize (H Q G eq_refl eq_refl).
  change (reading_statement "  select 1") with true in H.
  destruct (H [] eq_refl) as (w' & E & T).
  - intros _. split; exact eq_refl.
  - exists w'. split; [exact E | exact T].
Defined.

(** The empty statement is not of the reading kind, and it is turned down
    before anything is executed or committed. *)
Lemma empty_query_not_classified :
  ¬ classification_as_stated accepting "" (boot no_environ None).
Proof.
  intros [_ H]. destruct (H eq_refl) as [HC _].
  vm_compute in HC. by apply elem_of_nil in HC.
Qed.

(** ** update_data *)

(** C6: a call of [update_data] whose condition is [None] or empty returns
    an error dictionary with one of the validation messages, and the
    message about the condition when the table name and the data pass
    their checks; the store and the history of driver calls are those
    before the call: nothing was connected to, built or executed. *)
Theorem update_data_requires_condition (drv : driver) (table_name : string)
    (data : item) (condition : option string) (params : option (list value))
    (schema_name : string) (db : option loc) (w : world) :
  condition = None ∨ condition = Some "" →
  ∃ msg,
    update_data drv table_name data condition params schema_name db w
    = (Ret (Failure msg), set_locals false false w)
    ∧ msg ∈ validation_messages
    ∧ (table_name ≠ "" → item_falsy data || negb (is_dict data) = false →
       msg = "更新条件不能为空，为了安全起见，必须提供WHERE条件")
    ∧ trace (set_locals false false w) = trace w
    ∧ heap (set_locals false false w) = heap w.
Proof.
  intros C. unfold update_data, enter, validation_messages.
  erewrite bind_Ret by reflexivity.
  destruct (is_empty table_name) eqn:T.
  { eexists. split; [reflexivity|]. split; [apply list_elem_of_here|].
    split; [|done]. intros H. by rewrite (is_empty_false _ H) in T. }
  destruct (item_falsy data || negb (is_dict data)) eqn:D.
  { eexists. split; [reflexivity|].
    split; [apply list_elem_of_further, list_elem_of_here|]. done. }
  assert (E : match condition with None => true | Some c => is_empty c end = true)
    by (by destruct C as [-> | ->]).
  rewrite E. eexists. split; [reflexivity|].
  split; [do 2 apply list_elem_of_further; apply list_elem_of_here|]. done.
Qed.

Lemma update_data_requires_condition_witness :
  ∃ msg,
    update_data accepting "users" (ItemDict [("name", VStr "x")]) (Some "")
                None "public" None (boot no_environ None)
    = (Ret (Failure msg), set_locals false false (boot no_environ None))
    ∧ msg = "更新条件不能为空，为了安全起见，必须提供WHERE条件".
Proof.
  destruct (update_data_requires_condition accepting "users"
              (ItemDict [("name", VStr "x")]) (Some "") None "public" None
              (boot no_environ None)) as (msg & E & _ & M & _).
  - by right.
  - exists msg. split; [exact E|]. by apply M.
Defined.

Lemma build_set_eq (data : record) (set_items : list string)
    (set_values : list value) :
  build_set data set_items set_values
  = (set_items ++ set_items_of data, set_values ++ values data).
Proof.
  revert set_items set_values.
  induction data as [|[key value] data IH]; intros set_items set_values; simpl.
  - by rewrite !app_nil_r.
  - rewrite IH. unfold set_items_of, keys, values. simpl.
    by rewrite <- !app_assoc.
Qed.

Lemma nonempty_dict_passes (d : record) :
  d ≠ [] → item_falsy (ItemDict d) || negb (is_dict (ItemDict d)) = false.
Proof. by destruct d. Qed.

Lemma cleanup_trace (drv : driver) (w : world) :
  ∃ rest, trace (cleanup drv w).2 = trace w ++ rest ∧ Forall is_close rest.
Proof.
  unfold cleanup. run.
  destruct (local_conn w); [|exists []; by rewrite app_nil_r].
  destruct (drv_closed drv (trace w)); [exists []; by rewrite app_nil_r|].
  destruct (local_cursor w); simpl; [|exists []; by rewrite app_nil_r].
  destruct (drv_cursor_close drv (trace w)); simpl.
  - destruct (drv_conn_close drv _); simpl;
      (exists [CursorClose; ConnClose]; split; [by rewrite <- app_assoc|]);
      repeat (apply Forall_cons; split; [by (left + right)|]); apply Forall_nil_2.
  - exists [CursorClose]. split; [done|].
    apply Forall_cons; split; [by left | apply Forall_nil_2].
Qed.

Lemma return_finally_trace (drv : driver) (v : result) (w : world) :
  trace (return_finally drv v w).2 = trace (cleanup drv w).2.
Proof.
  unfold return_finally. run. by destruct (cleanup drv w) as [[[]|e|] w'].
Qed.

Lemma try_handler_trace (drv : driver) (body : M result)
    (on_Error on_Exception : string → result) (w : world) :
  ∃ rest,
    trace (try_handler drv body on_Error on_Exception w).2
    = trace (body w).2 ++ rest
    ∧ Forall is_close rest.
Proof.
  unfold try_handler.
  destruct (body w) as [[v|[]|] w1]; simpl;
    rewrite ?return_finally_trace; try apply cleanup_trace.
  exists []. by rewrite app_nil_r.
Qed.

(** C8: [update_data] passes to [cursor.execute] the values of the data
    mapping in its iteration order followed by the caller's parameters, with
    a SET clause whose [i]-th item names the key of the [i]-th value. *)
Theorem update_data_binds_set_values_first (drv : driver) (table_name : string)
    (data : record) (condition : string) (params : option (list value))
    (schema_name : string) (db : option loc) (w w1 : world) :
  table_name ≠ "" → data ≠ [] → condition ≠ "" →
  get_connection drv db (set_locals false false w) = (Ret (), w1) →
  drv_cursor drv (trace w1) = Ok () →
  let all_params := values data ++ default [] params in
  let sql := update_sql table_name schema_name (join ", " (set_items_of data))
                        condition in
  (∃ rest,
     trace (update_data drv table_name (ItemDict data) (Some condition) params
                        schema_name db w).2
     = trace w1 ++ [Cursor; Execute sql all_params] ++ rest
     ∧ Forall (λ e, ∀ q p, e ≠ Execute q p) rest)
  ∧ (∀ i key value, data !! i = Some (key, value) →
       set_items_of data !! i = Some (key +:+ " = %s")
       ∧ all_params !! i = Some value)
  ∧ (∀ j v, default [] params !! j = Some v →
       all_params !! (length data + j) = Some v).
Proof.
  intros T D C G K. cbv zeta. split; [|split].
  - unfold update_data, enter.
    erewrite bind_Ret by reflexivity. rewrite (is_empty_false _ T).
    rewrite (nonempty_dict_passes _ D).
    change (match Some condition with None => true | Some c => is_empty c end)
      with (is_empty condition).
    rewrite (is_empty_false _ C).
    change (as_record (ItemDict data)) with data.
    change (default "" (Some condition)) with condition.
    match goal with
    | |- context [try_handler drv ?b ?e ?x ?w0] =>
        destruct (try_handler_trace drv b e x w0) as (fin & -> & F)
    end.
    erewrite bind_Ret by (by apply bind_conn_Ret).
    erewrite bind_Ret by (by apply bind_cursor_Ret).
    rewrite build_set_eq. simpl app.
    assert (P : match params with
                | None | Some [] => values data
                | Some params0 => values data ++ params0
                end = values data ++ default [] params).
    { destruct params as [[|]|]; simpl; by rewrite ?app_nil_r. }
    rewrite P.
    assert (NE : Forall (λ e, ∀ q p, e ≠ Execute q p) fin).
    { eapply Forall_impl; [exact F|]. by intros e [-> | ->] q p. }
    run.
    match goal with
    | |- context [drv_execute drv ?t ?q ?p] =>
        destruct (drv_execute drv t q p) as [[]|e]; simpl
    end.
    + match goal with
      | |- context [drv_commit drv ?t] =>
          destruct (drv_commit drv t) as [[]|e]; simpl
      end;
        (exists (Commit :: fin); split;
         [by rewrite <- !app_assoc | by apply Forall_cons]).
    + exists fin. split; [by rewrite <- !app_assoc | done].
  - intros i key value H. unfold set_items_of, keys, values.
    rewrite !list_lookup_fmap.
    rewrite lookup_app_l
      by (rewrite length_fmap; by eapply lookup_lt_Some).
    by rewrite list_lookup_fmap, H.
  - intros j v H. unfold values.
    rewrite lookup_app_r by (rewrite length_fmap; lia).
    rewrite length_fmap. by replace (length data + j - length data) with j by lia.
Qed.

Lemma update_data_binds_set_values_first_witness :
  ∃ rest,
    trace (update_data accepting "users"
             (ItemDict [("name", VStr "Ann"); ("age", VInt 41)])
             (Some "id = %s") (Some [VInt 7]) "public" None
             (boot no_environ None)).2
    = trace (get_connection accepting None (boot no_environ None)).2
      ++ [Cursor;
          Execute "UPDATE public.users SET name = %s, age = %s WHERE id = %s"
                  [VStr "Ann"; VInt 41; VInt 7]] ++ rest.
Proof.
  destruct (update_data_binds_set_values_first accepting "users"
              [("name", VStr "Ann"); ("age", VInt 41)] "id = %s"
              (Some [VInt 7]) "public" None (boot no_environ None)
              (get_connection accepting None (boot no_environ None)).2)
    as [(rest & T & _) _].
  - discriminate.
  - discriminate.
  - discriminate.
  - vm_compute. exact eq_refl.
  - exact eq_refl.
  - exists rest. exact T.
Defined.

(** ** insert_data *)

Lemma record_get_missing (d : record) (col : string) :
  col ∉ keys d → record_get d col = VNone.
Proof.
  unfold keys. induction d as [|[k v] d IH]; simpl; [done|].
  intros H. apply not_elem_of_cons in H as [H1 H2].
  destruct (String.eqb_spec k col) as [->|_]; [done|]. by apply IH.
Qed.

Lemma forallb_is_dict (ds : list record) :
  forallb is_dict (ItemDict <$> ds) = true.
Proof. by induction ds. Qed.

(** C7: [insert_data] treats a single dictionary as the list of that one
    dictionary; for [N] records, once the connection is acquired and
    the cursor exists, it makes one [executemany] call, whatever the
    driver then answers, whose columns are the keys of the first record
    and whose rows hold, for every record, the values of those keys
    ([None] for a key the record lacks); when that call, the commit and
    the closing succeed, it returns [affected_rows = N]. *)
Theorem insert_data_batches_by_first_record (drv : driver)
    (table_name schema_name : string) (first : record) (others : list record)
    (db : option loc) (w w1 : world) :
  table_name ≠ "" →
  get_connection drv db (set_locals false false w) = (Ret (), w1) →
  drv_cursor drv (trace w1) = Ok () →
  let data := first :: others in
  let columns := keys first in
  let rows := (λ d, (λ col, record_get d col) <$> columns) <$> data in
  let sql := insert_sql table_name schema_name columns in
  let N := Z.of_nat (length data) in
  let steps := [Cursor; ExecuteMany sql rows; Commit] in
  let call := insert_data drv table_name (Many (ItemDict <$> data))
                          schema_name db w in
  (∃ rest,
     trace call.2 = trace w1 ++ [Cursor; ExecuteMany sql rows] ++ rest
     ∧ Forall (λ e, (∀ q r, e ≠ ExecuteMany q r) ∧ (∀ q p, e ≠ Execute q p))
              rest)
  ∧ (drv_executemany drv (trace w1 ++ [Cursor]) sql rows = Ok () →
     drv_commit drv (trace w1 ++ [Cursor; ExecuteMany sql rows]) = Ok () →
     closes_after drv (trace w1 ++ steps) →
     ∃ w',
       call
       = (Ret (AffectedMessage N
                 ("成功向表 " +:+ schema_name +:+ "." +:+ table_name +:+ " 插入 "
                  +:+ pretty N +:+ " 条数据")), w')
       ∧ trace w' = trace w1 ++ steps ++ closing drv (trace w1 ++ steps))
  ∧ (first ≠ [] →
     insert_data drv table_name (Single first) schema_name db w
     = insert_data drv table_name (Many [ItemDict first]) schema_name db w)
  ∧ (∀ d col, d ∈ data → col ∈ columns → col ∉ keys d →
       record_get d col = VNone).
Proof.
  intros T G K. cbv zeta.
  assert (R : (λ x, (λ col, record_get (as_record x) col) <$> keys first)
              <$> (ItemDict <$> first :: others)
              = (λ d, (λ col, record_get d col) <$> keys first)
                <$> first :: others).
  { rewrite <- list_fmap_compose. done. }
  assert (U : insert_data drv table_name (Many (ItemDict <$> first :: others))
                          schema_name db w
              = try_handler drv
                  (bind_conn drv db;;
                   bind_cursor drv;;
                   first0 ← mret first;
                   let columns := keys first0 in
                   let sql := insert_sql table_name schema_name columns in
                   let values :=
                     (λ x, (λ col, record_get (as_record x) col) <$> columns)
                     <$> (ItemDict <$> first :: others) in
                   call (ExecuteMany sql values)
                        (λ t, drv_executemany drv t sql values);;
                   call Commit (drv_commit drv);;
                   let n := Z.of_nat (length (ItemDict <$> first :: others)) in
                   mret (AffectedMessage n
                           ("成功向表 " +:+ schema_name +:+ "." +:+ table_name
                            +:+ " 插入 " +:+ pretty n +:+ " 条数据")))
                  (insert_data_error table_name schema_name)
                  (λ e, Failure ("插入数据时发生未知错误: " +:+ e))
                  (set_locals false false w)).
  { unfold insert_data, enter.
    erewrite bind_Ret by reflexivity. rewrite (is_empty_false _ T).
    change (ItemDict <$> first :: others)
      with (ItemDict first :: (ItemDict <$> others)).
    cbv iota.
    change (ItemDict first :: (ItemDict <$> others))
      with (ItemDict <$> first :: others).
    rewrite forallb_is_dict. change (negb true) with false. cbv iota.
    reflexivity. }
  split; [|split; [|split]].
  - rewrite U.
    match goal with
    | |- context [try_handler drv ?b ?e ?x ?w0] =>
        destruct (try_handler_trace drv b e x w0) as (fin & -> & F)
    end.
    erewrite bind_Ret by (by apply bind_conn_Ret).
    erewrite bind_Ret by (by apply bind_cursor_Ret).
    erewrite bind_Ret by reflexivity.
    cbv zeta. rewrite R.
    assert (NE : Forall (λ e, (∀ q r, e ≠ ExecuteMany q r)
                              ∧ (∀ q p, e ≠ Execute q p)) fin).
    { eapply Forall_impl; [exact F|]. by intros e [-> | ->]. }
    run.
    match goal with
    | |- context [drv_executemany drv ?t ?q ?r] =>
        destruct (drv_executemany drv t q r) as [[]|e]; simpl
    end.
    + match goal with
      | |- context [drv_commit drv ?t] =>
          destruct (drv_commit drv t) as [[]|e]; simpl
      end;
        (exists (Commit :: fin); split;
         [by rewrite <- !app_assoc | by apply Forall_cons]).
    + exists fin. split; [by rewrite <- !app_assoc | done].
  - intros X C Q. rewrite U. unfold try_handler.
    erewrite bind_Ret by (by apply bind_conn_Ret).
    erewrite bind_Ret by (by apply bind_cursor_Ret).
    erewrite bind_Ret by reflexivity.
    cbv zeta. rewrite R, length_fmap.
    erewrite bind_Ret by (by apply call_Ok).
    erewrite bind_Ret
      by (apply call_Ok; simpl; rewrite <- app_assoc; exact C).
    unfold mret, M_ret, return_finally.
    erewrite bind_Ret
      by (apply cleanup_closing; [simpl; by rewrite <- !app_assoc | done | done]).
    eexists. split; [reflexivity|]. simpl. by rewrite <- !app_assoc.
  - intros F. unfold insert_data. by destruct first.
  - intros d col _ _. apply record_get_missing.
Qed.

Lemma insert_data_batches_by_first_record_witness :
  ∃ w',
    insert_data accepting "users"
      (Many [ItemDict [("name", VStr "Ann"); ("age", VInt 41)];
             ItemDict [("name", VStr "Bob")]])
      "public" None (boot no_environ None)
    = (Ret (AffectedMessage 2 "成功向表 public.users 插入 2 条数据"), w')
    ∧ trace w'
      = trace (get_connection accepting None (boot no_environ None)).2
        ++ [Cursor;
            ExecuteMany "INSERT INTO public.users (name, age) VALUES (%s, %s)"
                        [[VStr "Ann"; VInt 41]; [VStr "Bob"; VNone]];
            Commit; CursorClose; ConnClose].
Proof.
  destruct (insert_data_batches_by_first_record accepting "users" "public"
              [("name", VStr "Ann"); ("age", VInt 41)] [[("name", VStr "Bob")]]
              None (boot no_environ None)
              (get_connection accepting None (boot no_environ None)).2)
    as (_ & H & _).
  - discriminate.
  - vm_compute. exact eq_refl.
  - exact eq_refl.
  - destruct H as (w' & E & T).
    + exact eq_refl.
    + exact eq_refl.
    + intros _. split; exact eq_refl.
    + exists w'. split; [exact E | exact T].
Defined.

(** ** The [finally] clause and the cursor *)

(** When the cursor is bound whenever the connection is, and closing does
    not fail, a handler returns a dictionary and leaves no connection
    open. *)
Lemma try_handler_returns (drv : driver) (body : M result)
    (on_Error on_Exception : string → result) (w : world) :
  (∀ t, drv_cursor_close drv t = Ok ()) →
  (∀ t, drv_conn_close drv t = Ok ()) →
  (body w).1 ≠ OutOfFuel →
  (local_conn (body w).2 = true → local_cursor (body w).2 = true) →
  ∃ v w',
    try_handler drv body on_Error on_Exception w = (Ret v, w')
    ∧ (local_conn (body w).2 = true →
       drv_closed drv (trace (body w).2) = false →
       trace w' = trace (body w).2 ++ [CursorClose; ConnClose]).
Proof.
  intros CC CK NF B. unfold try_handler.
  assert (F : ∀ v w1,
             (local_conn w1 = true → local_cursor w1 = true) →
             ∃ w', return_finally drv v w1 = (Ret v, w')
                   ∧ (local_conn w1 = true →
                      drv_closed drv (trace w1) = false →
                      trace w' = trace w1 ++ [CursorClose; ConnClose])).
  { intros v w1 B1. unfold return_finally, cleanup. run.
    destruct (local_conn w1); [|by eexists].
    destruct (drv_closed drv (trace w1)); [by eexists|].
    rewrite (B1 eq_refl), CC. simpl. rewrite CK.
    eexists. split; [done|]. intros _ _. simpl. by rewrite <- app_assoc. }
  destruct (body w) as [[v|[]|] w1]; simpl in *; try done;
    match goal with
    | |- context [return_finally drv ?v w1] =>
        destruct (F v w1 B) as (w' & -> & H); by exists v, w'
    end.
Qed.

(** C4 fails when [conn.cursor(...)] raises after the connection was
    opened: the [finally] clause reaches [cursor.close()] with [cursor]
    unbound, the [UnboundLocalError] leaves the handler in place of the
    error dictionary, and [conn.close()] is not called.  Shown for
    [execute_query] and for [update_data]. *)
Theorem cursor_failure_escapes_handler :
  let drv := without_cursor "cursor cannot be created" in
  let opened := Connect (delete "connect_retry_count" (default_db_config no_environ)) in
  let q := execute_query drv "SELECT 1" None None (boot no_environ None) in
  let u := update_data drv "users" (ItemDict [("name", VStr "Ann")])
             (Some "id = 7") None "public" None (boot no_environ None) in
  q.1 = Raise (UnboundLocalError "cursor")
  ∧ trace q.2 = [opened; Cursor]
  ∧ drv_closed drv (trace q.2) = false
  ∧ u.1 = Raise (UnboundLocalError "cursor")
  ∧ trace u.2 = [opened; Cursor]
  ∧ drv_closed drv (trace u.2) = false.
Proof.
  vm_compute. repeat split.
Qed.

(** ** No fuel is ever missing *)

Lemma total_ret {A : Type} (a : A) : total (mret a : M A).
Proof. by intros w. Qed.

Lemma total_bind {A B : Type} (m : M A) (f : A → M B) :
  total m → (∀ a, total (f a)) → total (m ≫= f).
Proof.
  intros Hm Hf w. unfold mbind, M_bind. specialize (Hm w).
  destruct (m w) as [[a|e|] w']; simpl in *; [apply Hf | done | done].
Qed.

Lemma total_call {A : Type} (e : effect) (ans : list effect → answer A) :
  total (call e ans).
Proof. intros w. unfold call. by destruct (ans (trace w)). Qed.

Lemma total_gets {A : Type} (f : world → A) : total (gets f).
Proof. by intros w. Qed.

Lemma total_modify (f : world → world) : total (modify f).
Proof. by intros w. Qed.

Lemma total_raise {A : Type} (e : exn) : total (raise e : M A).
Proof. by intros w. Qed.

Lemma total_if {A : Type} (b : bool) (m1 m2 : M A) :
  total m1 → total m2 → total (if b then m1 else m2).
Proof. by destruct b. Qed.

Create HintDb total discriminated.
#[local] Hint Resolve total_ret total_call total_gets total_modify total_raise
  total_if : total.
#[local] Hint Extern 2 (total (_ ≫= _)) => apply total_bind; [|intros ?] : total.

Lemma lt_value_bound (rc : Z) (max_retries : value) :
  lt_value rc max_retries = Some true → (rc < retry_bound max_retries)%Z.
Proof. destruct max_retries as [|[]| |]; simpl; intros [=]; lia. Qed.

Lemma connect_loop_enough_fuel (drv : driver) (l : loc) (max_retries : value)
    (c : config) (n : nat) :
  ∀ (fuel : nat) (rc : Z) (last : option exn) (w : world),
    heap w !! l = Some c →
    (retry_bound max_retries - rc ≤ Z.of_nat n)%Z →
    n < fuel →
    (connect_loop drv fuel l max_retries rc last w).1 ≠ OutOfFuel.
Proof.
  induction n as [|n IH]; intros fuel rc last w H B Hf;
    (destruct fuel as [|fuel]; [lia|]);
    rewrite (connect_loop_turn _ _ _ _ _ _ _ _ H);
    destruct (lt_value rc max_retries) as [[]|] eqn:L; try done;
    apply lt_value_bound in L; [lia|].
  destruct (drv_connect drv (trace w) c) as [[]|[]]; try done.
  destruct (lt_value (rc + 1) max_retries) as [[]|]; try done;
    apply IH; try lia; by apply lookup_app_l_Some.
Qed.

Lemma loop_fuel_enough (max_retries : value) :
  ∃ n, (retry_bound max_retries - 0 ≤ Z.of_nat n)%Z ∧ n < loop_fuel max_retries.
Proof.
  destruct max_retries as [|[]|z|s]; simpl;
    [exists 0|exists 1|exists 0|exists (Z.to_nat z)|exists 0]; lia.
Qed.

Lemma diagnose_connection_total (l : loc) (last : option exn) :
  total (diagnose_connection l last).
Proof.
  intros w. unfold diagnose_connection.
  destruct (contains "connection refused" _);
    [|destruct (contains "password authentication failed" _);
      [|destruct (contains "does not exist" _ && contains "database" _)]];
    run; repeat (destruct (deref w l !! _); simpl; try done); done.
Qed.

(** [get_connection] returns or raises, whatever the profile and the
    driver. *)
Lemma get_connection_total (drv : driver) (db : option loc) :
  total (get_connection drv db).
Proof.
  intros w. destruct (effective_config_new db w) as (x & E & _).
  rewrite (get_connection_eq _ _ _ _ E). cbv zeta.
  destruct (loop_fuel_enough (default (VInt 3) (x !! "connect_retry_count")))
    as (n & B & F).
  pose proof (connect_loop_enough_fuel drv (length (heap w))
    (default (VInt 3) (x !! "connect_retry_count")) (popped x) n
    (loop_fuel (default (VInt 3) (x !! "connect_retry_count"))) 0 None
    (loop_start x w) (loop_start_lookup x w) B F) as T.
  destruct (connect_loop _ _ _ _ _ _ _) as [[[|rc last]|e|] w']; try done.
  pose proof (diagnose_connection_total (length (heap w)) last w') as D.
  by destruct (diagnose_connection _ _ _) as [[s|e|] w''].
Qed.

Lemma cleanup_total (drv : driver) : total (cleanup drv).
Proof. unfold cleanup. auto 10 with total. Qed.

Lemma try_handler_total (drv : driver) (body : M result)
    (on_Error on_Exception : string → result) :
  total body → total (try_handler drv body on_Error on_Exception).
Proof.
  intros B w. unfold try_handler. specialize (B w).
  assert (F : ∀ v w1, (return_finally drv v w1).1 ≠ OutOfFuel).
  { intros v. unfold return_finally.
    apply total_bind; [apply cleanup_total | intros; apply total_ret]. }
  destruct (body w) as [[v|[]|] w1]; simpl in *; try done; apply F.
Qed.

Lemma bind_conn_total (drv : driver) (db : option loc) :
  total (bind_conn drv db).
Proof.
  unfold bind_conn. apply total_bind; [apply get_connection_total|].
  intros _. apply total_modify.
Qed.

Lemma bind_cursor_total (drv : driver) : total (bind_cursor drv).
Proof. unfold bind_cursor. auto with total. Qed.

#[local] Hint Resolve bind_conn_total bind_cursor_total try_handler_total
  : total.

(** The three handlers return or raise: the model never runs out of
    fuel. *)
Lemma execute_query_total (drv : driver) (query : string)
    (params : option (list value)) (db : option loc) :
  total (execute_query drv query params db).
Proof. unfold execute_query, enter. auto 12 with total. Qed.

Lemma insert_data_total (drv : driver) (table_name : string)
    (data : insert_payload) (schema_name : string) (db : option loc) :
  total (insert_data drv table_name data schema_name db).
Proof.
  unfold insert_data, enter.
  apply total_bind; [apply total_modify | intros _].
  repeat (apply total_if; [apply total_ret|]).
  apply try_handler_total.
  apply total_bind; [apply bind_conn_total | intros _].
  apply total_bind; [apply bind_cursor_total | intros _].
  apply total_bind; [|intros first; auto 8 with total].
  destruct data as [d|[|x l]]; auto with total.
Qed.

Lemma update_data_total (drv : driver) (table_name : string) (data : item)
    (condition : option string) (params : option (list value))
    (schema_name : string) (db : option loc) :
  total (update_data drv table_name data condition params schema_name db).
Proof.
  unfold update_data, enter.
  apply total_bind; [apply total_modify | intros _].
  repeat (apply total_if; [apply total_ret|]).
  apply try_handler_total.
  apply total_bind; [apply bind_conn_total | intros _].
  apply total_bind; [apply bind_cursor_total | intros _].
  destruct (build_set _ _ _) as [set_items set_values].
  auto 10 with total.
Qed.

(* ===================================================================== *)
(** * Further properties *)
(* ===================================================================== *)

(** ** Running computations, continued *)

Lemma bind_Raise {A B : Type} (m : M A) (f : A → M B) (w w' : world) (e : exn) :
  m w = (Raise e, w') → (m ≫= f) w = (Raise e, w').
Proof. intros H. unfold mbind, M_bind. by rewrite H. Qed.

Lemma call_Fail {A : Type} (e : effect) (ans : list effect → answer A)
    (w : world) (x : exn) :
  ans (trace w) = Fail x → call e ans w = (Raise x, set_trace (trace w ++ [e]) w).
Proof. intros H. unfold call. by rewrite H. Qed.

(** ** What the handlers may do to the world *)

Lemma evolves_refl (Q : effect → Prop) (w : world) : evolves Q w w.
Proof.
  split; try done.
  - exists []. by rewrite app_nil_r.
  - exists []. by rewrite app_nil_r.
Qed.

Lemma evolves_trans (Q : effect → Prop) (w1 w2 w3 : world) :
  evolves Q w1 w2 → evolves Q w2 w3 → evolves Q w1 w3.
Proof.
  intros [[h1 H1] (t1 & T1 & F1) D1 G1] [[h2 H2] (t2 & T2 & F2) D2 G2].
  split; try congruence.
  - exists (h1 ++ h2). by rewrite H2, H1, app_assoc.
  - exists (t1 ++ t2). split; [by rewrite T2, T1, app_assoc|].
    by apply Forall_app.
Qed.

Lemma within_ret (Q : effect → Prop) {A : Type} (a : A) :
  within Q (mret a : M A).
Proof. intros w. apply evolves_refl. Qed.

Lemma within_raise (Q : effect → Prop) {A : Type} (e : exn) :
  within Q (raise e : M A).
Proof. intros w. apply evolves_refl. Qed.

Lemma within_gets (Q : effect → Prop) {A : Type} (f : world → A) :
  within Q (gets f).
Proof. intros w. apply evolves_refl. Qed.

Lemma within_bind (Q : effect → Prop) {A B : Type} (m : M A) (f : A → M B) :
  within Q m → (∀ a, within Q (f a)) → within Q (m ≫= f).
Proof.
  intros Hm Hf w. unfold mbind, M_bind. specialize (Hm w).
  destruct (m w) as [[a|e|] w']; simpl in *; [|done..].
  eapply evolves_trans; [exact Hm | apply Hf].
Qed.

Lemma within_if (Q : effect → Prop) {A : Type} (b : bool) (m1 m2 : M A) :
  within Q m1 → within Q m2 → within Q (if b then m1 else m2).
Proof. by destruct b. Qed.

Lemma within_call (Q : effect → Prop) {A : Type} (e : effect)
    (ans : list effect → answer A) :
  Q e → within Q (call e ans).
Proof.
  intros HQ w. unfold call.
  assert (E : evolves Q w (set_trace (trace w ++ [e]) w)).
  { split; try done; simpl.
    - exists []. by rewrite app_nil_r.
    - exists [e]. split; [done|]. by apply Forall_cons. }
  by destruct (ans (trace w)).
Qed.

Lemma within_set_locals (Q : effect → Prop) (f g : world → bool) :
  within Q (modify (λ w, set_locals (f w) (g w) w)).
Proof.
  intros w. split; try done; simpl; exists []; by rewrite app_nil_r.
Qed.

Lemma within_enter (Q : effect → Prop) : within Q enter.
Proof. apply (within_set_locals Q (λ _, false) (λ _, false)). Qed.

Lemma within_get_connection (Q : effect → Prop) (drv : driver)
    (db : option loc) :
  admits_session Q → within Q (get_connection drv db).
Proof.
  intros HQ w. destruct (effective_config_new db w) as (x & E & _).
  destruct (get_connection_grows drv db w x E)
    as [[more H] (new & T & F) D G _ _].
  simpl in H, T, D, G. split; try done.
  - exists ([popped x] ++ more). by rewrite H, app_assoc.
  - exists new. split; [done|]. eapply Forall_impl; [exact F|].
    intros e [-> | [line ->]]; by apply HQ.
Qed.

Lemma within_bind_conn (Q : effect → Prop) (drv : driver) (db : option loc) :
  admits_session Q → within Q (bind_conn drv db).
Proof.
  intros HQ. unfold bind_conn.
  apply within_bind; [by apply within_get_connection | intros _].
  apply (within_set_locals Q (λ _, true) local_cursor).
Qed.

Lemma within_bind_cursor (Q : effect → Prop) (drv : driver) :
  admits_session Q → within Q (bind_cursor drv).
Proof.
  intros HQ. unfold bind_cursor.
  apply within_bind; [by apply within_call, HQ | intros _].
  apply (within_set_locals Q local_conn (λ _, true)).
Qed.

Lemma within_cleanup (Q : effect → Prop) (drv : driver) :
  admits_session Q → within Q (cleanup drv).
Proof.
  intros HQ. unfold cleanup.
  apply within_bind; [apply within_gets | intros has_conn].
  apply within_if; [|apply within_ret].
  apply within_bind; [apply within_gets | intros closed].
  apply within_if; [apply within_ret|].
  apply within_bind; [apply within_gets | intros has_cursor].
  apply within_bind; [|intros _; by apply within_call, HQ].
  apply within_if; [by apply within_call, HQ | apply within_raise].
Qed.

Lemma within_try_handler (Q : effect → Prop) (drv : driver) (body : M result)
    (on_Error on_Exception : string → result) :
  admits_session Q → within Q body →
  within Q (try_handler drv body on_Error on_Exception).
Proof.
  intros HQ B w. unfold try_handler. specialize (B w).
  assert (F : ∀ v, within Q (return_finally drv v)).
  { intros v. unfold return_finally.
    apply within_bind; [by apply within_cleanup | intros _; apply within_ret]. }
  destruct (body w) as [[v|[]|] w1]; simpl in *; try done;
    (eapply evolves_trans; [exact B | apply F]).
Qed.

Lemma within_try_except_finally (Q : effect → Prop) (drv : driver)
    {R : Type} (body : M R) (on_Error on_Exception : string → R) :
  admits_session Q → within Q body →
  within Q (try_except_finally drv body on_Error on_Exception).
Proof.
  intros HQ B w. unfold try_except_finally. specialize (B w).
  assert (F : ∀ v : R, within Q (finally_return drv v)).
  { intros v. unfold finally_return.
    apply within_bind; [by apply within_cleanup | intros _; apply within_ret]. }
  destruct (body w) as [[v|[]|] w1]; simpl in *; try done;
    (eapply evolves_trans; [exact B | apply F]).
Qed.

Lemma within_comprehension (Q : effect → Prop) {A B : Type} (f : A → M B)
    (rows : list A) :
  (∀ a, within Q (f a)) → within Q (comprehension f rows).
Proof.
  intros Hf. induction rows as [|row rows IH]; simpl; [apply within_ret|].
  apply within_bind; [apply Hf | intros v].
  apply within_bind; [apply IH | intros vs; apply within_ret].
Qed.

Lemma within_row_first (Q : effect → Prop) (row : record) :
  within Q (row_first row).
Proof.
  unfold row_first. destruct (values row); [apply within_raise | apply within_ret].
Qed.

Lemma within_row_item (Q : effect → Prop) (key : string) (row : record) :
  within Q (row_item key row).
Proof.
  unfold row_item.
  destruct (record_lookup row key); [apply within_ret | apply within_raise].
Qed.

Lemma within_item_get (Q : effect → Prop) (x : item) (key : string) :
  within Q (item_get x key).
Proof. destruct x; [apply within_ret | apply within_raise]. Qed.

Lemma within_columns_loop (Q : effect → Prop) (columns : list item) :
  ∀ column_defs primary_keys,
    within Q (columns_loop columns column_defs primary_keys).
Proof.
  induction columns as [|col columns IH]; intros cd pk; simpl;
    [apply within_ret|].
  apply within_bind; [apply within_item_get | intros name].
  apply within_if; [apply within_ret|].
  apply within_bind; [apply within_item_get | intros type].
  apply within_if; [apply within_ret|].
  apply within_bind; [apply within_item_get | intros primary_key].
  apply within_bind; [apply within_item_get | intros nullable].
  apply IH.
Qed.

Lemma within_join_values (Q : effect → Prop) (sep : string) (l : list value) :
  ∀ i, within Q (join_values sep i l).
Proof.
  induction l as [|v l IH]; intros i; simpl; [apply within_ret|].
  destruct v; try apply within_raise.
  destruct l; [apply within_ret|].
  apply within_bind; [apply IH | intros rest; apply within_ret].
Qed.

Create HintDb within discriminated.
#[local] Hint Resolve within_ret within_raise within_gets within_if
  within_enter within_bind_conn within_bind_cursor within_try_handler
  within_try_except_finally within_comprehension within_row_first
  within_row_item within_columns_loop within_join_values : within.
#[local] Hint Extern 2 (within _ (_ ≫= _)) =>
  apply within_bind; [|intros ?] : within.
#[local] Hint Extern 2 (within _ (call _ _)) =>
  apply within_call; exact I : within.
#[local] Hint Extern 2 (within _ (execute _ _ _)) =>
  apply within_call; exact I : within.
#[local] Hint Extern 2 (within _ (fetchall _)) =>
  apply within_call; exact I : within.

Lemma reading_admits_session : admits_session reading_effect.
Proof. by intros []. Qed.

Lemma anything_admits_session : admits_session (λ _, True).
Proof. done. Qed.

#[local] Hint Resolve reading_admits_session anything_admits_session : within.

(** X14: the three catalogue handlers never commit and never run a batch,
    whatever the driver answers: every effect they add to the history
    is a reading one. *)
Theorem catalogue_handlers_never_commit (drv : driver) (w : world)
    (table_name schema_name : string) (db : option loc) :
  (∃ new, trace (list_tables drv schema_name db w).2 = trace w ++ new
          ∧ Forall reading_effect new)
  ∧ (∃ new, trace (describe_table drv table_name schema_name db w).2
            = trace w ++ new
            ∧ Forall reading_effect new)
  ∧ (∃ new, trace (list_schemas drv db w).2 = trace w ++ new
            ∧ Forall reading_effect new).
Proof.
  assert (L : within reading_effect (list_tables drv schema_name db)).
  { unfold list_tables. auto 12 with within. }
  assert (D : within reading_effect (describe_table drv table_name schema_name db)).
  { unfold describe_table. auto 14 with within. }
  assert (S : within reading_effect (list_schemas drv db)).
  { unfold list_schemas. auto 12 with within. }
  split; [apply L | split; [apply D | apply S]].
Qed.

Lemma within_keeps_configuration {A : Type} (m : M A) :
  within (λ _, True) m → keeps_configuration m.
Proof.
  intros W env cli w [D G]. destruct (W w) as [[more H] _ HD HG].
  split; [split|].
  - rewrite HD, H. by apply lookup_app_l_Some.
  - rewrite HG. destruct cli as [args|]; [|done].
    destruct G as (g & G1 & G2). exists g. split; [done|].
    rewrite H. by apply lookup_app_l_Some.
  - intros l c Hl. rewrite H. by apply lookup_app_l_Some.
Qed.

Lemma within_execute_query (drv : driver) (query : string)
    (params : option (list value)) (db : option loc) :
  within (λ _, True) (execute_query drv query params db).
Proof. unfold execute_query. auto 14 with within. Qed.

Lemma within_insert_data (drv : driver) (table_name : string)
    (data : insert_payload) (schema_name : string) (db : option loc) :
  within (λ _, True) (insert_data drv table_name data schema_name db).
Proof.
  unfold insert_data.
  apply within_bind; [apply within_enter | intros _].
  repeat (apply within_if; [apply within_ret|]).
  apply within_try_handler; [done|].
  apply within_bind; [by apply within_bind_conn | intros _].
  apply within_bind; [by apply within_bind_cursor | intros _].
  apply within_bind; [|intros first; auto 8 with within].
  destruct data as [d|[|x l]]; auto with within.
Qed.

Lemma within_update_data (drv : driver) (table_name : string) (data : item)
    (condition : option string) (params : option (list value))
    (schema_name : string) (db : option loc) :
  within (λ _, True)
    (update_data drv table_name data condition params schema_name db).
Proof.
  unfold update_data.
  apply within_bind; [apply within_enter | intros _].
  repeat (apply within_if; [apply within_ret|]).
  apply within_try_handler; [done|].
  apply within_bind; [by apply within_bind_conn | intros _].
  apply within_bind; [by apply within_bind_cursor | intros _].
  destruct (build_set _ _ _) as [set_items set_values].
  auto 10 with within.
Qed.

Lemma within_create_table (Q : effect → Prop) (drv : driver)
    (table_name : string) (columns : list item) (schema_name : string)
    (if_not_exists : bool) (db : option loc) :
  admits_session Q → (∀ q p, Q (Execute q p)) → Q Commit →
  within Q (create_table drv table_name columns schema_name if_not_exists db).
Proof.
  intros HQ HE HC. unfold create_table.
  apply within_bind; [apply within_enter | intros _].
  repeat (apply within_if; [apply within_ret|]).
  apply within_try_except_finally; [done|].
  apply within_bind; [apply within_columns_loop | intros [|cd pk]];
    [apply within_ret|].
  apply within_bind.
  { destruct pk; [apply within_ret|].
    apply within_bind; [apply within_join_values | intros; apply within_ret]. }
  intros cd'.
  apply within_bind; [by apply within_bind_conn | intros _].
  apply within_bind; [by apply within_bind_cursor | intros _].
  apply within_bind; [apply within_call, HE | intros _].
  apply within_bind; [by apply within_call | intros _; apply within_ret].
Qed.

(** X19: no handler changes the configuration of the process or the items
    of a dictionary that exists when it is called (the caller's
    [db_config] included): what a call overrides does not outlive the
    call. *)
Theorem handlers_keep_configuration (drv : driver) :
  (∀ query params db, keeps_configuration (execute_query drv query params db))
  ∧ (∀ schema db, keeps_configuration (list_tables drv schema db))
  ∧ (∀ table schema db, keeps_configuration (describe_table drv table schema db))
  ∧ (∀ db, keeps_configuration (list_schemas drv db))
  ∧ (∀ table columns schema if_not_exists db,
       keeps_configuration (create_table drv table columns schema if_not_exists db))
  ∧ (∀ table data schema db,
       keeps_configuration (insert_data drv table data schema db))
  ∧ (∀ table data condition params schema db,
       keeps_configuration (update_data drv table data condition params schema db)).
Proof.
  split_and!; intros; apply within_keeps_configuration.
  - apply within_execute_query.
  - unfold list_tables. auto 12 with within.
  - unfold describe_table. auto 14 with within.
  - unfold list_schemas. auto 12 with within.
  - by apply within_create_table.
  - apply within_insert_data.
  - apply within_update_data.
Qed.

(** A call that overrides the host, then the configuration it leaves. *)
Lemma handlers_keep_configuration_witness :
  configured no_environ (Some sample_args)
    (execute_query accepting "SELECT 1" None sample_call.1 sample_call.2).2.
Proof.
  destruct (handlers_keep_configuration accepting) as [H _].
  apply (H "SELECT 1" None sample_call.1 no_environ (Some sample_args)
           sample_call.2).
  split; [vm_compute; exact eq_refl|].
  exists 2. split; vm_compute; exact eq_refl.
Defined.

(** ** Returning a dictionary and releasing the connection *)

Lemma keeps_locals_ret {A : Type} (a : A) : keeps_locals (mret a : M A).
Proof. by intros w. Qed.

Lemma keeps_locals_raise {A : Type} (e : exn) : keeps_locals (raise e : M A).
Proof. by intros w. Qed.

Lemma keeps_locals_gets {A : Type} (f : world → A) : keeps_locals (gets f).
Proof. by intros w. Qed.

Lemma keeps_locals_call {A : Type} (e : effect) (ans : list effect → answer A) :
  keeps_locals (call e ans).
Proof. intros w. unfold call. by destruct (ans (trace w)). Qed.

Lemma keeps_locals_bind {A B : Type} (m : M A) (f : A → M B) :
  keeps_locals m → (∀ a, keeps_locals (f a)) → keeps_locals (m ≫= f).
Proof.
  intros Hm Hf w. unfold mbind, M_bind. destruct (Hm w) as [C K].
  destruct (m w) as [[a|e|] w']; simpl in *; [|done..].
  destruct (Hf a w') as [C' K']. split; congruence.
Qed.

Lemma keeps_locals_if {A : Type} (b : bool) (m1 m2 : M A) :
  keeps_locals m1 → keeps_locals m2 → keeps_locals (if b then m1 else m2).
Proof. by destruct b. Qed.

Lemma keeps_locals_comprehension {A B : Type} (f : A → M B) (rows : list A) :
  (∀ a, keeps_locals (f a)) → keeps_locals (comprehension f rows).
Proof.
  intros Hf. induction rows as [|row rows IH]; simpl; [apply keeps_locals_ret|].
  apply keeps_locals_bind; [apply Hf | intros v].
  apply keeps_locals_bind; [apply IH | intros vs; apply keeps_locals_ret].
Qed.

Lemma keeps_locals_row_first (row : record) : keeps_locals (row_first row).
Proof.
  unfold row_first.
  destruct (values row); [apply keeps_locals_raise | apply keeps_locals_ret].
Qed.

Lemma keeps_locals_row_item (key : string) (row : record) :
  keeps_locals (row_item key row).
Proof.
  unfold row_item.
  destruct (record_lookup row key);
    [apply keeps_locals_ret | apply keeps_locals_raise].
Qed.

Lemma keeps_locals_item_get (x : item) (key : string) :
  keeps_locals (item_get x key).
Proof. destruct x; [apply keeps_locals_ret | apply keeps_locals_raise]. Qed.

Lemma keeps_locals_columns_loop (columns : list item) :
  ∀ column_defs primary_keys,
    keeps_locals (columns_loop columns column_defs primary_keys).
Proof.
  induction columns as [|col columns IH]; intros cd pk; simpl;
    [apply keeps_locals_ret|].
  apply keeps_locals_bind; [apply keeps_locals_item_get | intros name].
  apply keeps_locals_if; [apply keeps_locals_ret|].
  apply keeps_locals_bind; [apply keeps_locals_item_get | intros type].
  apply keeps_locals_if; [apply keeps_locals_ret|].
  apply keeps_locals_bind; [apply keeps_locals_item_get | intros primary_key].
  apply keeps_locals_bind; [apply keeps_locals_item_get | intros nullable].
  apply IH.
Qed.

Lemma keeps_locals_join_values (sep : string) (l : list value) :
  ∀ i, keeps_locals (join_values sep i l).
Proof.
  induction l as [|v l IH]; intros i; simpl; [apply keeps_locals_ret|].
  destruct v; try apply keeps_locals_raise.
  destruct l; [apply keeps_locals_ret|].
  apply keeps_locals_bind; [apply IH | intros rest; apply keeps_locals_ret].
Qed.

Create HintDb locals discriminated.
#[local] Hint Resolve keeps_locals_ret keeps_locals_raise keeps_locals_gets
  keeps_locals_call keeps_locals_if keeps_locals_comprehension
  keeps_locals_row_first keeps_locals_row_item keeps_locals_columns_loop
  keeps_locals_join_values : locals.
#[local] Hint Extern 2 (keeps_locals (_ ≫= _)) =>
  apply keeps_locals_bind; [|intros ?] : locals.
#[local] Hint Extern 2 (keeps_locals (execute _ _ _)) =>
  apply keeps_locals_call : locals.
#[local] Hint Extern 2 (keeps_locals (fetchall _)) =>
  apply keeps_locals_call : locals.

Lemma cursor_follows_keeps {A : Type} (m : M A) :
  keeps_locals m → cursor_follows_conn m.
Proof. intros K w C. destruct (K w) as [-> _]. by rewrite C. Qed.

Lemma cursor_follows_bind {A B : Type} (m : M A) (f : A → M B) :
  keeps_locals m → (∀ a, cursor_follows_conn (f a)) →
  cursor_follows_conn (m ≫= f).
Proof.
  intros K F w C. unfold mbind, M_bind. destruct (K w) as [KC _].
  destruct (m w) as [[a|e|] w']; simpl in *.
  - apply F; congruence.
  - intros H. rewrite KC, C in H. discriminate.
  - intros H. rewrite KC, C in H. discriminate.
Qed.

(** The body of a handler from [conn = get_connection(...)] on. *)
Lemma cursor_follows_session (drv : driver) (db : option loc) {R : Type}
    (rest : M R) :
  cursor_opens drv → keeps_locals rest →
  cursor_follows_conn (bind_conn drv db;; bind_cursor drv;; rest).
Proof.
  intros O K w C.
  destruct (get_connection_locals drv db w) as [GC GK].
  destruct (get_connection drv db w) as [[[]|e|] w1] eqn:G; simpl in GC, GK.
  - rewrite (bind_Ret _ _ _ _ _ (bind_conn_Ret _ _ _ _ G)).
    erewrite bind_Ret by (apply bind_cursor_Ret, O).
    match goal with
    | |- context [rest ?w0] => destruct (K w0) as [KC KK]
    end.
    intros _. by rewrite KK.
  - unfold bind_conn, mbind, M_bind. rewrite G. simpl.
    intros H. rewrite GC, C in H. discriminate.
  - unfold bind_conn, mbind, M_bind. rewrite G. simpl.
    intros H. rewrite GC, C in H. discriminate.
Qed.

Lemma cleanup_releases (drv : driver) (w1 : world) :
  closes_quietly drv →
  (local_conn w1 = true → local_cursor w1 = true) →
  ∃ w', cleanup drv w1 = (Ret (), w') ∧ released drv w'.
Proof.
  intros [CC CK] B. unfold cleanup, released. run.
  destruct (local_conn w1) eqn:C.
  - destruct (drv_closed drv (trace w1)) eqn:D.
    + exists w1. split; [done|]. intros _. by left.
    + rewrite (B eq_refl), CC. simpl. rewrite CK.
      eexists. split; [done|]. intros _. right. exists (trace w1). simpl.
      by rewrite <- app_assoc.
  - exists w1. split; [done|]. intros H. rewrite C in H. discriminate.
Qed.

Lemma try_handler_answers (drv : driver) (body : M result)
    (on_Error on_Exception : string → result) :
  closes_quietly drv → total body → cursor_follows_conn body →
  ∀ w, local_conn w = false →
       ∃ v w', try_handler drv body on_Error on_Exception w = (Ret v, w')
               ∧ released drv w'.
Proof.
  intros Q T F w C. unfold try_handler, return_finally.
  specialize (T w). specialize (F w C).
  destruct (body w) as [[v|[]|] w1]; simpl in *; try done;
    destruct (cleanup_releases drv w1 Q F) as (w' & E & R);
    rewrite (bind_Ret _ _ _ _ _ E); by eexists _, _.
Qed.

Lemma try_except_finally_answers (drv : driver) {R : Type} (body : M R)
    (on_Error on_Exception : string → R) :
  closes_quietly drv → total body → cursor_follows_conn body →
  ∀ w, local_conn w = false →
       ∃ v w', try_except_finally drv body on_Error on_Exception w = (Ret v, w')
               ∧ released drv w'.
Proof.
  intros Q T F w C. unfold try_except_finally, finally_return.
  specialize (T w). specialize (F w C).
  destruct (body w) as [[v|[]|] w1]; simpl in *; try done;
    destruct (cleanup_releases drv w1 Q F) as (w' & E & Rl);
    rewrite (bind_Ret _ _ _ _ _ E); by eexists _, _.
Qed.

Lemma total_comprehension {A B : Type} (f : A → M B) (rows : list A) :
  (∀ a, total (f a)) → total (comprehension f rows).
Proof.
  intros Hf. induction rows as [|row rows IH]; simpl; [apply total_ret|].
  apply total_bind; [apply Hf | intros v].
  apply total_bind; [apply IH | intros vs; apply total_ret].
Qed.

Lemma total_row_first (row : record) : total (row_first row).
Proof. unfold row_first. destruct (values row); auto with total. Qed.

Lemma total_row_item (key : string) (row : record) : total (row_item key row).
Proof. unfold row_item. destruct (record_lookup row key); auto with total. Qed.

Lemma total_item_get (x : item) (key : string) : total (item_get x key).
Proof. destruct x; simpl; auto with total. Qed.

Lemma total_columns_loop (columns : list item) :
  ∀ column_defs primary_keys,
    total (columns_loop columns column_defs primary_keys).
Proof.
  induction columns as [|col columns IH]; intros cd pk; simpl;
    [apply total_ret|].
  apply total_bind; [apply total_item_get | intros name].
  apply total_if; [apply total_ret|].
  apply total_bind; [apply total_item_get | intros type].
  apply total_if; [apply total_ret|].
  apply total_bind; [apply total_item_get | intros primary_key].
  apply total_bind; [apply total_item_get | intros nullable].
  apply IH.
Qed.

Lemma total_join_values (sep : string) (l : list value) :
  ∀ i, total (join_values sep i l).
Proof.
  induction l as [|v l IH]; intros i; simpl; [apply total_ret|].
  destruct v; try apply total_raise.
  destruct l; [apply total_ret|].
  apply total_bind; [apply IH | intros rest; apply total_ret].
Qed.

#[local] Hint Resolve total_comprehension total_row_first total_row_item
  total_columns_loop total_join_values : total.
#[local] Hint Extern 2 (total (execute _ _ _)) => apply total_call : total.
#[local] Hint Extern 2 (total (fetchall _)) => apply total_call : total.

Lemma released_unbound (drv : driver) (w : world) :
  local_conn w = false → released drv w.
Proof. intros C H. rewrite C in H. discriminate. Qed.

(** A handler that turns its arguments down returns at once. *)
Lemma turned_down_answers (drv : driver) {R : Type} (v : R) (w : world) :
  ∃ v' w', (mret v : M R) (set_locals false false w) = (Ret v', w')
           ∧ released drv w'.
Proof. eexists _, _. split; [reflexivity | by apply released_unbound]. Qed.

(** X20: with a driver whose [conn.cursor(...)] and [close()] calls do not
    raise, every handler returns a dictionary on every path, whatever
    [connect], [execute], [fetchall] and [commit] do, and leaves no
    connection open: the connection it opened is reported closed by the
    driver or was closed by the last two calls of the handler. *)
Theorem handlers_answer_and_release (drv : driver) :
  cursor_opens drv →
  closes_quietly drv →
  (∀ query params db, answers_and_releases drv (execute_query drv query params db))
  ∧ (∀ schema db, answers_and_releases drv (list_tables drv schema db))
  ∧ (∀ table schema db,
       answers_and_releases drv (describe_table drv table schema db))
  ∧ (∀ db, answers_and_releases drv (list_schemas drv db))
  ∧ (∀ table columns schema if_not_exists db,
       answers_and_releases drv
         (create_table drv table columns schema if_not_exists db))
  ∧ (∀ table data schema db,
       answers_and_releases drv (insert_data drv table data schema db))
  ∧ (∀ table data condition params schema db,
       answers_and_releases drv
         (update_data drv table data condition params schema db)).
Proof.
  intros O Q. split_and!.
  - intros query params db w. unfold execute_query, enter.
    erewrite bind_Ret by reflexivity.
    destruct (is_empty query); [apply turned_down_answers|].
    apply try_handler_answers; [done | | | done].
    + auto 12 with total.
    + apply cursor_follows_session; [done|]. auto 10 with locals.
  - intros schema db w. unfold list_tables, enter.
    erewrite bind_Ret by reflexivity.
    apply try_except_finally_answers; [done | | | done].
    + auto 12 with total.
    + apply cursor_follows_session; [done|]. auto 10 with locals.
  - intros table schema db w. unfold describe_table, enter.
    erewrite bind_Ret by reflexivity.
    destruct (is_empty table); [apply turned_down_answers|].
    apply try_except_finally_answers; [done | | | done].
    + auto 14 with total.
    + apply cursor_follows_session; [done|]. auto 12 with locals.
  - intros db w. unfold list_schemas, enter.
    erewrite bind_Ret by reflexivity.
    apply try_except_finally_answers; [done | | | done].
    + auto 12 with total.
    + apply cursor_follows_session; [done|]. auto 10 with locals.
  - intros table columns schema if_not_exists db w. unfold create_table, enter.
    erewrite bind_Ret by reflexivity.
    destruct (is_empty table); [apply turned_down_answers|].
    destruct columns as [|col columns]; [apply turned_down_answers|].
    apply try_except_finally_answers; [done | | | done].
    + apply total_bind; [apply total_columns_loop | intros [|cd pk]];
        [apply total_ret|].
      apply total_bind; [destruct pk; auto with total|intros cd'].
      auto 10 with total.
    + apply cursor_follows_bind; [apply keeps_locals_columns_loop|].
      intros [|cd pk]; [apply cursor_follows_keeps, keeps_locals_ret|].
      apply cursor_follows_bind; [destruct pk; auto with locals|intros cd'].
      apply cursor_follows_session; [done|]. auto 10 with locals.
  - intros table data schema db w. unfold insert_data, enter.
    erewrite bind_Ret by reflexivity.
    destruct (is_empty table); [apply turned_down_answers|].
    destruct (match data with Single [] | Many [] => true | _ => false end);
      [apply turned_down_answers|].
    destruct (negb (forallb is_dict _)); [apply turned_down_answers|].
    apply try_handler_answers; [done | | | done].
    + apply total_bind; [apply bind_conn_total | intros _].
      apply total_bind; [apply bind_cursor_total | intros _].
      apply total_bind; [|intros first; auto 8 with total].
      destruct data as [d|[|x l]]; auto with total.
    + apply cursor_follows_session; [done|].
      apply keeps_locals_bind; [|intros first; auto 8 with locals].
      destruct data as [d|[|x l]]; auto with locals.
  - intros table data condition params schema db w. unfold update_data, enter.
    erewrite bind_Ret by reflexivity.
    destruct (is_empty table); [apply turned_down_answers|].
    destruct (item_falsy data || negb (is_dict data)); [apply turned_down_answers|].
    destruct (match condition with None => true | Some c => is_empty c end);
      [apply turned_down_answers|].
    apply try_handler_answers; [done | | | done].
    + apply total_bind; [apply bind_conn_total | intros _].
      apply total_bind; [apply bind_cursor_total | intros _].
      destruct (build_set _ _ _) as [set_items set_values].
      auto 10 with total.
    + apply cursor_follows_session; [done|].
      destruct (build_set _ _ _) as [set_items set_values].
      auto 10 with locals.
Qed.

Lemma handlers_answer_and_release_witness :
  ∃ v w',
    execute_query (rejecting "syntax error at or near SELEC") "SELEC 1"
                  None None (boot no_environ None) = (Ret v, w')
    ∧ local_conn w' = true
    ∧ ∃ t, trace w' = t ++ [CursorClose; ConnClose].
Proof.
  destruct (handlers_answer_and_release
              (rejecting "syntax error at or near SELEC")) as (H & _).
  - intros t. exact eq_refl.
  - split; intros t; exact eq_refl.
  - destruct (H "SELEC 1" None None (boot no_environ None))
      as (v & w' & E & R).
    exists v, w'. split; [exact E|].
    assert (C : local_conn w' = true).
    { vm_compute in E. injection E as _ <-. exact eq_refl. }
    split; [exact C|].
    destruct (R C) as [D | T]; [discriminate D | exact T].
Defined.

(** ** The retry loop against any driver *)

Lemma printed_lines_app (t1 t2 : list effect) :
  printed_lines (t1 ++ t2) = printed_lines t1 + printed_lines t2.
Proof. unfold printed_lines. by rewrite List.filter_app, length_app. Qed.

Lemma connect_loop_attempts_bounded (drv : driver) (l : loc)
    (max_retries : value) (c : config) (fuel : nat) :
  ∀ (rc : Z) (last : option exn) (w : world),
    heap w !! l = Some c →
    connect_attempts (trace (connect_loop drv fuel l max_retries rc last w).2)
    ≤ connect_attempts (trace w) + Z.to_nat (retry_bound max_retries - rc).
Proof.
  induction fuel as [|fuel IH]; intros rc last w H; [simpl; lia|].
  rewrite (connect_loop_turn _ _ _ _ _ _ _ _ H).
  destruct (lt_value rc max_retries) as [[]|] eqn:L; simpl; try lia.
  apply lt_value_bound in L.
  assert (A : connect_attempts (trace w ++ [Connect c])
              = connect_attempts (trace w) + 1)
    by (by rewrite connect_attempts_app).
  destruct (drv_connect drv (trace w) c) as [[]|[]]; simpl; rewrite ?A; try lia.
  destruct (lt_value (rc + 1) max_retries) as [[]|]; simpl; rewrite ?A; try lia.
  - etransitivity; [apply IH; by apply lookup_app_l_Some|].
    replace (connect_attempts (trace (after_retry_line c (rc + 1) msg w)))
      with (connect_attempts (trace w) + 1)
      by (simpl; by rewrite connect_attempts_app).
    lia.
  - etransitivity; [apply IH; by apply lookup_app_l_Some|].
    replace (connect_attempts (trace (after_connect c w)))
      with (connect_attempts (trace w) + 1)
      by (simpl; by rewrite connect_attempts_app).
    lia.
Qed.

(** X2: whatever the driver answers, [get_connection] makes at most
    [connect_retry_count] calls of [connect] (none for a count that is
    zero, negative or not a number; at most 3 when the profile has no
    count). *)
Theorem get_connection_attempts_bounded (drv : driver) (db : option loc)
    (w : world) :
  ∃ l w1,
    effective_config db w = (Ret l, w1)
    ∧ connect_attempts (trace (get_connection drv db w).2)
      ≤ connect_attempts (trace w)
        + Z.to_nat (retry_bound
                      (default (VInt 3) (deref w1 l !! "connect_retry_count"))).
Proof.
  destruct (effective_config_new db w) as (x & E & _).
  exists (length (heap w)), (set_heap (heap w ++ [x]) w).
  split; [done|]. rewrite deref_new.
  rewrite (get_connection_eq _ _ _ _ E). cbv zeta.
  set (mr := default (VInt 3) (x !! "connect_retry_count")).
  pose proof (connect_loop_attempts_bounded drv (length (heap w)) mr (popped x)
                (loop_fuel mr) 0 None (loop_start x w) (loop_start_lookup x w))
    as B.
  rewrite Z.sub_0_r in B. simpl trace in B at 2.
  destruct (connect_loop _ _ _ _ _ _ _) as [[[|rc last]|e|] w']; try done.
  pose proof (diagnose_connection_world (length (heap w)) last w') as D.
  destruct (diagnose_connection _ _ _) as [[s|e|] w'']; simpl in D; by subst.
Qed.

(** X3: a [connect_retry_count] that is a text or [None] makes
    [get_connection] raise the [TypeError] of the comparison
    [retry_count < max_retries] before any [connect] call. *)
Theorem get_connection_rejects_uncomparable_count (drv : driver)
    (db : option loc) (w w1 : world) (l : loc) (v : value) :
  effective_config db w = (Ret l, w1) →
  deref w1 l !! "connect_retry_count" = Some v →
  v = VNone ∨ (∃ s, v = VStr s) →
  ∃ w',
    get_connection drv db w
    = (Raise (TypeError ("'<' not supported between instances of 'int' and '"
                         +:+ type_name v +:+ "'")), w')
    ∧ trace w' = trace w.
Proof.
  intros E HV T.
  destruct (effective_config_inv _ _ _ _ E) as [-> E'].
  set (x := deref w1 (length (heap w))) in *.
  rewrite (get_connection_eq _ _ _ _ E'). cbv zeta. rewrite HV.
  change (default (VInt 3) (Some v)) with v.
  assert (F : ∃ n, loop_fuel v = S n ∧ lt_value 0 v = None).
  { destruct T as [-> | [s ->]]; by exists 1. }
  destruct F as (n & -> & L).
  rewrite (connect_loop_turn _ _ _ _ _ _ _ _ (loop_start_lookup x w)), L.
  by eexists.
Qed.

Lemma get_connection_rejects_uncomparable_count_witness :
  ∃ w',
    get_connection accepting (Some 1)
      (pass_db_config (Some {["connect_retry_count" := VStr "3"]})
                      (boot no_environ None)).2
    = (Raise (TypeError "'<' not supported between instances of 'int' and 'str'"),
       w').
Proof.
  destruct (get_connection_rejects_uncomparable_count accepting (Some 1)
              (pass_db_config (Some {["connect_retry_count" := VStr "3"]})
                              (boot no_environ None)).2
              (effective_config (Some 1)
                 (pass_db_config (Some {["connect_retry_count" := VStr "3"]})
                                 (boot no_environ None)).2).2
              2 (VStr "3")) as (w' & E & _).
  - vm_compute. exact eq_refl.
  - vm_compute. exact eq_refl.
  - right. by eexists.
  - exists w'. exact E.
Defined.

(** The loop when the first [j] answers are errors of the driver and the
    next answer is not. *)
Lemma connect_loop_decisive (drv : driver) (l : loc) (N : Z) (c : config)
    (a : answer unit) :
  (∀ msg, a ≠ Fail (Error msg)) →
  ∀ (j fuel : nat) (rc : Z) (last : option exn) (w : world),
    heap w !! l = Some c →
    (∀ t p, connect_attempts t < connect_attempts (trace w) + j →
            ∃ msg, drv_connect drv t p = Fail (Error msg)) →
    (∀ t p, connect_attempts t = connect_attempts (trace w) + j →
            drv_connect drv t p = a) →
    (rc + Z.of_nat j < N)%Z →
    j < fuel →
    ∃ w',
      connect_loop drv fuel l (VInt N) rc last w
      = (match a with Ok _ => Ret Returned | Fail e => Raise e end, w')
      ∧ connect_attempts (trace w') = connect_attempts (trace w) + j + 1
      ∧ printed_lines (trace w') = printed_lines (trace w) + j.
Proof.
  intros NE. induction j as [|j IH]; intros fuel rc last w H HF HA HN Hf;
    (destruct fuel as [|fuel]; [lia|]);
    rewrite (connect_loop_turn _ _ _ _ _ _ _ _ H); simpl lt_value;
    replace (rc <? N)%Z with true by lia.
  - rewrite (HA (trace w) c) by lia.
    exists (after_connect c w).
    split; [destruct a as [[]|[]]; try done; by destruct (NE msg)|].
    simpl. rewrite connect_attempts_app, printed_lines_app. simpl.
    unfold connect_attempts, printed_lines. simpl. lia.
  - destruct (HF (trace w) c) as [msg Hmsg]; [lia|]. rewrite Hmsg.
    replace (rc + 1 <? N)%Z with true by lia.
    assert (A3 : connect_attempts (trace (after_retry_line c (rc + 1) msg w))
                 = connect_attempts (trace w) + 1)
      by (simpl; by rewrite connect_attempts_app).
    assert (P3 : printed_lines (trace (after_retry_line c (rc + 1) msg w))
                 = printed_lines (trace w) + 1)
      by (simpl; by rewrite printed_lines_app).
    destruct (IH fuel (rc + 1)%Z (Some (Error msg))
                 (after_retry_line c (rc + 1) msg w)) as (w' & E & A & P).
    + by apply lookup_app_l_Some.
    + intros t p Ht. apply HF. lia.
    + intros t p Ht. apply HA. lia.
    + lia.
    + lia.
    + exists w'. split; [done|]. lia.
Qed.

(** X4: [get_connection] stops at the first answer of [connect] that is
    not a [psycopg2.Error]: after [k - 1] failed attempts ([k] within
    the retry count) it returns the connection of the [k]-th attempt, or
    lets the other exception of the [k]-th attempt through without a
    further retry; it has then called [connect] exactly [k] times and
    printed [k - 1] retry lines. *)
Theorem get_connection_stops_at_first_answer (drv : driver) (db : option loc)
    (w w1 : world) (l : loc) (N : Z) (k : nat) (a : answer unit) :
  effective_config db w = (Ret l, w1) →
  deref w1 l !! "connect_retry_count" = Some (VInt N) →
  1 ≤ k → (Z.of_nat k ≤ N)%Z →
  (∀ msg, a ≠ Fail (Error msg)) →
  (∀ t p, connect_attempts t < connect_attempts (trace w) + (k - 1) →
          ∃ msg, drv_connect drv t p = Fail (Error msg)) →
  (∀ t p, connect_attempts t = connect_attempts (trace w) + (k - 1) →
          drv_connect drv t p = a) →
  (get_connection drv db w).1 = loop_outcome a
  ∧ connect_attempts (trace (get_connection drv db w).2)
    = connect_attempts (trace w) + k
  ∧ printed_lines (trace (get_connection drv db w).2)
    = printed_lines (trace w) + (k - 1).
Proof.
  intros E HN K1 KN NE HF HA.
  destruct (effective_config_inv _ _ _ _ E) as [-> E'].
  set (x := deref w1 (length (heap w))) in *.
  rewrite (get_connection_eq _ _ _ _ E'). cbv zeta. rewrite HN.
  change (default (VInt 3) (Some (VInt N))) with (VInt N).
  change (loop_fuel (VInt N)) with (S (Z.to_nat N)).
  destruct (connect_loop_decisive drv (length (heap w)) N (popped x) a NE
              (k - 1) (S (Z.to_nat N)) 0 None (loop_start x w))
    as (w' & EL & A & P);
    [apply loop_start_lookup | exact HF | exact HA | lia | lia |].
  rewrite EL. simpl trace in A, P.
  destruct a as [[]|e]; simpl; (split; [done|]; split; lia).
Qed.

Lemma get_connection_stops_at_first_answer_witness :
  (get_connection (starting_up 2) None (boot no_environ None)).1 = Ret ()
  ∧ connect_attempts
      (trace (get_connection (starting_up 2) None (boot no_environ None)).2)
    = 3
  ∧ printed_lines
      (trace (get_connection (starting_up 2) None (boot no_environ None)).2)
    = 2.
Proof.
  apply (get_connection_stops_at_first_answer (starting_up 2) None
           (boot no_environ None)
           (effective_config None (boot no_environ None)).2 1 3 3 (Ok ())).
  - vm_compute. exact eq_refl.
  - vm_compute. exact eq_refl.
  - lia.
  - lia.
  - discriminate.
  - intros t p H. eexists. simpl in *.
    destruct (Nat.ltb_spec (connect_attempts t) 2); [done | lia].
  - intros t p H. simpl in *.
    destruct (Nat.ltb_spec (connect_attempts t) 2); [lia | done].
Defined.

(** ** The retry lines and the diagnosis when every attempt fails *)

Lemma connect_loop_all_fail_lines (drv : driver) (l : loc) (N : Z) (c : config) :
  always_fails drv →
  ∀ (n fuel : nat) (rc : Z) (last : option exn) (w : world),
    heap w !! l = Some c →
    (N - rc)%Z = Z.of_nat n →
    n < fuel →
    printed_lines (trace (connect_loop drv fuel l (VInt N) rc last w).2)
    = printed_lines (trace w) + (n - 1).
Proof.
  intros AF. induction n as [|n IH]; intros fuel rc last w H HN Hf;
    (destruct fuel as [|fuel]; [lia|]);
    rewrite (connect_loop_turn _ _ _ _ _ _ _ _ H); simpl lt_value.
  - replace (rc <? N)%Z with false by lia. simpl. lia.
  - replace (rc <? N)%Z with true by lia.
    destruct (AF (trace w) c) as [msg Hmsg]. rewrite Hmsg.
    destruct (rc + 1 <? N)%Z eqn:More.
    + rewrite IH; [|by apply lookup_app_l_Some | lia | lia].
      simpl. rewrite printed_lines_app. unfold printed_lines at 2. simpl. lia.
    + rewrite IH; [|by apply lookup_app_l_Some | lia | lia].
      simpl. rewrite printed_lines_app. unfold printed_lines at 2. simpl.
      assert (n = 0) by lia. lia.
Qed.

(** X5: when every attempt fails, [get_connection] prints a retry line
    after each failure but the last: [N - 1] lines for a retry count
    [N >= 1]. *)
Theorem get_connection_prints_between_attempts (drv : driver)
    (db : option loc) (w w1 : world) (l : loc) (N : Z) :
  effective_config db w = (Ret l, w1) →
  deref w1 l !! "connect_retry_count" = Some (VInt N) →
  (1 ≤ N)%Z →
  always_fails drv →
  printed_lines (trace (get_connection drv db w).2)
  = printed_lines (trace w) + (Z.to_nat N - 1).
Proof.
  intros E HN N1 AF.
  destruct (effective_config_inv _ _ _ _ E) as [-> E'].
  set (x := deref w1 (length (heap w))) in *.
  rewrite (get_connection_eq _ _ _ _ E'). cbv zeta. rewrite HN.
  change (default (VInt 3) (Some (VInt N))) with (VInt N).
  change (loop_fuel (VInt N)) with (S (Z.to_nat N)).
  pose proof (connect_loop_all_fail_lines drv (length (heap w)) N (popped x) AF
                (Z.to_nat N) (S (Z.to_nat N)) 0 None (loop_start x w)
                (loop_start_lookup x w)) as P.
  simpl trace in P at 2. rewrite <- P by lia.
  destruct (connect_loop _ _ _ _ _ _ _) as [[[|rc last]|e|] w']; try done.
  pose proof (diagnose_connection_world (length (heap w)) last w') as D.
  destruct (diagnose_connection _ _ _) as [[s|e|] w'']; simpl in D; by subst.
Qed.

Lemma get_connection_prints_between_attempts_witness :
  printed_lines
    (trace (get_connection (refusing "connection refused") None
              (boot no_environ None)).2) = 2.
Proof.
  apply (get_connection_prints_between_attempts (refusing "connection refused")
           None (boot no_environ None)
           (effective_config None (boot no_environ None)).2 1 3).
  - vm_compute. exact eq_refl.
  - vm_compute. exact eq_refl.
  - lia.
  - intros t p. by eexists.
Defined.

(** Where [get_connection] stands when the retries are exhausted: the
    last call was a failed [connect], and what remains is the
    diagnosis of its error. *)
Lemma get_connection_exhausted (drv : driver) (db : option loc)
    (w w1 : world) (l : loc) (N : Z) :
  effective_config db w = (Ret l, w1) →
  deref w1 l !! "connect_retry_count" = Some (VInt N) →
  (1 ≤ N)%Z →
  always_fails drv →
  ∃ w' t msg,
    trace w' = t ++ [Connect (popped (deref w1 l))]
    ∧ drv_connect drv t (popped (deref w1 l)) = Fail (Error msg)
    ∧ deref w' l = popped (deref w1 l)
    ∧ (get_connection drv db w).2 = w'
    ∧ (get_connection drv db w).1
      = match (diagnose_connection l (Some (Error msg)) w').1 with
        | Ret suffix =>
            Raise (Exception (connection_error_head N (Some (Error msg))
                              +:+ suffix))
        | Raise e => Raise e
        | OutOfFuel => OutOfFuel
        end.
Proof.
  intros E HN N1 AF.
  destruct (effective_config_inv _ _ _ _ E) as [-> E'].
  set (x := deref w1 (length (heap w))) in *.
  rewrite (get_connection_eq _ _ _ _ E'). cbv zeta. rewrite HN.
  change (default (VInt 3) (Some (VInt N))) with (VInt N).
  change (loop_fuel (VInt N)) with (S (Z.to_nat N)).
  destruct (connect_loop_all_fail drv (length (heap w)) N (popped x) AF
              (Z.to_nat N) (S (Z.to_nat N)) 0 None (loop_start x w))
    as (w' & last' & EL & G & A & L);
    [apply loop_start_lookup | lia | lia |].
  rewrite EL.
  destruct (Z.to_nat N) as [|n] eqn:EN; [lia|].
  destruct L as (t & msg & T & F & ->).
  exists w', t, msg.
  pose proof (diagnose_connection_world (length (heap w)) (Some (Error msg)) w')
    as DW.
  split; [done|]. split; [done|]. split.
  { unfold deref.
    by rewrite (grows_lookup _ _ _ _ _ G (loop_start_lookup x w)). }
  destruct (diagnose_connection _ _ _) as [[s|e|] w'']; simpl in DW; by subst.
Qed.

Lemma string_app_empty (s : string) : s +:+ EmptyString = s.
Proof.
  induction s as [|c s IH]; [done|].
  change (String c (s +:+ EmptyString) = String c s). by rewrite IH.
Qed.

(** X6: when the retries are exhausted and the lower-cased text of the
    last error contains "connection refused", the message ends with
    the host, the port and the timeout of the profile (10 when the
    profile has no timeout), whatever else the text contains. *)
Theorem get_connection_refused_hint (drv : driver) (db : option loc)
    (w w1 : world) (l : loc) (N : Z) (host port : value) :
  effective_config db w = (Ret l, w1) →
  deref w1 l !! "connect_retry_count" = Some (VInt N) →
  deref w1 l !! "host" = Some host →
  deref w1 l !! "port" = Some port →
  (1 ≤ N)%Z →
  always_fails drv →
  ∃ t p msg,
    trace (get_connection drv db w).2 = t ++ [Connect p]
    ∧ drv_connect drv t p = Fail (Error msg)
    ∧ (contains "connection refused" (lower msg) = true →
       (get_connection drv db w).1
       = Raise (Exception
                  (connection_error_head N (Some (Error msg))
                   +:+ refused_hint host port
                         (default (VInt 10) (deref w1 l !! "connect_timeout"))))).
Proof.
  intros E HN HH HP N1 AF.
  destruct (get_connection_exhausted drv db w w1 l N E HN N1 AF)
    as (w' & t & msg & T & F & D & -> & R).
  exists t, (popped (deref w1 l)), msg. split; [done|]. split; [done|].
  intros Href. rewrite R. unfold diagnose_connection.
  change (str_last_error (Some (Error msg))) with msg. rewrite Href. run.
  rewrite D, (popped_lookup_ne _ "host"), HH by done.
  rewrite D, (popped_lookup_ne _ "port"), HP by done. cbv beta iota zeta.
  by rewrite D, (popped_lookup_ne _ "connect_timeout") by done.
Qed.

Lemma get_connection_refused_hint_witness :
  (get_connection (refusing "Connection refused: is the server running?") None
     (boot no_environ None)).1
  = Raise (Exception
             (connection_error_head 3
                (Some (Error "Connection refused: is the server running?"))
              +:+ refused_hint (VStr "localhost") (VInt 5432) (VInt 10))).
Proof.
  destruct (get_connection_refused_hint
              (refusing "Connection refused: is the server running?") None
              (boot no_environ None)
              (effective_config None (boot no_environ None)).2 1 3
              (VStr "localhost") (VInt 5432))
    as (t & p & msg & T & F & H).
  - vm_compute. exact eq_refl.
  - vm_compute. exact eq_refl.
  - vm_compute. exact eq_refl.
  - vm_compute. exact eq_refl.
  - lia.
  - intros t p. by eexists.
  - simpl in F. injection F as <-.
    rewrite H; [|vm_compute; exact eq_refl]. vm_compute. exact eq_refl.
Defined.

(** X7: when the retries are exhausted and the lower-cased text of the
    last error contains neither "connection refused" nor "password
    authentication failed", the message ends with the name of the
    database if the text contains both "does not exist" and "database",
    and with the text of the error itself otherwise. *)
Theorem get_connection_database_hint (drv : driver) (db : option loc)
    (w w1 : world) (l : loc) (N : Z) (database : value) :
  effective_config db w = (Ret l, w1) →
  deref w1 l !! "connect_retry_count" = Some (VInt N) →
  deref w1 l !! "database" = Some database →
  (1 ≤ N)%Z →
  always_fails drv →
  ∃ t p msg,
    trace (get_connection drv db w).2 = t ++ [Connect p]
    ∧ drv_connect drv t p = Fail (Error msg)
    ∧ (contains "connection refused" (lower msg) = false →
       contains "password authentication failed" (lower msg) = false →
       (get_connection drv db w).1
       = Raise (Exception
                  (if contains "does not exist" (lower msg)
                      && contains "database" (lower msg)
                   then connection_error_head N (Some (Error msg))
                        +:+ database_hint database
                   else connection_error_head N (Some (Error msg))))).
Proof.
  intros E HN HD N1 AF.
  destruct (get_connection_exhausted drv db w w1 l N E HN N1 AF)
    as (w' & t & msg & T & F & D & -> & R).
  exists t, (popped (deref w1 l)), msg. split; [done|]. split; [done|].
  intros Href Hauth. rewrite R. unfold diagnose_connection.
  change (str_last_error (Some (Error msg))) with msg. rewrite Href, Hauth.
  destruct (contains "does not exist" (lower msg)
            && contains "database" (lower msg)).
  - run. rewrite D. by rewrite (popped_lookup_ne _ "database"), HD by done.
  - unfold mret, M_ret. cbn [fst]. by rewrite string_app_empty.
Qed.

Lemma get_connection_database_hint_witness :
  (get_connection (refusing "FATAL:  database shop does not exist") None
     (boot no_environ None)).1
  = Raise (Exception
             (connection_error_head 3
                (Some (Error "FATAL:  database shop does not exist"))
              +:+ database_hint (VStr "postgres"))).
Proof.
  destruct (get_connection_database_hint
              (refusing "FATAL:  database shop does not exist") None
              (boot no_environ None)
              (effective_config None (boot no_environ None)).2 1 3
              (VStr "postgres"))
    as (t & p & msg & T & F & H).
  - vm_compute. exact eq_refl.
  - vm_compute. exact eq_refl.
  - vm_compute. exact eq_refl.
  - lia.
  - intros t p. by eexists.
  - simpl in F. injection F as <-.
    rewrite H; [|vm_compute; exact eq_refl..]. vm_compute. exact eq_refl.
Defined.

(** ** execute_query on the failing paths *)

Lemma connect_loop_not_Error (drv : driver) (l : loc) (max_retries : value)
    (c : config) (fuel : nat) :
  ∀ (rc : Z) (last : option exn) (w : world) (msg : string),
    heap w !! l = Some c →
    (connect_loop drv fuel l max_retries rc last w).1 ≠ Raise (Error msg).
Proof.
  induction fuel as [|fuel IH]; intros rc last w msg H; [done|].
  rewrite (connect_loop_turn _ _ _ _ _ _ _ _ H).
  destruct (lt_value rc max_retries) as [[]|]; try done.
  destruct (drv_connect drv (trace w) c) as [[]|[]]; try done.
  destruct (lt_value (rc + 1) max_retries) as [[]|]; try done;
    apply IH; by apply lookup_app_l_Some.
Qed.

(** [get_connection] never raises a [psycopg2.Error]: it catches those
    of [connect] and raises a plain [Exception] in their place. *)
Lemma get_connection_not_Error (drv : driver) (db : option loc) (w : world)
    (msg : string) :
  (get_connection drv db w).1 ≠ Raise (Error msg).
Proof.
  destruct (effective_config_new db w) as (x & E & _).
  rewrite (get_connection_eq _ _ _ _ E). cbv zeta.
  pose proof (connect_loop_not_Error drv (length (heap w))
    (default (VInt 3) (x !! "connect_retry_count")) (popped x)
    (loop_fuel (default (VInt 3) (x !! "connect_retry_count"))) 0 None
    (loop_start x w) msg (loop_start_lookup x w)) as T.
  destruct (connect_loop _ _ _ _ _ _ _) as [[[|rc last]|e|] w'];
    [done | | intros [= ->]; by apply T | done].
  unfold diagnose_connection.
  destruct (contains "connection refused" _);
    [|destruct (contains "password authentication failed" _);
      [|destruct (contains "does not exist" _ && contains "database" _)]];
    run; repeat (destruct (deref w' _ !! _); simpl; try done);
    by intros [=].
Qed.

Lemma cleanup_unbound (drv : driver) (w : world) :
  local_conn w = false → cleanup drv w = (Ret (), w).
Proof. intros C. unfold cleanup. run. by rewrite C. Qed.

Lemma cleanup_closes (drv : driver) (w : world) :
  closes_quietly drv →
  local_conn w = true →
  local_cursor w = true →
  cleanup drv w = (Ret (), set_trace (trace w ++ closing drv (trace w)) w).
Proof.
  intros [CC CK] C K. unfold cleanup, closing. run. rewrite C.
  destruct (drv_closed drv (trace w)).
  - rewrite app_nil_r. by destruct w.
  - rewrite K, CC. simpl. rewrite CK. by rewrite <- app_assoc.
Qed.

(** X8: when no connection can be acquired, [execute_query] answers with
    the unknown-error dictionary that carries the text of the exception
    of [get_connection] and the statement; it calls nothing after
    [get_connection]: no cursor, no statement, no close. *)
Theorem execute_query_reports_connection_failure (drv : driver)
    (query : string) (params : option (list value)) (db : option loc)
    (w w1 : world) (e : exn) :
  query ≠ "" →
  get_connection drv db (set_locals false false w) = (Raise e, w1) →
  execute_query drv query params db w
  = (Ret (QueryFailure ("执行过程中发生未知错误: " +:+ str_exn e) query), w1).
Proof.
  intros Q G. unfold execute_query, enter.
  erewrite bind_Ret by reflexivity. rewrite (is_empty_false _ Q).
  unfold try_handler, bind_conn.
  destruct (get_connection_locals drv db (set_locals false false w)) as [C _].
  pose proof (get_connection_not_Error drv db (set_locals false false w)) as NE.
  rewrite G in C, NE. simpl in C, NE.
  unfold mbind at 1, M_bind at 1. unfold mbind at 1, M_bind at 1. rewrite G.
  unfold return_finally.
  destruct e; try (by erewrite bind_Ret by (by apply cleanup_unbound)).
  by destruct (NE msg).
Qed.

Lemma execute_query_reports_connection_failure_witness :
  ∃ w1,
    execute_query (refusing "timeout expired") "SELECT 1" None None
                  (boot no_environ None)
    = (Ret (QueryFailure
              ("执行过程中发生未知错误: "
               +:+ connection_error_head 3 (Some (Error "timeout expired")))
              "SELECT 1"), w1).
Proof.
  eexists.
  apply (execute_query_reports_connection_failure (refusing "timeout expired")
           "SELECT 1" None None (boot no_environ None) _
           (Exception (connection_error_head 3 (Some (Error "timeout expired"))))).
  - discriminate.
  - vm_compute. exact eq_refl.
Defined.

(** X9: when the driver rejects the statement with a [psycopg2.Error],
    [execute_query] commits nothing and fetches nothing: after the
    failed [execute] it only closes the cursor and the connection, and
    returns the classified error with the statement. *)
Theorem execute_query_statement_error (drv : driver) (query : string)
    (params : option (list value)) (db : option loc) (w w1 : world)
    (msg : string) :
  query ≠ "" →
  get_connection drv db (set_locals false false w) = (Ret (), w1) →
  drv_cursor drv (trace w1) = Ok () →
  drv_execute drv (trace w1 ++ [Cursor]) query (default [] params)
  = Fail (Error msg) →
  closes_quietly drv →
  let steps := [Cursor; Execute query (default [] params)] in
  ∃ w',
    execute_query drv query params db w = (Ret (execute_query_error query msg), w')
    ∧ trace w' = trace w1 ++ steps ++ closing drv (trace w1 ++ steps).
Proof.
  intros Q G K X CQ. cbv zeta. unfold execute_query, enter.
  erewrite bind_Ret by reflexivity. rewrite (is_empty_false _ Q).
  unfold try_handler.
  erewrite bind_Ret by (by apply bind_conn_Ret).
  erewrite bind_Ret by (by apply bind_cursor_Ret).
  erewrite bind_Raise by (apply call_Fail; exact X).
  unfold return_finally.
  erewrite bind_Ret by (by apply cleanup_closes).
  eexists. split; [reflexivity|]. simpl. by rewrite <- !app_assoc.
Qed.

Lemma execute_query_statement_error_witness :
  ∃ w',
    execute_query (rejecting "relation foo does not exist") "DELETE FROM foo"
                  None None (boot no_environ None)
    = (Ret (QueryFailure
              ("执行查询失败: relation foo does not exist" +:+ NL
               +:+ "原因：查询的表不存在") "DELETE FROM foo"), w')
    ∧ trace w'
      = trace (get_connection (rejecting "relation foo does not exist") None
                 (boot no_environ None)).2
        ++ [Cursor; Execute "DELETE FROM foo" []; CursorClose; ConnClose].
Proof.
  destruct (execute_query_statement_error
              (rejecting "relation foo does not exist") "DELETE FROM foo"
              None None (boot no_environ None)
              (get_connection (rejecting "relation foo does not exist") None
                 (boot no_environ None)).2
              "relation foo does not exist") as (w' & E & T).
  - discriminate.
  - vm_compute. exact eq_refl.
  - exact eq_refl.
  - exact eq_refl.
  - split; intros t; exact eq_refl.
  - exists w'. split; [exact E | exact T].
Defined.

(** ** Arguments turned down before any connection *)

(** X17: [insert_data] with an empty table name, with no data, or with a
    list in which some element is not a dictionary returns an error
    dictionary and touches neither the store nor the driver. *)
Theorem insert_data_validates_first (drv : driver) (table_name : string)
    (data : insert_payload) (schema_name : string) (db : option loc)
    (w : world) :
  table_name = EmptyString
  ∨ data = Single [] ∨ data = Many []
  ∨ (∃ l, data = Many l ∧ forallb is_dict l = false) →
  ∃ msg,
    insert_data drv table_name data schema_name db w
    = (Ret (Failure msg), set_locals false false w)
    ∧ msg ∈ ["表名不能为空"; "插入数据不能为空";
             "数据格式错误，应为字典或字典列表"].
Proof.
  intros H. unfold insert_data, enter. erewrite bind_Ret by reflexivity.
  destruct (is_empty table_name) eqn:T.
  { eexists. split; [reflexivity | apply list_elem_of_here]. }
  destruct H as [-> | [-> | [-> | (l & -> & F)]]]; try done;
    try (eexists; split;
         [reflexivity | apply list_elem_of_further, list_elem_of_here]).
  destruct l as [|x l];
    [eexists; split;
     [reflexivity | apply list_elem_of_further, list_elem_of_here]|].
  rewrite F. eexists. split; [reflexivity|].
  do 2 apply list_elem_of_further. apply list_elem_of_here.
Qed.

Lemma insert_data_validates_first_witness :
  ∃ msg,
    insert_data accepting "users"
      (Many [ItemDict [("name", VStr "Ann")]; ItemValue (VStr "Bob")])
      "public" None (boot no_environ None)
    = (Ret (Failure msg), set_locals false false (boot no_environ None)).
Proof.
  destruct (insert_data_validates_first accepting "users"
              (Many [ItemDict [("name", VStr "Ann")]; ItemValue (VStr "Bob")])
              "public" None (boot no_environ None)) as (msg & E & _).
  - right. right. right. eexists. split; [reflexivity | exact eq_refl].
  - exists msg. exact E.
Defined.

(** ** create_table *)

Lemma columns_loop_complete (columns : list item) :
  ∀ (column_defs : list string) (primary_keys : list value) (w : world),
    forallb complete_column columns = true →
    columns_loop columns column_defs primary_keys w
    = (Ret (Built (column_defs ++ ((λ x, column_def (as_record x)) <$> columns))
                  (primary_keys ++ primary_key_names columns)), w).
Proof.
  induction columns as [|col columns IH]; intros cd pk w H.
  - simpl. unfold primary_key_names. simpl. by rewrite !app_nil_r.
  - simpl in H. apply andb_prop in H as [Hc Hs].
    destruct col as [d|v]; [|done]. simpl in Hc.
    apply andb_prop in Hc as [Hn Ht].
    apply negb_true_iff in Hn, Ht.
    simpl columns_loop. run. rewrite Hn, Ht.
    rewrite (IH _ _ _ Hs). unfold column_def, primary_key_names. simpl.
    destruct (falsy (record_get d "primary_key")); simpl;
      by rewrite <- !app_assoc.
Qed.

Lemma columns_loop_incomplete (columns : list item) :
  ∀ (column_defs : list string) (primary_keys : list value) (w : world),
    forallb complete_column columns = false →
    ∃ out, columns_loop columns column_defs primary_keys w = (out, w)
           ∧ (out = Ret Rejected ∨ ∃ msg, out = Raise (Exception msg)).
Proof.
  induction columns as [|col columns IH]; intros cd pk w H; [done|].
  simpl in H. destruct (complete_column col) eqn:C.
  - simpl in H. destruct col as [d|v]; [|done]. simpl in C.
    apply andb_prop in C as [Hn Ht]. apply negb_true_iff in Hn, Ht.
    simpl columns_loop. run. rewrite Hn, Ht. by apply IH.
  - destruct col as [d|v].
    + simpl in C. simpl columns_loop. run.
      destruct (falsy (record_get d "name")); [eexists; split; [done | by left]|].
      destruct (falsy (record_get d "type")); [eexists; split; [done | by left]|].
      done.
    + simpl columns_loop. run. eexists. split; [done|]. right. by eexists.
Qed.

(** X15: when some element of [columns] is not a dictionary with a
    non-empty name and type, [create_table] returns an error dictionary
    and touches neither the store nor the driver: nothing is created
    from a partly valid definition. *)
Theorem create_table_rejects_incomplete_columns (drv : driver)
    (table_name : string) (columns : list item) (schema_name : string)
    (if_not_exists : bool) (db : option loc) (w : world) :
  forallb complete_column columns = false →
  ∃ msg,
    create_table drv table_name columns schema_name if_not_exists db w
    = (Ret (CatalogueFailure msg), set_locals false false w).
Proof.
  intros H. unfold create_table, enter. erewrite bind_Ret by reflexivity.
  destruct (is_empty table_name); [by eexists|].
  destruct columns as [|col columns]; [done|].
  unfold try_except_finally, finally_return.
  destruct (columns_loop_incomplete (col :: columns) [] []
              (set_locals false false w) H) as (out & E & [-> | [msg ->]]).
  - rewrite (bind_Ret _ _ _ _ _ E). unfold mret at 1, M_ret at 1.
    erewrite bind_Ret by (by apply cleanup_unbound). by eexists.
  - rewrite (bind_Raise _ _ _ _ _ E).
    erewrite bind_Ret by (by apply cleanup_unbound). by eexists.
Qed.

Lemma create_table_rejects_incomplete_columns_witness :
  create_table accepting "users"
    [ItemDict [("name", VStr "id"); ("type", VStr "serial")];
     ItemDict [("name", VStr "email")]]
    "public" true None (boot no_environ None)
  = (Ret (CatalogueFailure "每个列定义必须包含name和type字段"),
     set_locals false false (boot no_environ None)).
Proof.
  destruct (create_table_rejects_incomplete_columns accepting "users"
              [ItemDict [("name", VStr "id"); ("type", VStr "serial")];
               ItemDict [("name", VStr "email")]]
              "public" true None (boot no_environ None)) as (msg & E).
  - exact eq_refl.
  - rewrite E. vm_compute in E. injection E as <-. exact eq_refl.
Defined.

Lemma join_values_texts (sep : string) (names : list string) :
  ∀ (i : nat) (w : world),
    join_values sep i (VStr <$> names) w = (Ret (join sep names), w).
Proof.
  induction names as [|s names IH]; intros i w; [done|].
  destruct names as [|s' names]; [done|].
  change (VStr <$> s :: s' :: names) with (VStr s :: (VStr <$> s' :: names)).
  simpl join_values.
  change (VStr s' :: (VStr <$> names)) with (VStr <$> s' :: names).
  by rewrite (bind_Ret _ _ _ _ _ (IH (S i) w)).
Qed.

(** X16: for complete column definitions whose primary-key names are
    texts, with the connection acquired and the calls made for the
    statement succeeding, [create_table] executes one statement and
    commits: the
    columns in their order, each with its type, [NOT NULL] exactly when
    [nullable] is [False] and [DEFAULT] exactly when the key [default]
    is present, then one [PRIMARY KEY] clause with the flagged names if
    there is any. *)
Theorem create_table_executes_statement (drv : driver) (table_name : string)
    (columns : list item) (names : list string) (schema_name : string)
    (if_not_exists : bool) (db : option loc) (w w1 : world) :
  table_name ≠ EmptyString →
  columns ≠ [] →
  forallb complete_column columns = true →
  primary_key_names columns = VStr <$> names →
  get_connection drv db (set_locals false false w) = (Ret (), w1) →
  let sql := create_statement table_name schema_name if_not_exists columns
                              names in
  let steps := [Cursor; Execute sql []; Commit] in
  drv_cursor drv (trace w1) = Ok () →
  drv_execute drv (trace w1 ++ [Cursor]) sql [] = Ok () →
  drv_commit drv (trace w1 ++ [Cursor; Execute sql []]) = Ok () →
  closes_after drv (trace w1 ++ steps) →
  ∃ w',
    create_table drv table_name columns schema_name if_not_exists db w
    = (Ret (Created ("表 " +:+ schema_name +:+ "." +:+ table_name
                     +:+ " 创建成功")), w')
    ∧ trace w' = trace w1 ++ steps ++ closing drv (trace w1 ++ steps).
Proof.
  intros T C F P G. cbv zeta. unfold create_statement.
  intros K X Cm Q. unfold create_table, enter.
  erewrite bind_Ret by reflexivity. rewrite (is_empty_false _ T).
  destruct columns as [|col columns]; [done|].
  set (cols := col :: columns) in *.
  unfold try_except_finally, finally_return.
  erewrite bind_Ret by (by apply columns_loop_complete).
  simpl app. rewrite P.
  assert (J : (match VStr <$> names with
               | [] => mret ((λ x, column_def (as_record x)) <$> cols)
               | _ :: _ =>
                   joined ← join_values ", " 0 (VStr <$> names);
                   mret (((λ x, column_def (as_record x)) <$> cols)
                         ++ ["PRIMARY KEY (" +:+ joined +:+ ")"])
               end : M (list string)) (set_locals false false w)
              = (Ret (((λ x, column_def (as_record x)) <$> cols)
                      ++ match names with
                         | [] => []
                         | _ => ["PRIMARY KEY (" +:+ join ", " names +:+ ")"]
                         end), set_locals false false w)).
  { destruct names as [|s names]; [by rewrite app_nil_r|].
    change (VStr <$> s :: names) with (VStr s :: (VStr <$> names)). cbv iota.
    change (VStr s :: (VStr <$> names)) with (VStr <$> s :: names).
    by rewrite (bind_Ret _ _ _ _ _ (join_values_texts ", " (s :: names) 0 _)). }
  rewrite (bind_Ret _ _ _ _ _ J).
  erewrite bind_Ret by (by apply bind_conn_Ret).
  erewrite bind_Ret by (by apply bind_cursor_Ret).
  erewrite bind_Ret by (apply call_Ok; exact X).
  erewrite bind_Ret
    by (apply call_Ok; cbn [trace set_trace set_locals];
        rewrite <- app_assoc; exact Cm).
  unfold mret at 1, M_ret at 1.
  erewrite bind_Ret
    by (apply cleanup_closing;
        [cbn [trace set_trace set_locals]; rewrite <- !app_assoc; exact Q
        | done | done]).
  eexists. split; [reflexivity|].
  cbn [trace set_trace set_locals]. by rewrite <- !app_assoc.
Qed.

Lemma create_table_executes_statement_witness :
  ∃ w',
    create_table accepting "users"
      [ItemDict [("name", VStr "id"); ("type", VStr "serial");
                 ("primary_key", VBool true)];
       ItemDict [("name", VStr "email"); ("type", VStr "text");
                 ("nullable", VBool false); ("default", VStr "'none'")]]
      "public" true None (boot no_environ None)
    = (Ret (Created "表 public.users 创建成功"), w')
    ∧ trace w'
      = trace (get_connection accepting None (boot no_environ None)).2
        ++ [Cursor;
            Execute "CREATE TABLE IF NOT EXISTS public.users (id serial, email text NOT NULL DEFAULT 'none', PRIMARY KEY (id))" [];
            Commit; CursorClose; ConnClose].
Proof.
  destruct (create_table_executes_statement accepting "users"
              [ItemDict [("name", VStr "id"); ("type", VStr "serial");
                         ("primary_key", VBool true)];
               ItemDict [("name", VStr "email"); ("type", VStr "text");
                         ("nullable", VBool false); ("default", VStr "'none'")]]
              ["id"] "public" true None (boot no_environ None)
              (get_connection accepting None (boot no_environ None)).2)
    as (w' & E & T).
  - discriminate.
  - discriminate.
  - exact eq_refl.
  - exact eq_refl.
  - vm_compute. exact eq_refl.
  - exact eq_refl.
  - exact eq_refl.
  - exact eq_refl.
  - intros _. split; exact eq_refl.
  - exists w'. split; [exact E | exact T].
Defined.

(** ** list_tables and describe_table when the statements go through *)

Lemma comprehension_row_first (rows : list record) (w : world) :
  Forall (λ row, row ≠ []) rows →
  comprehension row_first rows w = (Ret (first_values rows), w).
Proof.
  induction 1 as [|row rows Hr _ IH]; [done|].
  simpl comprehension.
  destruct row as [|[k v] row]; [done|].
  assert (R : row_first ((k, v) :: row) w = (Ret v, w)) by done.
  by rewrite (bind_Ret _ _ _ _ _ R), (bind_Ret _ _ _ _ _ IH).
Qed.

Lemma comprehension_row_item (rows : list record) (w : world) :
  Forall (λ row, is_Some (record_lookup row "column_name")) rows →
  comprehension (row_item "column_name") rows w = (Ret (column_names rows), w).
Proof.
  induction 1 as [|row rows [v Hv] _ IH]; [done|].
  simpl comprehension.
  assert (R : row_item "column_name" row w = (Ret v, w))
    by (unfold row_item; by rewrite Hv).
  rewrite (bind_Ret _ _ _ _ _ R), (bind_Ret _ _ _ _ _ IH).
  unfold column_names. simpl. by rewrite Hv.
Qed.

(** X12: with the connection acquired and the calls made for the
    statement succeeding, [list_tables] executes its one statement with
    the schema name as the only bound parameter, and returns the first
    value of every fetched row, in the order fetched, with their number
    as [count]. *)
Theorem list_tables_returns_first_column (drv : driver) (schema_name : string)
    (db : option loc) (w w1 : world) (rows : list record) :
  get_connection drv db (set_locals false false w) = (Ret (), w1) →
  let query := Execute list_tables_sql [VStr schema_name] in
  drv_cursor drv (trace w1) = Ok () →
  drv_execute drv (trace w1 ++ [Cursor]) list_tables_sql [VStr schema_name]
  = Ok () →
  drv_fetchall drv (trace w1 ++ [Cursor; query]) = Ok rows →
  closes_after drv (trace w1 ++ [Cursor; query; Fetchall]) →
  Forall (λ row, row ≠ []) rows →
  ∃ w',
    list_tables drv schema_name db w
    = (Ret (Tables schema_name (first_values rows) (Z.of_nat (length rows))),
       w')
    ∧ trace w' = trace w1 ++ [Cursor; query; Fetchall]
                 ++ closing drv (trace w1 ++ [Cursor; query; Fetchall]).
Proof.
  intros G query K X F Q NE. unfold list_tables, enter.
  erewrite bind_Ret by reflexivity.
  unfold try_except_finally, finally_return.
  erewrite bind_Ret by (by apply bind_conn_Ret).
  erewrite bind_Ret by (by apply bind_cursor_Ret).
  erewrite bind_Ret by (apply call_Ok; exact X).
  erewrite bind_Ret
    by (apply call_Ok; cbn [trace set_trace set_locals];
        rewrite <- app_assoc; exact F).
  erewrite bind_Ret by (by apply comprehension_row_first).
  unfold mret at 1, M_ret at 1.
  erewrite bind_Ret
    by (apply cleanup_closing;
        [cbn [trace set_trace set_locals]; rewrite <- !app_assoc; exact Q
        | done | done]).
  eexists. unfold first_values. rewrite length_fmap.
  split; [reflexivity|]. cbn [trace set_trace set_locals].
  by rewrite <- !app_assoc.
Qed.

Lemma list_tables_returns_first_column_witness :
  ∃ w',
    list_tables
      (serving [[("table_name", VStr "orders")]; [("table_name", VStr "users")]] [])
      "public" None (boot no_environ None)
    = (Ret (Tables "public" [VStr "orders"; VStr "users"] 2), w').
Proof.
  destruct (list_tables_returns_first_column
              (serving [[("table_name", VStr "orders")];
                        [("table_name", VStr "users")]] [])
              "public" None (boot no_environ None)
              (get_connection
                 (serving [[("table_name", VStr "orders")];
                           [("table_name", VStr "users")]] [])
                 None (boot no_environ None)).2
              [[("table_name", VStr "orders")]; [("table_name", VStr "users")]])
    as (w' & E & _).
  - vm_compute. exact eq_refl.
  - exact eq_refl.
  - exact eq_refl.
  - vm_compute. exact eq_refl.
  - intros _. split; exact eq_refl.
  - repeat (apply Forall_cons; split; [discriminate|]). apply Forall_nil_2.
  - exists w'. exact E.
Defined.

(** X13: with the connection acquired and the calls made for the two
    statements succeeding,
    [describe_table] executes two statements on one cursor: the column
    query with the schema and the table as bound parameters, then the
    primary-key query with the text [schema.table]; it returns the rows
    of the first as [columns] and the [column_name] of every row of the
    second as [primary_keys]. *)
Theorem describe_table_runs_two_statements (drv : driver)
    (table_name schema_name : string) (db : option loc) (w w1 : world)
    (columns keys_rows : list record) :
  table_name ≠ EmptyString →
  get_connection drv db (set_locals false false w) = (Ret (), w1) →
  let q1 := Execute describe_columns_sql [VStr schema_name; VStr table_name] in
  let q2 := Execute describe_primary_key_sql
                    [VStr (schema_name +:+ "." +:+ table_name)] in
  let steps := [Cursor; q1; Fetchall; q2; Fetchall] in
  drv_cursor drv (trace w1) = Ok () →
  drv_execute drv (trace w1 ++ [Cursor]) describe_columns_sql
              [VStr schema_name; VStr table_name] = Ok () →
  drv_fetchall drv (trace w1 ++ [Cursor; q1]) = Ok columns →
  drv_execute drv (trace w1 ++ [Cursor; q1; Fetchall]) describe_primary_key_sql
              [VStr (schema_name +:+ "." +:+ table_name)] = Ok () →
  drv_fetchall drv (trace w1 ++ [Cursor; q1; Fetchall; q2]) = Ok keys_rows →
  closes_after drv (trace w1 ++ steps) →
  Forall (λ row, is_Some (record_lookup row "column_name")) keys_rows →
  ∃ w',
    describe_table drv table_name schema_name db w
    = (Ret (TableDescription table_name schema_name columns
                             (column_names keys_rows)), w')
    ∧ trace w' = trace w1 ++ steps ++ closing drv (trace w1 ++ steps).
Proof.
  intros T G q1 q2 steps C X1 F1 X2 F2 Q K. unfold describe_table, enter.
  erewrite bind_Ret by reflexivity. rewrite (is_empty_false _ T).
  unfold try_except_finally, finally_return.
  erewrite bind_Ret by (by apply bind_conn_Ret).
  erewrite bind_Ret by (by apply bind_cursor_Ret).
  erewrite bind_Ret by (apply call_Ok; exact X1).
  erewrite bind_Ret
    by (apply call_Ok; cbn [trace set_trace set_locals];
        rewrite <- app_assoc; exact F1).
  erewrite bind_Ret
    by (apply call_Ok; cbn [trace set_trace set_locals];
        rewrite <- !app_assoc; exact X2).
  erewrite bind_Ret
    by (apply call_Ok; cbn [trace set_trace set_locals];
        rewrite <- !app_assoc; exact F2).
  erewrite bind_Ret by (by apply comprehension_row_item).
  unfold mret at 1, M_ret at 1.
  erewrite bind_Ret
    by (apply cleanup_closing;
        [cbn [trace set_trace set_locals]; rewrite <- !app_assoc; exact Q
        | done | done]).
  eexists. split; [reflexivity|]. cbn [trace set_trace set_locals].
  by rewrite <- !app_assoc.
Qed.

Lemma describe_table_runs_two_statements_witness :
  ∃ w',
    describe_table
      (serving [[("column_name", VStr "id"); ("data_type", VStr "integer")]]
               [[("column_name", VStr "id")]])
      "users" "public" None (boot no_environ None)
    = (Ret (TableDescription "users" "public"
              [[("column_name", VStr "id"); ("data_type", VStr "integer")]]
              [VStr "id"]), w').
Proof.
  destruct (describe_table_runs_two_statements
              (serving [[("column_name", VStr "id"); ("data_type", VStr "integer")]]
                       [[("column_name", VStr "id")]])
              "users" "public" None (boot no_environ None)
              (get_connection
                 (serving [[("column_name", VStr "id");
                            ("data_type", VStr "integer")]]
                          [[("column_name", VStr "id")]])
                 None (boot no_environ None)).2
              [[("column_name", VStr "id"); ("data_type", VStr "integer")]]
              [[("column_name", VStr "id")]])
    as (w' & E & _).
  - discriminate.
  - vm_compute. exact eq_refl.
  - exact eq_refl.
  - exact eq_refl.
  - vm_compute. exact eq_refl.
  - exact eq_refl.
  - vm_compute. exact eq_refl.
  - intros _. split; exact eq_refl.
  - apply Forall_cons; split; [by eexists | apply Forall_nil_2].
  - exists w'. exact E.
Defined.

(** ** The diagnoses of update_data and insert_data *)

Lemma string_app_cons (c : ascii) (s t : string) :
  String c s +:+ t = String c (s +:+ t).
Proof. done. Qed.

Lemma string_app_inj (s a b : string) : s +:+ a = s +:+ b → a = b.
Proof.
  induction s as [|c s IH]; [done|]. rewrite !string_app_cons.
  intros [= H]. by apply IH.
Qed.

Lemma string_app_length (s t : string) :
  String.length (s +:+ t) = String.length s + String.length t.
Proof.
  induction s as [|c s IH]; [done|]. rewrite string_app_cons. simpl.
  by rewrite IH.
Qed.

Lemma string_app_longer (s : string) (c : ascii) (t : string) :
  s ≠ s +:+ String c t.
Proof.
  intros H. apply (f_equal String.length) in H.
  rewrite string_app_length in H. simpl in H. lia.
Qed.

(** X18: [update_data] and [insert_data] never attach their
    unknown-column diagnosis to an error: the test for "does not exist"
    that comes first already takes every text the column test could
    take, and reports the table as missing. *)
Theorem column_diagnosis_is_never_given (table_name schema_name e : string) :
  update_data_error table_name schema_name e
  ≠ Failure (("更新数据失败: " +:+ e) +:+ NL +:+ "原因：尝试更新不存在的列")
  ∧ insert_data_error table_name schema_name e
    ≠ Failure (("插入数据失败: " +:+ e) +:+ NL +:+ "原因：表中不存在指定的列")
  ∧ (contains "does not exist" (lower e) = true →
     update_data_error table_name schema_name e
     = Failure (("更新数据失败: " +:+ e) +:+ NL +:+ "原因：表 " +:+ schema_name
                +:+ "." +:+ table_name +:+ " 不存在")
     ∧ insert_data_error table_name schema_name e
       = Failure (("插入数据失败: " +:+ e) +:+ NL +:+ "原因：表 " +:+ schema_name
                  +:+ "." +:+ table_name +:+ " 不存在")).
Proof.
  unfold update_data_error, insert_data_error. split_and!.
  - destruct (contains "does not exist" (lower e)).
    + intros [= H]. apply string_app_inj in H. vm_compute in H. discriminate H.
    + rewrite andb_false_r.
      destruct (contains "syntax error" (lower e)); intros [= H].
      * apply string_app_inj in H. vm_compute in H. discriminate H.
      * by apply string_app_longer in H.
  - destruct (contains "does not exist" (lower e)).
    + intros [= H]. apply string_app_inj in H. vm_compute in H. discriminate H.
    + rewrite andb_false_r.
      destruct (contains "violates" (lower e) && contains "constraint" (lower e));
        intros [= H].
      * apply string_app_inj in H. vm_compute in H. discriminate H.
      * by apply string_app_longer in H.
  - intros ->. done.
Qed.

Lemma column_diagnosis_is_never_given_witness :
  update_data_error "users" "public" "column nick does not exist"
  = Failure (("更新数据失败: " +:+ "column nick does not exist") +:+ NL
             +:+ "原因：表 " +:+ "public" +:+ "." +:+ "users" +:+ " 不存在").
Proof.
  destruct (column_diagnosis_is_never_given "users" "public"
              "column nick does not exist") as (_ & _ & H).
  apply H. vm_compute. exact eq_refl.
Defined.

(** ** The classification of a statement *)

(** One step of the decoder. *)
Lemma decode_cons (more : nat) (acc floor : N) (b : ascii) (s : string) :
  decode more acc floor (String b s)
  = let n := N_of_ascii b in
    if is_continuation n then
      match more with
      | 0 => 0xFFFD%N :: decode 0 0 0 s
      | 1 => finish (acc * 64 + n mod 64) floor :: decode 0 0 0 s
      | S k => decode k (acc * 64 + n mod 64) floor s
      end
    else
      match more with 0 => [] | _ => [0xFFFD%N] end
      ++ (if (n <? 0x80)%N then n :: decode 0 0 0 s
          else if (n <? 0xE0)%N then decode 1 (n mod 32) 0x80 s
          else if (n <? 0xF0)%N then decode 2 (n mod 16) 0x800 s
          else decode 3 (n mod 8) 0x10000 s).
Proof. done. Qed.

Lemma decode_idle (acc floor : N) (s : string) :
  decode 0 acc floor s = code_points s.
Proof. by destruct s. Qed.

(** After bytes that read without a replacement, the decoder starts
    afresh. *)
Lemma decode_app_clean (b s : string) :
  ∀ (more : nat) (acc floor : N),
    0xFFFD%N ∉ decode more acc floor b →
    decode more acc floor (b +:+ s) = decode more acc floor b ++ code_points s.
Proof.
  induction b as [|c b IH]; intros more acc floor H.
  - destruct more; [apply decode_idle|]. exfalso. apply H. by left.
  - rewrite string_app_cons, !decode_cons. rewrite decode_cons in H.
    cbv zeta in *.
    destruct (is_continuation (N_of_ascii c)).
    + destruct more as [|[|k]].
      * apply not_elem_of_cons in H as [_ H]. by rewrite IH.
      * apply not_elem_of_cons in H as [_ H]. by rewrite IH.
      * by apply IH.
    + assert (E : more = 0).
      { destruct more; [done|]. exfalso. apply H. by left. }
      subst more. simpl in *.
      destruct (N_of_ascii c <? 128)%N.
      * apply not_elem_of_cons in H as [_ H]. by rewrite IH.
      * destruct (N_of_ascii c <? 224)%N; [by apply IH|].
        destruct (N_of_ascii c <? 240)%N; by apply IH.
Qed.

(** Nor does it matter where the bytes before a character's first byte
    stop. *)
Lemma decode_app_start (q s : string) :
  (∀ c s', s = String c s' → is_continuation (N_of_ascii c) = false) →
  ∀ (more : nat) (acc floor : N),
    decode more acc floor (q +:+ s) = decode more acc floor q ++ code_points s.
Proof.
  intros S. induction q as [|c q IH]; intros more acc floor.
  - change (EmptyString +:+ s) with s.
    destruct s as [|b s]; [by rewrite app_nil_r|].
    unfold code_points. rewrite !decode_cons. cbv zeta.
    rewrite (S b s eq_refl). by destruct more.
  - rewrite string_app_cons, !decode_cons. cbv zeta.
    destruct (is_continuation (N_of_ascii c)).
    + destruct more as [|[|k]]; by rewrite ?IH.
    + rewrite <- app_assoc. f_equal.
      destruct (N_of_ascii c <? 128)%N; [by rewrite IH|].
      destruct (N_of_ascii c <? 224)%N; [by apply IH|].
      destruct (N_of_ascii c <? 240)%N; by apply IH.
Qed.

Lemma blank_clean (s : string) : blank s = true → 0xFFFD%N ∉ code_points s.
Proof.
  unfold blank. intros B H. apply list_elem_of_In in H.
  by apply (proj1 (forallb_forall _ _) B) in H.
Qed.

Lemma blank_start (s : string) (c : ascii) (s' : string) :
  blank s = true → s = String c s' → is_continuation (N_of_ascii c) = false.
Proof.
  intros B ->. unfold blank, code_points in B. rewrite decode_cons in B.
  cbv zeta in B. by destruct (is_continuation (N_of_ascii c)).
Qed.

Lemma code_points_blanks (before query after : string) :
  blank before = true →
  blank after = true →
  code_points (before +:+ query +:+ after)
  = code_points before ++ code_points query ++ code_points after.
Proof.
  intros B A. unfold code_points at 1.
  rewrite decode_app_clean by (by apply blank_clean).
  f_equal. apply decode_app_start. intros c s'. by apply blank_start.
Qed.

Lemma lstrip_blank (b l : text) :
  forallb is_space b = true → lstrip (b ++ l) = lstrip l.
Proof.
  induction b as [|p b IH]; [done|]. simpl.
  intros H. apply andb_prop in H as [-> H]. by apply IH.
Qed.

Lemma rstrip_blank_only (b : text) : forallb is_space b = true → rstrip b = [].
Proof.
  induction b as [|p b IH]; [done|]. simpl.
  intros H. apply andb_prop in H as [-> H]. by rewrite IH.
Qed.

Lemma rstrip_blank (l b : text) :
  forallb is_space b = true → rstrip (l ++ b) = rstrip l.
Proof.
  intros H. induction l as [|p l IH]; [by apply rstrip_blank_only|].
  simpl. by rewrite IH.
Qed.

Lemma lstrip_app_nonblank (l t : text) :
  lstrip l ≠ [] → lstrip (l ++ t) = lstrip l ++ t.
Proof.
  induction l as [|p l IH]; [done|]. simpl.
  by destruct (is_space p).
Qed.

Lemma lstrip_nil_blank (l : text) : lstrip l = [] → forallb is_space l = true.
Proof.
  induction l as [|p l IH]; [done|]. simpl.
  destruct (is_space p); [exact IH | done].
Qed.

Lemma lstrip_keeps_blank (l : text) :
  forallb is_space l = true → forallb is_space (lstrip l) = true.
Proof.
  induction l as [|p l IH]; [done|]. simpl.
  intros H. apply andb_prop in H as [-> H]. by apply IH.
Qed.

Lemma strip_blanks (b l a : text) :
  forallb is_space b = true →
  forallb is_space a = true →
  strip (b ++ l ++ a) = strip l.
Proof.
  intros B A. unfold strip. rewrite lstrip_blank by done.
  destruct (lstrip l) as [|p s] eqn:L.
  - apply lstrip_nil_blank in L.
    rewrite (lstrip_blank l a L). simpl.
    by rewrite rstrip_blank_only by (by apply lstrip_keeps_blank).
  - rewrite lstrip_app_nonblank by (by rewrite L). rewrite L.
    by rewrite rstrip_blank.
Qed.

(** Every character below 128 is in the list of the 128 first ones. *)
Lemma below_128 (check : N → bool) :
  forallb check (N.of_nat <$> seq 0 128) = true →
  ∀ p, (p < 128)%N → check p = true.
Proof.
  intros H p Hp. apply (proj1 (forallb_forall _ _) H).
  apply list_elem_of_In, list_elem_of_fmap. exists (N.to_nat p).
  split; [by rewrite N2Nat.id|]. apply elem_of_seq. lia.
Qed.

Lemma lower_point_high (p : N) : (128 ≤ p)%N → lower_point p = p.
Proof.
  intros H. unfold lower_point.
  destruct (N.leb_spec p 90); [lia|]. by rewrite andb_false_r.
Qed.

Lemma lower_point_low (p : N) : (p < 128)%N → (lower_point p < 128)%N.
Proof.
  intros H. unfold lower_point.
  destruct ((65 <=? p) && (p <=? 90))%N eqn:E; [|done].
  apply andb_prop in E as [_ E]. apply N.leb_le in E. lia.
Qed.

Lemma upper_lower_point (p : N) : upper_point (lower_point p) = upper_point p.
Proof.
  destruct (N.lt_ge_cases p 128) as [H|H]; [|by rewrite lower_point_high].
  apply (below_128
           (λ p, bool_decide (upper_point (lower_point p) = upper_point p)))
    in H; [by apply bool_decide_eq_true in H|].
  vm_compute. exact eq_refl.
Qed.

Lemma is_space_lower_point (p : N) : is_space (lower_point p) = is_space p.
Proof.
  destruct (N.lt_ge_cases p 128) as [H|H]; [|by rewrite lower_point_high].
  apply (below_128
           (λ p, bool_decide (is_space (lower_point p) = is_space p)))
    in H; [by apply bool_decide_eq_true in H|].
  vm_compute. exact eq_refl.
Qed.

(** What [lower_char] does to a byte, seen from its number. *)
Lemma lower_char_byte (c : ascii) :
  N_of_ascii (lower_char c) = lower_point (N_of_ascii c)
  ∧ ((N_of_ascii c <? 128)%N = false → lower_char c = c).
Proof. by destruct c as [[] [] [] [] [] [] [] []]. Qed.

Lemma finish_high (acc floor : N) :
  (128 ≤ floor)%N → (128 ≤ finish acc floor)%N.
Proof. intros H. unfold finish. destruct (N.ltb_spec acc floor); lia. Qed.

(** The characters of a text whose ASCII capital letters are made
    small. *)
Lemma decode_lower (s : string) :
  ∀ (more : nat) (acc floor : N),
    (more ≠ 0 → (128 ≤ floor)%N) →
    decode more acc floor (lower s) = lower_point <$> decode more acc floor s.
Proof.
  unfold lower.
  induction s as [|c s IH]; intros more acc floor F.
  - destruct more; [done|]. simpl. by rewrite lower_point_high.
  - simpl map_chars. rewrite !decode_cons. cbv zeta.
    destruct (lower_char_byte c) as [B1 B2].
    destruct (N.ltb_spec (N_of_ascii c) 128) as [L|L].
    + rewrite B1.
      assert (L' := lower_point_low _ L).
      assert (C : ∀ n, (n < 128)%N → is_continuation n = false).
      { intros n Hn. unfold is_continuation.
        by destruct (N.leb_spec 128 n); [lia|]. }
      rewrite !C by done.
      destruct (N.ltb_spec (lower_point (N_of_ascii c)) 128); [|lia].
      destruct (N.ltb_spec (N_of_ascii c) 128); [|lia].
      rewrite fmap_app, fmap_cons. rewrite IH by done.
      f_equal. destruct more; [done|]. simpl. by rewrite lower_point_high.
    + rewrite (B2 ltac:(lia)).
      destruct (is_continuation (N_of_ascii c)).
      * destruct more as [|[|k]].
        -- rewrite fmap_cons, IH by done. by rewrite lower_point_high.
        -- rewrite fmap_cons, IH by done.
           by rewrite lower_point_high by (apply finish_high, F; done).
        -- apply IH. intros _. by apply F.
      * rewrite fmap_app. f_equal.
        { destruct more; [done|]. simpl. by rewrite lower_point_high. }
        destruct (N.ltb_spec (N_of_ascii c) 128); [lia|].
        destruct (N_of_ascii c <? 224)%N; [apply IH; intros _; lia|].
        destruct (N_of_ascii c <? 240)%N; apply IH; intros _; lia.
Qed.

Lemma lstrip_fmap (f : N → N) (l : text) :
  (∀ p, is_space (f p) = is_space p) → lstrip (f <$> l) = f <$> lstrip l.
Proof.
  intros Hf. induction l as [|p l IH]; [done|]. simpl. rewrite Hf.
  by destruct (is_space p).
Qed.

Lemma rstrip_fmap (f : N → N) (l : text) :
  (∀ p, is_space (f p) = is_space p) → rstrip (f <$> l) = f <$> rstrip l.
Proof.
  intros Hf. induction l as [|p l IH]; [done|].
  rewrite fmap_cons. cbn [rstrip]. rewrite IH, Hf.
  destruct (rstrip l); [by destruct (is_space p) | done].
Qed.

Lemma upper_lower_points (l : text) : upper (lower_point <$> l) = upper l.
Proof.
  unfold upper. induction l as [|p l IH]; [done|].
  rewrite fmap_cons.
  change ((lower_point p :: (lower_point <$> l)) ≫= upper_point)
    with (upper_point (lower_point p) ++ ((lower_point <$> l) ≫= upper_point)).
  change ((p :: l) ≫= upper_point) with (upper_point p ++ (l ≫= upper_point)).
  by rewrite upper_lower_point, IH.
Qed.

(** X10: the test that selects the row-set branch of [execute_query] does
    not depend on white space before or after the statement, ASCII or
    not, nor on the case of its ASCII letters. *)
Theorem returns_rows_ignores_case_and_blanks (query before after : string) :
  blank before = true →
  blank after = true →
  returns_rows (before +:+ query +:+ after) = returns_rows query
  ∧ returns_rows (lower query) = returns_rows query.
Proof.
  intros B A. unfold returns_rows. split.
  - by rewrite code_points_blanks, strip_blanks.
  - unfold code_points. rewrite decode_lower by done.
    unfold strip.
    rewrite lstrip_fmap, rstrip_fmap by apply is_space_lower_point.
    by rewrite upper_lower_points.
Qed.

Lemma returns_rows_ignores_case_and_blanks_witness :
  returns_rows (no_break_space +:+ "Select 1" +:+ ideographic_space) = true
  ∧ returns_rows (lower "Select 1") = true.
Proof.
  destruct (returns_rows_ignores_case_and_blanks "Select 1" no_break_space
              ideographic_space) as [H1 H2].
  - vm_compute. exact eq_refl.
  - vm_compute. exact eq_refl.
  - rewrite H1, H2. split; vm_compute; exact eq_refl.
Defined.

Lemma begins_other_letter (q : N) (s p : text) (c : N) :
  q ≠ c → begins (q :: s) (c :: p) = false.
Proof. intros H. simpl. by destruct (N.eqb_spec c q). Qed.

(** X11: a statement whose first character after white space is an ASCII
    character other than an S, a D or an E in either case (a statement
    that opens with a comment or a parenthesis, or with WITH, VALUES or
    TABLE) is never taken for one that returns rows. *)
Theorem returns_rows_needs_its_first_letter (query : string) (p : N)
    (rest : text) :
  strip (code_points query) = p :: rest →
  (p < 128)%N →
  p ∉ code_points "SsDdEe" →
  returns_rows query = false.
Proof.
  intros H L O. unfold returns_rows, startswith. rewrite H.
  assert (U : ∃ q, upper_point p = [q] ∧ q ≠ 83%N ∧ q ≠ 68%N ∧ q ≠ 69%N).
  { apply (below_128
             (λ p, bool_decide (p ∈ code_points "SsDdEe")
                   || match upper_point p with
                      | [q] => negb (q =? 83)%N && negb (q =? 68)%N
                               && negb (q =? 69)%N
                      | _ => false
                      end)) in L; [|vm_compute; exact eq_refl].
    apply orb_prop in L as [L|L]; [by apply bool_decide_eq_true in L|].
    destruct (upper_point p) as [|q [|]]; try done.
    exists q. apply andb_prop in L as [L L3]. apply andb_prop in L as [L1 L2].
    apply negb_true_iff, N.eqb_neq in L1.
    apply negb_true_iff, N.eqb_neq in L2.
    apply negb_true_iff, N.eqb_neq in L3. done. }
  destruct U as (q & U & Q1 & Q2 & Q3).
  unfold upper. change ((p :: rest) ≫= upper_point)
    with (upper_point p ++ (rest ≫= upper_point)).
  rewrite U. simpl app.
  change (code_points "SELECT") with (83 :: code_points "ELECT")%N.
  change (code_points "SHOW") with (83 :: code_points "HOW")%N.
  change (code_points "DESCRIBE") with (68 :: code_points "ESCRIBE")%N.
  change (code_points "EXPLAIN") with (69 :: code_points "XPLAIN")%N.
  by rewrite !begins_other_letter.
Qed.

Lemma returns_rows_needs_its_first_letter_witness :
  returns_rows "WITH t AS (SELECT 1) SELECT * FROM t" = false.
Proof.
  apply (returns_rows_needs_its_first_letter
           "WITH t AS (SELECT 1) SELECT * FROM t" 87
           (code_points "ITH t AS (SELECT 1) SELECT * FROM t")).
  - vm_compute. exact eq_refl.
  - lia.
  - vm_compute. intros H. apply list_elem_of_In in H. simpl in H.
    destruct H as [H|[H|[H|[H|[H|[H|[]]]]]]]; discriminate H.
Defined.

(** ** get_config_from_args *)

Lemma lookup_put_str (key : string) (a : option string) (c : config)
    (k : string) :
  put_str key a c !! k
  = if decide (k = key) then or_default (given_str a) (c !! k) else c !! k.
Proof.
  unfold put_str, given_str, or_default.
  destruct a as [s|]; [destruct (is_empty s)|]; case_decide; subst;
    by simplify_map_eq.
Qed.

Lemma lookup_put_int (key : string) (a : option Z) (c : config) (k : string) :
  put_int key a c !! k
  = if decide (k = key) then or_default (given_int a) (c !! k) else c !! k.
Proof.
  unfold put_int, given_int, or_default.
  destruct a as [z|]; [destruct (z =? 0)%Z|]; case_decide; subst;
    by simplify_map_eq.
Qed.

Lemma or_default_None (given : option value) : or_default given None = given.
Proof. by destruct given. Qed.

Lemma cmd_config_lookups (args : Namespace) :
  cmd_config args !! "host" = given_str (arg_host args)
  ∧ cmd_config args !! "port" = given_int (arg_port args)
  ∧ cmd_config args !! "user" = given_str (arg_user args)
  ∧ cmd_config args !! "password" = given_str (arg_password args)
  ∧ cmd_config args !! "database" = given_str (arg_database args)
  ∧ cmd_config args !! "connect_timeout"
    = given_int (arg_connection_timeout args)
  ∧ cmd_config args !! "connect_retry_count"
    = given_int (arg_connect_retry_count args).
Proof.
  split_and!; unfold cmd_config;
    repeat (first [rewrite lookup_put_str | rewrite lookup_put_int];
            case_decide; [try discriminate | try done]);
    by rewrite ?lookup_empty, ?or_default_None.
Qed.

Lemma lookup_union_or_default (m1 m2 : config) (k : string) :
  (m1 ∪ m2) !! k = or_default (m1 !! k) (m2 !! k).
Proof.
  unfold or_default. destruct (m1 !! k) as [v|] eqn:E.
  - by apply lookup_union_Some_l.
  - by apply lookup_union_r.
Qed.

(** X1: [get_config_from_args] returns a new dictionary and leaves the
    defaults as they are; for every option it holds the value of the
    command line when that is given and is neither empty nor zero, and
    the value of the defaults otherwise: an empty text or a zero on the
    command line is passed over. *)
Theorem get_config_from_args_merges (args : Namespace) (w : world)
    (dflt : config) :
  heap w !! DEFAULT_DB_CONFIG w = Some dflt →
  ∃ l w',
    get_config_from_args args w = (Ret l, w')
    ∧ heap w !! l = None
    ∧ heap w' !! DEFAULT_DB_CONFIG w' = Some dflt
    ∧ deref w' l !! "host"
      = or_default (given_str (arg_host args)) (dflt !! "host")
    ∧ deref w' l !! "port"
      = or_default (given_int (arg_port args)) (dflt !! "port")
    ∧ deref w' l !! "user"
      = or_default (given_str (arg_user args)) (dflt !! "user")
    ∧ deref w' l !! "password"
      = or_default (given_str (arg_password args)) (dflt !! "password")
    ∧ deref w' l !! "database"
      = or_default (given_str (arg_database args)) (dflt !! "database")
    ∧ deref w' l !! "connect_timeout"
      = or_default (given_int (arg_connection_timeout args))
                   (dflt !! "connect_timeout")
    ∧ deref w' l !! "connect_retry_count"
      = or_default (given_int (arg_connect_retry_count args))
                   (dflt !! "connect_retry_count").
Proof.
  intros H. rewrite (get_config_from_args_eq _ _ _ H).
  eexists _, _. split; [reflexivity|].
  split; [apply lookup_ge_None_2; lia|].
  split; [simpl; by apply lookup_app_l_Some|].
  assert (D : deref (set_heap (heap w ++ [cmd_config args; cmd_config args ∪ dflt]) w)
                (S (length (heap w))) = cmd_config args ∪ dflt).
  { unfold deref. simpl. rewrite lookup_app_r by lia.
    by replace (S (length (heap w)) - length (heap w)) with 1 by lia. }
  rewrite D, !lookup_union_or_default.
  destruct (cmd_config_lookups args) as (-> & -> & -> & -> & -> & -> & ->).
  done.
Qed.

(** [--connect-retry-count 0 --password ""] changes nothing. *)
Lemma get_config_from_args_merges_witness :
  ∃ l w',
    get_config_from_args
      {| arg_host := None; arg_port := None; arg_user := None;
         arg_password := Some EmptyString; arg_database := None;
         arg_connection_timeout := None;
         arg_connect_retry_count := Some 0%Z |}
      (import_module no_environ) = (Ret l, w')
    ∧ deref w' l !! "password" = Some (VStr "postgres")
    ∧ deref w' l !! "connect_retry_count" = Some (VInt 3).
Proof.
  destruct (get_config_from_args_merges
              {| arg_host := None; arg_port := None; arg_user := None;
                 arg_password := Some EmptyString; arg_database := None;
                 arg_connection_timeout := None;
                 arg_connect_retry_count := Some 0%Z |}
              (import_module no_environ) (default_db_config no_environ))
    as (l & w' & E & _ & _ & _ & _ & _ & P & _ & _ & R).
  - exact eq_refl.
  - exists l, w'. split; [exact E|]. split; [exact P | exact R].
Defined.
